(** * MamoraBotV3: streaming indicators, candle builder, boundary scheduler,
      clock synchronisation and strategy engine

    A shallow embedding of
      - [src/engine/indicators/index.js]   (EMA, RSI, ATR, BollingerBands, VWAP)
      - [src/engine/StrategyEngine.js]     (strategies, [evaluateStrategies])
      - [src/engine/Scheduler.js]          (candle-boundary scheduler)
      - [src/data/websocketClient.js]      (clock offset)
      - [src/workers/indicators.worker.js] (candle builder)

    Conventions.
      - A JavaScript number that carries a price or an indicator value is an
        element of a type [num] with the operations of the interface
        [JS.Number].  Two instances are given: exact rationals [Q] (the
        arithmetic the formulas are written in; division by zero, which JS
        maps to an infinity or NaN, is not represented and no theorem below
        divides by zero) and IEEE binary64 [float] (what the engine runs).
      - A [Date] is its time value: a whole number of milliseconds ([Z]), or
        [InvalidDate] when the time value is NaN.  [new Date(v)] gives an
        invalid date when [v] is NaN or beyond 8.64e15 ms from the epoch.
      - The theorems on numbers are over the exact rationals.  Time values
        and clock offsets are whole or half milliseconds, which binary64
        holds exactly up to 2^52, and the candle builder only compares and
        copies prices.  Of the indicators, only what rounding cannot change
        is stated: which updates return a value, and bounds that rounding
        preserves.
      - Mutable objects are records threaded through the functions that
        mutate them; a method returns its result together with the new
        state of [this]. *)

From Stdlib Require Import ZArith QArith Qround Qabs Lia Lqa List Bool PrimFloat Uint63.
From stdpp Require Import gmap strings list sorting.

Set Default Proof Using "Type*".

(* ===================================================================== *)
(** * JavaScript values used by the engine *)
(* ===================================================================== *)

Module JS.

(** The arithmetic and comparison operators the source applies to numbers. *)
Class Number (num : Type) := {
  of_Z     : Z -> num;                 (* integer literals, array lengths *)
  add      : num -> num -> num;        (* a + b *)
  sub      : num -> num -> num;        (* a - b *)
  mul      : num -> num -> num;        (* a * b *)
  div      : num -> num -> num;        (* a / b *)
  neg      : num -> num;               (* -a *)
  lt       : num -> num -> bool;       (* a < b *)
  le       : num -> num -> bool;       (* a <= b *)
  strict_eq : num -> num -> bool;       (* a === b *)
  Math_abs : num -> num;
  Math_max : num -> num -> num;
  Math_min : num -> num -> num
}.

(** [Math.sqrt], only needed by the Bollinger bands. *)
Class Sqrt (num : Type) := Math_sqrt : num -> num.

Definition gt {num} `{Number num} (a b : num) : bool := lt b a.   (* a > b *)
Definition ge {num} `{Number num} (a b : num) : bool := le b a.   (* a >= b *)

(** Exact rational arithmetic. *)
Definition Qlt_bool (a b : Q) : bool := negb (Qle_bool b a).

#[export] Instance Number_Q : Number Q := {|
  of_Z := inject_Z;
  add := Qplus; sub := Qminus; mul := Qmult; div := Qdiv; neg := Qopp;
  lt := Qlt_bool; le := Qle_bool; strict_eq := Qeq_bool;
  Math_abs := Qabs;
  Math_max := fun a b => if Qle_bool a b then b else a;
  Math_min := fun a b => if Qle_bool a b then a else b
|}.

(** IEEE 754 binary64, the representation of every JS number. *)
Definition float_of_Z (z : Z) : float :=
  if (z <? 0)%Z then PrimFloat.opp (PrimFloat.of_uint63 (Uint63.of_Z (- z)))
  else PrimFloat.of_uint63 (Uint63.of_Z z).

Definition float_max (a b : float) : float :=
  if PrimFloat.is_nan a || PrimFloat.is_nan b then PrimFloat.nan
  else if PrimFloat.ltb a b then b
  else if PrimFloat.ltb b a then a
  else if PrimFloat.get_sign a then b else a.

Definition float_min (a b : float) : float :=
  if PrimFloat.is_nan a || PrimFloat.is_nan b then PrimFloat.nan
  else if PrimFloat.ltb a b then a
  else if PrimFloat.ltb b a then b
  else if PrimFloat.get_sign a then a else b.

#[export] Instance Number_float : Number float := {|
  of_Z := float_of_Z;
  add := PrimFloat.add; sub := PrimFloat.sub; mul := PrimFloat.mul;
  div := PrimFloat.div; neg := PrimFloat.opp;
  lt := PrimFloat.ltb; le := PrimFloat.leb; strict_eq := PrimFloat.eqb;
  Math_abs := PrimFloat.abs;
  Math_max := float_max;
  Math_min := float_min
|}.

#[export] Instance Sqrt_float : Sqrt float := PrimFloat.sqrt.

(** [array.reduce((sum, x) => sum + x, 0)] *)
Definition sum {num} `{Number num} (l : list num) : num :=
  fold_left (fun acc x => add acc x) l (of_Z 0).

(** [array.shift()]: drops the first element. *)
Definition shift {A} (l : list A) : list A := tail l.

(** [array.length] as a number. *)
Definition len {num A} `{Number num} (l : list A) : num :=
  of_Z (Z.of_nat (length l)).

(** Time values. *)
Inductive Date := DateOf (ms : Z) | InvalidDate.

(** A whole number of milliseconds written where a [Date] is expected is
    the date with that time value. *)
Bind Scope Z_scope with Date.
Coercion DateOf : Z >-> Date.

(** The largest time value a [Date] holds: 100,000,000 days from the epoch,
    either way. *)
Definition Date_max : Z := 8640000000000000.

(** [new Date(v)] for a whole number [v]. *)
Definition new_Date (v : Z) : Date :=
  if (Z.abs v <=? Date_max)%Z then DateOf v else InvalidDate.

(** The whole part of a number (truncation toward zero). *)
Definition Qtrunc (x : Q) : Z := Z.quot (Qnum x) (Z.pos (Qden x)).

(** [new Date(x)] for a finite number [x]: the time value is [x] with its
    fraction dropped, and the date is invalid when [x] is out of range. *)
Definition new_Date_Q (x : Q) : Date :=
  if Qle_bool (Qabs x) (inject_Z Date_max) then DateOf (Qtrunc x) else InvalidDate.

End JS.

Import JS.

(* ===================================================================== *)
(** * Ticks and candles *)
(* ===================================================================== *)

Module Tick.
Record t (num : Type) := mk {
  symbol : string;
  ts     : Z;          (* [tick.ts.getTime()], of a valid date *)
  price  : num
}.
Arguments mk {num}.
Arguments symbol {num}.
Arguments ts {num}.
Arguments price {num}.
End Tick.

Module Candle.
Record t (num : Type) := mk {
  symbol    : string;
  frame     : string;
  open      : num;
  high      : num;
  low       : num;
  close     : num;
  ts_open   : Date;
  ts_close  : Date;
  volume    : Z;
  tickCount : Z
}.
Arguments mk {num}.
Arguments symbol {num}.
Arguments frame {num}.
Arguments open {num}.
Arguments high {num}.
Arguments low {num}.
Arguments close {num}.
Arguments ts_open {num}.
Arguments ts_close {num}.
Arguments volume {num}.
Arguments tickCount {num}.
End Candle.

(* ===================================================================== *)
(** * Streaming indicators ([src/engine/indicators/index.js]) *)
(* ===================================================================== *)

(** What the five indicator classes have in common: a constructor, and the
    methods [update], [getValue] and [reset]. *)
Class Indicator (S : Type) := {
  Params   : Type;
  Input    : Type;
  Output   : Type;
  create   : Params -> S;
  update   : S -> Input -> option Output * S;
  getValue : S -> option Output;
  reset    : S -> S
}.
Global Hint Mode Indicator ! : typeclass_instances.

Module EMA.
Section WithNumber.
Context {num : Type} `{Number num}.

Record state := mk {
  period     : num;
  multiplier : num;
  ema        : option num
}.

Definition new (period : num) : state :=
  {| period := period;
     multiplier := div (of_Z 2) (add period (of_Z 1));
     ema := None |}.

Definition update (this : state) (price : num) : option num * state :=
  let e := match ema this with
           | None => price
           | Some e => add (mul price (multiplier this))
                           (mul e (sub (of_Z 1) (multiplier this)))
           end in
  (Some e, {| period := period this; multiplier := multiplier this; ema := Some e |}).

Definition getValue (this : state) : option num := ema this.

Definition reset (this : state) : state :=
  {| period := period this; multiplier := multiplier this; ema := None |}.

End WithNumber.
Arguments state : clear implicits.
End EMA.

Module RSI.
Section WithNumber.
Context {num : Type} `{Number num}.

Record state := mk {
  period    : num;
  gains     : list num;
  losses    : list num;
  lastPrice : option num
}.

(** [constructor(period = 14)] *)
Definition new (period : option num) : state :=
  {| period := default (of_Z 14) period; gains := []; losses := []; lastPrice := None |}.

(** The value computed from a full window. *)
Definition value (this : state) : num :=
  let avgGain := div (sum (gains this)) (period this) in
  let avgLoss := div (sum (losses this)) (period this) in
  if strict_eq avgLoss (of_Z 0) then of_Z 100
  else
    let rs := div avgGain avgLoss in
    sub (of_Z 100) (div (of_Z 100) (add (of_Z 1) rs)).

Definition update (this : state) (price : num) : option num * state :=
  match lastPrice this with
  | Some last =>
      let change := sub price last in
      let gain := if gt change (of_Z 0) then change else of_Z 0 in
      let loss := if lt change (of_Z 0) then neg change else of_Z 0 in
      let gains1 := gains this ++ [gain] in
      let losses1 := losses this ++ [loss] in
      let over := gt (len gains1) (period this) in
      let gains2 := if over then shift gains1 else gains1 in
      let losses2 := if over then shift losses1 else losses1 in
      let this2 := {| period := period this; gains := gains2; losses := losses2;
                      lastPrice := lastPrice this |} in
      if strict_eq (len gains2) (period this) then
        (* returns from inside the block: [lastPrice] is not advanced *)
        (Some (value this2), this2)
      else
        (None, {| period := period this; gains := gains2; losses := losses2;
                  lastPrice := Some price |})
  | None =>
      (None, {| period := period this; gains := gains this; losses := losses this;
                lastPrice := Some price |})
  end.

Definition getValue (this : state) : option num :=
  if lt (len (gains this)) (period this) then None else Some (value this).

Definition reset (this : state) : state :=
  {| period := period this; gains := []; losses := []; lastPrice := None |}.

(** Outputs of successive [update] calls. *)
Fixpoint run (this : state) (prices : list num) : list (option num) :=
  match prices with
  | [] => []
  | p :: rest => let '(v, this') := update this p in v :: run this' rest
  end.

End WithNumber.
Arguments state : clear implicits.
End RSI.

Module ATR.
Section WithNumber.
Context {num : Type} `{Number num}.

Record state := mk {
  period     : num;
  trueRanges : list num;
  lastCandle : option (Candle.t num)
}.

(** [constructor(period = 14)] *)
Definition new (period : option num) : state :=
  {| period := default (of_Z 14) period; trueRanges := []; lastCandle := None |}.

Definition getValue (this : state) : option num :=
  if strict_eq (len (trueRanges this)) (of_Z 0) then None
  else Some (div (sum (trueRanges this)) (len (trueRanges this))).

Definition update (this : state) (candle : Candle.t num) : option num * state :=
  let ranges :=
    match lastCandle this with
    | Some last =>
        let high := Candle.high candle in
        let low := Candle.low candle in
        let prevClose := Candle.close last in
        let tr1 := sub high low in
        let tr2 := Math_abs (sub high prevClose) in
        let tr3 := Math_abs (sub low prevClose) in
        let trueRange := Math_max (Math_max tr1 tr2) tr3 in
        let pushed := trueRanges this ++ [trueRange] in
        if gt (len pushed) (period this) then shift pushed else pushed
    | None => trueRanges this
    end in
  let this' := {| period := period this; trueRanges := ranges; lastCandle := Some candle |} in
  (getValue this', this').

Definition reset (this : state) : state :=
  {| period := period this; trueRanges := []; lastCandle := None |}.

End WithNumber.
Arguments state : clear implicits.
End ATR.

Module BollingerBands.
Section WithNumber.
Context {num : Type} `{Number num} `{Sqrt num}.

Record bands := mkBands {
  middle    : num;
  upper     : num;
  lower     : num;
  bandwidth : num
}.

Record state := mk {
  period : num;
  stdDev : num;
  prices : list num
}.

(** [constructor(period = 20, stdDev = 2)] *)
Definition new (period stdDev : option num) : state :=
  {| period := default (of_Z 20) period; stdDev := default (of_Z 2) stdDev; prices := [] |}.

(** [Math.pow(p - sma, 2)] *)
Definition square (x : num) : num := mul x x.

Definition compute (this : state) : bands :=
  let sma := div (sum (prices this)) (period this) in
  let variance :=
    div (fold_left (fun acc p => add acc (square (sub p sma))) (prices this) (of_Z 0))
        (period this) in
  let stdDeviation := Math_sqrt variance in
  {| middle := sma;
     upper := add sma (mul stdDeviation (stdDev this));
     lower := sub sma (mul stdDeviation (stdDev this));
     bandwidth := div (mul (mul stdDeviation (stdDev this)) (of_Z 2)) sma |}.

Definition update (this : state) (price : num) : option bands * state :=
  let pushed := prices this ++ [price] in
  let window := if gt (len pushed) (period this) then shift pushed else pushed in
  let this' := {| period := period this; stdDev := stdDev this; prices := window |} in
  if lt (len window) (period this) then (None, this') else (Some (compute this'), this').

Definition getValue (this : state) : option bands :=
  if lt (len (prices this)) (period this) then None else Some (compute this).

Definition reset (this : state) : state :=
  {| period := period this; stdDev := stdDev this; prices := [] |}.

End WithNumber.
Arguments state : clear implicits.
Arguments bands : clear implicits.
End BollingerBands.

Module VWAP.
Section WithNumber.
Context {num : Type} `{Number num}.

Record state := mk {
  totalVolume      : num;
  totalVolumePrice : num
}.

Definition new : state := {| totalVolume := of_Z 0; totalVolumePrice := of_Z 0 |}.

Definition getValue (this : state) : option num :=
  if strict_eq (totalVolume this) (of_Z 0) then None
  else Some (div (totalVolumePrice this) (totalVolume this)).

(** [update(price, volume = 1)] *)
Definition update (this : state) (price : num) (volume : option num) : option num * state :=
  let volume := default (of_Z 1) volume in
  let this' := {| totalVolume := add (totalVolume this) volume;
                  totalVolumePrice := add (totalVolumePrice this) (mul price volume) |} in
  (getValue this', this').

Definition reset (this : state) : state := new.

End WithNumber.
Arguments state : clear implicits.
End VWAP.

Section IndicatorInstances.
Context {num : Type} `{Number num} `{Sqrt num}.

#[export] Instance Indicator_EMA : Indicator (EMA.state num) := {|
  Params := num; Input := num; Output := num;
  create := EMA.new; update := EMA.update;
  getValue := EMA.getValue; reset := EMA.reset |}.

#[export] Instance Indicator_RSI : Indicator (RSI.state num) := {|
  Params := option num; Input := num; Output := num;
  create := RSI.new; update := RSI.update;
  getValue := RSI.getValue; reset := RSI.reset |}.

#[export] Instance Indicator_ATR : Indicator (ATR.state num) := {|
  Params := option num; Input := Candle.t num; Output := num;
  create := ATR.new; update := ATR.update;
  getValue := ATR.getValue; reset := ATR.reset |}.

#[export] Instance Indicator_BollingerBands : Indicator (BollingerBands.state num) := {|
  Params := option num * option num; Input := num; Output := BollingerBands.bands num;
  create := fun p => BollingerBands.new (fst p) (snd p);
  update := BollingerBands.update;
  getValue := BollingerBands.getValue; reset := BollingerBands.reset |}.

#[export] Instance Indicator_VWAP : Indicator (VWAP.state num) := {|
  Params := unit; Input := num * option num; Output := num;
  create := fun _ => VWAP.new;
  update := fun this i => VWAP.update this (fst i) (snd i);
  getValue := VWAP.getValue; reset := VWAP.reset |}.

End IndicatorInstances.

(* ===================================================================== *)
(** * Strategies ([src/engine/StrategyEngine.js]) *)
(* ===================================================================== *)

Module Signal.

Inductive Side := long | short.
Inductive Crossover := bullish | bearish.

#[global] Instance Side_eq_dec : EqDecision Side.
Proof. solve_decision. Defined.
#[global] Instance Crossover_eq_dec : EqDecision Crossover.
Proof. solve_decision. Defined.

(** The [details] object of each strategy's signal. *)
Inductive Details (num : Type) :=
  | EMACrossDetails (fastEMA slowEMA : num) (crossover : Crossover) (price : num)
  | RSIDetails (rsi : num) (level : string) (price : num)
  | BandsDetails (price : num) (upper lower : num) (position : string) (bandwidth : num)
  | MultiDetails (price ema rsi : num) (atr : option num) (trend rsiCondition : string).
Arguments EMACrossDetails {num}.
Arguments RSIDetails {num}.
Arguments BandsDetails {num}.
Arguments MultiDetails {num}.

Record t (num : Type) := mk {
  side       : Side;
  confidence : num;
  details    : Details num
}.
Arguments mk {num}.
Arguments side {num}.
Arguments confidence {num}.
Arguments details {num}.

End Signal.

(** The flat parameter object of a strategy; a destructuring default applies
    to a name the object does not define. *)
Definition param {num} (params : gmap string num) (name : string) (dflt : num) : num :=
  default dflt (params !! name).

Module EMACrossStrategy.
Section WithNumber.
Context {num : Type} `{Number num}.

Record state := mk {
  fastEMA       : EMA.state num;
  slowEMA       : EMA.state num;
  lastCrossover : option Signal.Crossover
}.

Definition initializeIndicators (params : gmap string num) : state :=
  {| fastEMA := EMA.new (param params "fastPeriod" (of_Z 12));
     slowEMA := EMA.new (param params "slowPeriod" (of_Z 26));
     lastCrossover := None |}.

Definition evaluate (this : state) (tick : Tick.t num) (candle : option (Candle.t num))
  : option (Signal.t num) * state :=
  let price := Tick.price tick in
  let '(fast, fastEMA') := EMA.update (fastEMA this) price in
  let '(slow, slowEMA') := EMA.update (slowEMA this) price in
  match fast, slow with
  | Some fast, Some slow =>
      let currentCrossover := if gt fast slow then Signal.bullish else Signal.bearish in
      let this' := {| fastEMA := fastEMA'; slowEMA := slowEMA';
                      lastCrossover := Some currentCrossover |} in
      match lastCrossover this with
      | Some last =>
          if decide (last <> currentCrossover) then
            (Some {| Signal.side := match currentCrossover with
                                    | Signal.bullish => Signal.long
                                    | Signal.bearish => Signal.short
                                    end;
                     Signal.confidence := div (Math_abs (sub fast slow)) slow;
                     Signal.details :=
                       Signal.EMACrossDetails fast slow currentCrossover price |},
             this')
          else (None, this')
      | None => (None, this')
      end
  | _, _ =>
      (None, {| fastEMA := fastEMA'; slowEMA := slowEMA';
                lastCrossover := lastCrossover this |})
  end.

Definition reset (this : state) : state :=
  {| fastEMA := EMA.reset (fastEMA this); slowEMA := EMA.reset (slowEMA this);
     lastCrossover := lastCrossover this |}.

(** One [evaluate] call per price, on the same strategy object. *)
Fixpoint feed (this : state) (symbol : string) (prices : list num)
  : list (option (Signal.t num)) :=
  match prices with
  | [] => []
  | p :: rest =>
      let '(s, this') := evaluate this (Tick.mk symbol 0 p) None in
      s :: feed this' symbol rest
  end.

End WithNumber.
Arguments state : clear implicits.
End EMACrossStrategy.

Module RSIMeanReversionStrategy.
Section WithNumber.
Context {num : Type} `{Number num}.

Record state := mk {
  rsi             : RSI.state num;
  oversoldLevel   : num;
  overboughtLevel : num
}.

Definition initializeIndicators (params : gmap string num) : state :=
  {| rsi := RSI.new (Some (param params "period" (of_Z 14)));
     oversoldLevel := param params "oversoldLevel" (of_Z 30);
     overboughtLevel := param params "overboughtLevel" (of_Z 70) |}.

Definition evaluate (this : state) (tick : Tick.t num) (candle : option (Candle.t num))
  : option (Signal.t num) * state :=
  let '(r, rsi') := RSI.update (rsi this) (Tick.price tick) in
  let this' := {| rsi := rsi'; oversoldLevel := oversoldLevel this;
                  overboughtLevel := overboughtLevel this |} in
  match r with
  | None => (None, this')
  | Some r =>
      if le r (oversoldLevel this) then
        (Some {| Signal.side := Signal.long;
                 Signal.confidence := div (sub (oversoldLevel this) r) (oversoldLevel this);
                 Signal.details := Signal.RSIDetails r "oversold" (Tick.price tick) |},
         this')
      else if ge r (overboughtLevel this) then
        (Some {| Signal.side := Signal.short;
                 Signal.confidence := div (sub r (overboughtLevel this))
                                          (sub (of_Z 100) (overboughtLevel this));
                 Signal.details := Signal.RSIDetails r "overbought" (Tick.price tick) |},
         this')
      else (None, this')
  end.

Definition reset (this : state) : state :=
  {| rsi := RSI.reset (rsi this); oversoldLevel := oversoldLevel this;
     overboughtLevel := overboughtLevel this |}.

End WithNumber.
Arguments state : clear implicits.
End RSIMeanReversionStrategy.

Module BollingerBandsStrategy.
Section WithNumber.
Context {num : Type} `{Number num} `{Sqrt num}.

Record state := mk { bb : BollingerBands.state num }.

Definition initializeIndicators (params : gmap string num) : state :=
  {| bb := BollingerBands.new (Some (param params "period" (of_Z 20)))
                              (Some (param params "stdDev" (of_Z 2))) |}.

Definition evaluate (this : state) (tick : Tick.t num) (candle : option (Candle.t num))
  : option (Signal.t num) * state :=
  let '(b, bb') := BollingerBands.update (bb this) (Tick.price tick) in
  let this' := {| bb := bb' |} in
  match b with
  | None => (None, this')
  | Some bands =>
      let price := Tick.price tick in
      let upper := BollingerBands.upper bands in
      let lower := BollingerBands.lower bands in
      if le price lower then
        (Some {| Signal.side := Signal.long;
                 Signal.confidence := div (sub lower price) (sub upper lower);
                 Signal.details :=
                   Signal.BandsDetails price upper lower "below_lower_band"
                                       (BollingerBands.bandwidth bands) |},
         this')
      else if ge price upper then
        (Some {| Signal.side := Signal.short;
                 Signal.confidence := div (sub price upper) (sub upper lower);
                 Signal.details :=
                   Signal.BandsDetails price upper lower "above_upper_band"
                                       (BollingerBands.bandwidth bands) |},
         this')
      else (None, this')
  end.

Definition reset (this : state) : state := {| bb := BollingerBands.reset (bb this) |}.

End WithNumber.
Arguments state : clear implicits.
End BollingerBandsStrategy.

Module MultiIndicatorStrategy.
Section WithNumber.
Context {num : Type} `{Number num}.

Record state := mk {
  ema            : EMA.state num;
  rsi            : RSI.state num;
  atr            : ATR.state num;
  rsiOversold    : num;
  rsiOverbought  : num;
  minATRMultiple : num
}.

Definition initializeIndicators (params : gmap string num) : state :=
  {| ema := EMA.new (param params "emaPeriod" (of_Z 21));
     rsi := RSI.new (Some (param params "rsiPeriod" (of_Z 14)));
     atr := ATR.new (Some (param params "atrPeriod" (of_Z 14)));
     rsiOversold := param params "rsiOversold" (of_Z 30);
     rsiOverbought := param params "rsiOverbought" (of_Z 70);
     (* the literal 1.5 *)
     minATRMultiple := param params "minATRMultiple" (div (of_Z 3) (of_Z 2)) |}.

Definition evaluate (this : state) (tick : Tick.t num) (candle : option (Candle.t num))
  : option (Signal.t num) * state :=
  let price := Tick.price tick in
  let '(e, ema') := EMA.update (ema this) price in
  let '(r, rsi') := RSI.update (rsi this) price in
  let '(a, atr') := match candle with
                    | Some c => ATR.update (atr this) c
                    | None => (None, atr this)
                    end in
  let this' := {| ema := ema'; rsi := rsi'; atr := atr';
                  rsiOversold := rsiOversold this; rsiOverbought := rsiOverbought this;
                  minATRMultiple := minATRMultiple this |} in
  match e, r with
  | Some e, Some r =>
      let trendBullish := gt price e in
      let trendBearish := lt price e in
      let oversold := le r (rsiOversold this) in
      let overbought := ge r (rsiOverbought this) in
      let atrFilter :=
        match a with
        | None => true
        | Some a =>
            (* atr > price * 0.001 * minATRMultiple *)
            gt a (mul (mul price (div (of_Z 1) (of_Z 1000))) (minATRMultiple this))
        end in
      if trendBullish && oversold && atrFilter then
        (Some {| Signal.side := Signal.long;
                 Signal.confidence :=
                   Math_min (div (sub price e) e)
                            (div (sub (rsiOversold this) r) (rsiOversold this));
                 Signal.details := Signal.MultiDetails price e r a "bullish" "oversold" |},
         this')
      else if trendBearish && overbought && atrFilter then
        (Some {| Signal.side := Signal.short;
                 Signal.confidence :=
                   Math_min (div (sub e price) e)
                            (div (sub r (rsiOverbought this))
                                 (sub (of_Z 100) (rsiOverbought this)));
                 Signal.details := Signal.MultiDetails price e r a "bearish" "overbought" |},
         this')
      else (None, this')
  | _, _ => (None, this')
  end.

Definition reset (this : state) : state :=
  {| ema := EMA.reset (ema this); rsi := RSI.reset (rsi this); atr := ATR.reset (atr this);
     rsiOversold := rsiOversold this; rsiOverbought := rsiOverbought this;
     minATRMultiple := minATRMultiple this |}.

End WithNumber.
Arguments state : clear implicits.
End MultiIndicatorStrategy.

(* ===================================================================== *)
(** * The strategy engine *)
(* ===================================================================== *)

Module StrategyEngine.

(** Thrown values. *)
Inductive exn :=
  | Error (msg : string)
  | TypeError (msg : string)
  | StoreError (msg : string).

(** A call either returns or throws. *)
Inductive outcome (A : Type) := Returned (a : A) | Threw (e : exn).
Arguments Returned {A}.
Arguments Threw {A}.

(** The capability set of a strategy object: [evaluate], and the [id] and
    [name] that [createStrategy] attaches to it. *)
Class Strategy (num S : Type) := {
  evaluate : S -> Tick.t num -> option (Candle.t num)
             -> outcome (option (Signal.t num)) * S;
  id   : S -> string;
  name : S -> string
}.

(** The persistence collaborator (supabase): what an awaited
    [insert(..).select().single()] resolves to, or that it rejects. *)
Record response := mkResponse {
  data  : option string;       (* [data.id] of the stored row, [None] for null *)
  error : option string
}.

Record signal_row (num : Type) := mkRow {
  row_symbol      : string;
  row_strategy_id : string;
  row_ts          : Z;
  row_side        : Signal.Side;
  row_confidence  : num;
  row_details     : Signal.Details num
}.
Arguments mkRow {num}.

Record strategy_row (num : Type) := mkStrategyRow {
  row_owner  : string;
  row_name   : string;
  row_params : gmap string num;
  row_active : bool
}.
Arguments mkStrategyRow {num}.

Class Store (num DB : Type) := {
  insert_signal   : signal_row num -> DB -> outcome response * DB;
  insert_strategy : strategy_row num -> DB -> outcome response * DB
}.

(** An element of the array [evaluateStrategies] returns:
    [{...signal, id: data.id, strategy: strategy.name}]. *)
Record emitted (num : Type) := mkEmitted {
  signal          : Signal.t num;
  signal_id       : string;
  signal_strategy : string
}.
Arguments mkEmitted {num}.
Arguments signal {num}.
Arguments signal_id {num}.
Arguments signal_strategy {num}.

Section Engine.
Context {num S DB : Type} `{Strategy num S} `{Store num DB}.

(** Strategy objects are shared by reference: the array handed to
    [evaluateStrategies] holds references into the heap. *)
Definition ref := nat.

Record world := mkWorld {
  heap      : ref -> S;
  db        : DB;
  console   : list (string * exn);   (* [console.error] lines *)
  evaluated : list ref               (* history of [evaluate] calls (ghost) *)
}.

(** State and exception monad of the engine's code.  An awaited call is
    one step: what other tasks do while the engine waits is not modelled. *)
Definition M (A : Type) : Type := world -> outcome A * world.

Definition ret {A} (a : A) : M A := fun w => (Returned a, w).

Definition bind {A B} (m : M A) (k : A -> M B) : M B :=
  fun w => match m w with
           | (Returned a, w') => k a w'
           | (Threw e, w') => (Threw e, w')
           end.

Definition throw {A} (e : exn) : M A := fun w => (Threw e, w).

Definition try_catch {A} (m : M A) (handler : exn -> M A) : M A :=
  fun w => match m w with
           | (Returned a, w') => (Returned a, w')
           | (Threw e, w') => handler e w'
           end.

Notation "'do' x <- m ; k" := (bind m (fun x => k))
  (at level 10, x name, m at level 100, k at level 200, only parsing).

(** [for (const x of l) body], threading the loop's local state. *)
Fixpoint for_of {A B} (l : list A) (body : A -> B -> M B) (acc : B) : M B :=
  match l with
  | [] => ret acc
  | x :: rest => do acc' <- body x acc ; for_of rest body acc'
  end.

(** [await strategy.evaluate(tick, candle)] *)
Definition call_evaluate (r : ref) (tick : Tick.t num) (candle : option (Candle.t num))
  : M (option (Signal.t num)) :=
  fun w =>
    let '(res, s') := evaluate (heap w r) tick candle in
    (res, {| heap := fun r' => if Nat.eqb r' r then s' else heap w r';
             db := db w; console := console w;
             evaluated := evaluated w ++ [r] |}).

Definition strategy_id (r : ref) : M string := fun w => (Returned (id (heap w r)), w).
Definition strategy_name (r : ref) : M string := fun w => (Returned (name (heap w r)), w).

(** [await supabase.from('signals').insert(row).select().single()] *)
Definition persist_signal (row : signal_row num) : M response :=
  fun w =>
    let '(res, db') := insert_signal row (db w) in
    (res, {| heap := heap w; db := db'; console := console w; evaluated := evaluated w |}).

Definition console_error (who : string) (e : exn) : M unit :=
  fun w => (Returned tt, {| heap := heap w; db := db w;
                           console := console w ++ [(who, e)];
                           evaluated := evaluated w |}).

(** [data.id]: a [TypeError] when [data] is null. *)
Definition data_id (r : response) : M string :=
  match data r with
  | Some i => ret i
  | None => throw (TypeError "Cannot read properties of null (reading 'id')")
  end.

Definition evaluateStrategies (tick : Tick.t num) (candle : option (Candle.t num))
                              (strategies : list ref) : M (list (emitted num)) :=
  for_of strategies
    (fun strategy signals =>
       try_catch
         (do sg <- call_evaluate strategy tick candle ;
          match sg with
          | Some sg =>
              do sid <- strategy_id strategy ;
              do resp <- persist_signal
                        {| row_symbol := Tick.symbol tick;
                           row_strategy_id := sid;
                           row_ts := Tick.ts tick;
                           row_side := Signal.side sg;
                           row_confidence := Signal.confidence sg;
                           row_details := Signal.details sg |} ;
              match error resp with
              | None =>
                  do i <- data_id resp ;
                  do nm <- strategy_name strategy ;
                  ret (signals ++ [mkEmitted sg i nm])
              | Some _ => ret signals
              end
          | None => ret signals
          end)
         (fun e =>
            do nm <- strategy_name strategy ;
            do _ <- console_error nm e ;
            ret signals))
    [].

End Engine.

Arguments world : clear implicits.
Arguments M : clear implicits.

(** ** The built-in strategy classes and the registry *)

Inductive kind := EMA_Cross | RSI_MeanReversion | BollingerBands | MultiIndicator.

Section Builtin.
Context {num : Type} `{Number num} `{Sqrt num}.

Inductive instance :=
  | IBase                                                   (* [BaseStrategy] itself *)
  | IEMACross (s : EMACrossStrategy.state num)
  | IRSIMeanReversion (s : RSIMeanReversionStrategy.state num)
  | IBollingerBands (s : BollingerBandsStrategy.state num)
  | IMultiIndicator (s : MultiIndicatorStrategy.state num).

Record object := mkObject {
  object_id   : string;
  object_name : string;
  object_body : instance
}.

(** [new StrategyClass(params)] *)
Definition construct (k : kind) (params : gmap string num) : instance :=
  match k with
  | EMA_Cross => IEMACross (EMACrossStrategy.initializeIndicators params)
  | RSI_MeanReversion =>
      IRSIMeanReversion (RSIMeanReversionStrategy.initializeIndicators params)
  | BollingerBands => IBollingerBands (BollingerBandsStrategy.initializeIndicators params)
  | MultiIndicator => IMultiIndicator (MultiIndicatorStrategy.initializeIndicators params)
  end.

Definition object_evaluate (o : object) (tick : Tick.t num) (candle : option (Candle.t num))
  : outcome (option (Signal.t num)) * object :=
  let wrap {St} (inj : St -> instance) (r : option (Signal.t num) * St) :=
    (Returned (fst r), mkObject (object_id o) (object_name o) (inj (snd r))) in
  match object_body o with
  | IBase => (Threw (Error "evaluate method must be implemented"), o)
  | IEMACross s => wrap IEMACross (EMACrossStrategy.evaluate s tick candle)
  | IRSIMeanReversion s =>
      wrap IRSIMeanReversion (RSIMeanReversionStrategy.evaluate s tick candle)
  | IBollingerBands s => wrap IBollingerBands (BollingerBandsStrategy.evaluate s tick candle)
  | IMultiIndicator s => wrap IMultiIndicator (MultiIndicatorStrategy.evaluate s tick candle)
  end.

#[export] Instance Strategy_object : Strategy num object := {|
  evaluate := object_evaluate;
  id := object_id;
  name := object_name
|}.

(** The [strategies] map of the engine after the four [registerStrategy]
    calls at the end of the module. *)
Definition registerStrategy (name : string) (k : kind) (strategies : gmap string kind)
  : gmap string kind := <[name := k]> strategies.

Definition strategies : gmap string kind :=
  registerStrategy "MultiIndicator" MultiIndicator
    (registerStrategy "BollingerBands" BollingerBands
       (registerStrategy "RSI_MeanReversion" RSI_MeanReversion
          (registerStrategy "EMA_Cross" EMA_Cross ∅))).

Context {DB : Type} `{Store num DB}.

Definition createStrategy (registry : gmap string kind)
    (name : string) (params : gmap string num) (userId : string) (d : DB)
  : outcome object * DB :=
  match registry !! name with
  | None => (Threw (Error ("Strategy " +:+ name +:+ " not found")), d)
  | Some StrategyClass =>
      match insert_strategy {| row_owner := userId; row_name := name;
                               row_params := params; row_active := true |} d with
      | (Threw e, d') => (Threw e, d')
      | (Returned resp, d') =>
          match error resp with
          | Some msg => (Threw (StoreError msg), d')
          | None =>
              match data resp with
              | None =>
                  (Threw (TypeError "Cannot read properties of null (reading 'id')"), d')
              | Some i => (Returned (mkObject i name (construct StrategyClass params)), d')
              end
          end
      end
  end.

End Builtin.
Arguments instance : clear implicits.
Arguments object : clear implicits.

End StrategyEngine.

(* ===================================================================== *)
(** * Timeframe tables *)
(* ===================================================================== *)

Module Timeframes.

(** The object literal that both [Scheduler] and [IndicatorWorker] use. *)
Definition table : list (string * Z) :=
  [ ("1s", 1000); ("5s", 5000); ("15s", 15000); ("30s", 30000);
    ("1m", 60000); ("5m", 300000); ("15m", 900000); ("30m", 1800000);
    ("1h", 3600000); ("4h", 14400000); ("1d", 86400000) ]%Z.

(** A property read [timeframes[key]] also finds what an object literal
    inherits from [Object.prototype]. *)
Definition Object_prototype : list string :=
  [ "constructor"; "__defineGetter__"; "__defineSetter__"; "hasOwnProperty";
    "__lookupGetter__"; "__lookupSetter__"; "isPrototypeOf";
    "propertyIsEnumerable"; "toString"; "valueOf"; "__proto__"; "toLocaleString" ].

(** The value of a property read: a duration in ms, or an inherited function
    or object (truthy, and NaN in arithmetic). *)
Inductive property := Ms (T : Z) | Inherited.

Fixpoint assoc (key : string) (l : list (string * Z)) : option Z :=
  match l with
  | [] => None
  | (k, v) :: rest => if String.eqb k key then Some v else assoc key rest
  end.

(** [timeframes[key]], [None] for [undefined]. *)
Definition get (key : string) : option property :=
  match assoc key table with
  | Some T => Some (Ms T)
  | None => if existsb (String.eqb key) Object_prototype then Some Inherited else None
  end.

(** The timeframe durations of the table. *)
Definition durations : list Z := map snd table.

End Timeframes.

(* ===================================================================== *)
(** * Clock synchronisation ([src/data/websocketClient.js]) *)
(* ===================================================================== *)

Module WebSocketClient.

Record state := mk {
  clockOffset  : option Q;      (* [None] for NaN *)
  lastPingTime : option Z;
  isConnected  : bool
}.

(** [constructor()] *)
Definition new : state :=
  {| clockOffset := Some 0%Q; lastPingTime := None; isConnected := false |}.

(** [getServerTime()], with [now] the reading of [Date.now()]:
    [new Date(Date.now() + this.clockOffset)]. *)
Definition getServerTime (this : state) (now : Z) : Date :=
  match clockOffset this with
  | Some offset => new_Date_Q (inject_Z now + offset)
  | None => InvalidDate
  end.

(** [syncClock()]: sends [{type: 'ping'}] and records when. *)
Definition syncClock (this : state) (now : Z) : state :=
  if negb (isConnected this) then this
  else {| clockOffset := clockOffset this; lastPingTime := Some now;
          isConnected := isConnected this |}.

(** [!this.lastPingTime] *)
Definition falsy (t : option Z) : bool :=
  match t with
  | None => true
  | Some t => (t =? 0)%Z
  end.

(** [handlePong(data)], with [server_time] the date
    [new Date(data.server_time)]; its time value is NaN when the message
    carries no readable time. *)
Definition handlePong (this : state) (server_time : Date) (now : Z) : state :=
  if falsy (lastPingTime this) then this
  else
    let rtt := (now - default 0 (lastPingTime this))%Z in
    {| clockOffset := match server_time with
                      | DateOf serverTime =>
                          Some (inject_Z serverTime - inject_Z now + inject_Z rtt / 2)%Q
                      | InvalidDate => None
                      end;
       lastPingTime := lastPingTime this;
       isConnected := isConnected this |}.

(** [updateClockOffset(data)] *)
Definition updateClockOffset (this : state) (server_time : Date) (now : Z) : state :=
  {| clockOffset := match server_time with
                    | DateOf serverTime => Some (inject_Z serverTime - inject_Z now)%Q
                    | InvalidDate => None
                    end;
     lastPingTime := lastPingTime this;
     isConnected := isConnected this |}.

(** What happens to the client, each with its reading of [Date.now()]. *)
Inductive event :=
  | Open (now : Z)                     (* [ws.onopen]: [startClockSync] pings at once *)
  | ClockSyncTick (now : Z)            (* the 30 s interval of [startClockSync] *)
  | HeartbeatTick (now : Z)            (* the 10 s interval of [startHeartbeat] *)
  | Pong (server_time : Date) (now : Z)         (* a [pong] message *)
  | ServerTime (server_time : Date) (now : Z)   (* a [server_time] message *)
  | Close.                             (* [ws.onclose] *)

Definition handle (this : state) (e : event) : state :=
  match e with
  | Open now =>
      syncClock {| clockOffset := clockOffset this; lastPingTime := lastPingTime this;
                   isConnected := true |} now
  | ClockSyncTick now => syncClock this now
  | HeartbeatTick now => this        (* sends a ping, records nothing *)
  | Pong server_time now => handlePong this server_time now
  | ServerTime server_time now => updateClockOffset this server_time now
  | Close => {| clockOffset := clockOffset this; lastPingTime := lastPingTime this;
                isConnected := false |}
  end.

Definition run (events : list event) : state := fold_left handle events new.



End WebSocketClient.

(* ===================================================================== *)
(** * The boundary scheduler ([src/engine/Scheduler.js]) *)
(* ===================================================================== *)

Module Scheduler.
Import Timeframes.

(** What the closure [scheduleNext] of one [scheduleAtCandleBoundary] call
    captures.  A callback is known by an identifier; what it does when it
    runs is the caller's code, and the calls it makes back into the scheduler
    are the events that may come between [Fire] and [Rearm] below. *)
Record closure := mkClosure {
  c_jobId      : string;
  c_symbol     : string;
  c_timeframe  : string;
  c_callback   : nat;
  c_intervalMs : property;
  c_offset     : Z
}.

(** A pending [setTimeout]: its handler fires [executeAtBoundary] for
    [t_target], then re-arms.  [t_delay] is the delay argument, [None] for NaN. *)
Record timer := mkTimer {
  t_closure : closure;
  t_target  : Date;
  t_delay   : option Z
}.

Record job := mkJob {
  timeoutId     : nat;
  nextExecution : Date
}.

Record timing_error := mkTimingError {
  te_symbol       : string;
  te_timeframe    : string;
  te_expectedTime : Date;
  te_actualTime   : Date;
  te_errorMs      : option Z      (* [None] for NaN *)
}.

(** One call of a job's callback (ghost history). *)
Record invocation := mkInvocation {
  i_jobId        : string;
  i_callback     : nat;
  i_expectedTime : Date
}.

Record state := mkState {
  jobs         : gmap string job;
  timingErrors : list timing_error;
  (* the host's timers *)
  timers       : gmap nat timer;
  nextTimeout  : nat;
  (* the timer handler that has called [executeAtBoundary] and not yet
     reached its [if (this.jobs.has(jobId))] *)
  running      : option closure;
  invocations  : list invocation
}.

Definition new : state :=
  {| jobs := ∅; timingErrors := []; timers := ∅; nextTimeout := 0;
     running := None; invocations := [] |}.

(** [getNextCandleBoundary(currentTime, intervalMs)]; [%] is the remainder
    that takes the sign of the dividend, and NaN for a zero divisor or an
    invalid date. *)
Definition getNextCandleBoundary (currentTime : Date) (intervalMs : Z) : Date :=
  match currentTime with
  | DateOf timestamp =>
      if (intervalMs =? 0)%Z then InvalidDate
      else
        let remainder := Z.rem timestamp intervalMs in
        let nextBoundaryTime := (timestamp - remainder + intervalMs)%Z in
        new_Date nextBoundaryTime
  | InvalidDate => InvalidDate
  end.

(** What [scheduleNext] hands to [setTimeout] and stores in the job: the
    target boundary and the delay.  When the clock or the boundary is an
    invalid date the delay is NaN: [NaN <= 0] is false, and [setTimeout]
    takes a NaN delay for no delay. *)
Definition arm (intervalMs : property) (offset : Z) (serverTime : Date) : Date * option Z :=
  match intervalMs with
  | Ms T =>
      let nextBoundary := getNextCandleBoundary serverTime T in
      match nextBoundary, serverTime with
      | DateOf boundary, DateOf now =>
          let delay := boundary - now - offset in
          if delay <=? 0 then
            let nextNextBoundary := new_Date (boundary + T) in
            match nextNextBoundary with
            | DateOf following =>
                let nextDelay := following - now - offset in
                (nextNextBoundary, Some (Z.max 0 nextDelay))
            | InvalidDate => (nextNextBoundary, None)   (* [Math.max(0, NaN)] *)
            end
          else (nextBoundary, Some delay)
      | _, _ => (nextBoundary, None)
      end
  | Inherited =>
      (* arithmetic on a function gives NaN *)
      (InvalidDate, None)
  end%Z.

(** [scheduleNext()], with [serverTime] the reading of
    [realtimeClient.getServerTime()]. *)
Definition scheduleNext (c : closure) (serverTime : Date) (this : state) : state :=
  let '(target, delay) := arm (c_intervalMs c) (c_offset c) serverTime in
  let id := nextTimeout this in
  {| jobs := <[c_jobId c := {| timeoutId := id; nextExecution := target |}]> (jobs this);
     timingErrors := timingErrors this;
     timers := <[id := {| t_closure := c; t_target := target; t_delay := delay |}]>
                 (timers this);
     nextTimeout := S id;
     running := running this;
     invocations := invocations this |}.

(** The decimal digits of a time value, for the job id. *)
Definition digit (d : Z) : string :=
  String (Ascii.ascii_of_nat (48 + Z.to_nat d)) EmptyString.

Fixpoint digits (fuel : nat) (n : Z) : string :=
  match fuel with
  | O => ""
  | S fuel =>
      if (n <? 10)%Z then digit n
      else digits fuel (n / 10)%Z +:+ digit (n mod 10)%Z
  end.

Definition string_of_Z (n : Z) : string :=
  let fuel m := S (Z.to_nat (Z.log2 m)) in
  if (n <? 0)%Z then "-" +:+ digits (fuel (- n)%Z) (- n)%Z else digits (fuel n) n.

(** [`${symbol}_${timeframe}_${Date.now()}`] *)
Definition make_jobId (symbol timeframe : string) (now : Z) : string :=
  symbol +:+ "_" +:+ timeframe +:+ "_" +:+ string_of_Z now.

(** [scheduleAtCandleBoundary(symbol, timeframe, callback, options)]:
    the job id, or the message of the error thrown. *)
Definition scheduleAtCandleBoundary
    (symbol timeframe : string) (callback : nat) (offset : option Z)
    (now : Z) (serverTime : Date) (this : state) : (string + string) * state :=
  let offset := default 5%Z offset in
  match Timeframes.get timeframe with
  | None => (inl ("Invalid timeframe: " +:+ timeframe), this)
  | Some intervalMs =>
      let jobId := make_jobId symbol timeframe now in
      let c := {| c_jobId := jobId; c_symbol := symbol; c_timeframe := timeframe;
                  c_callback := callback; c_intervalMs := intervalMs;
                  c_offset := offset |} in
      (inr jobId, scheduleNext c serverTime this)
  end.

(** The first statements of [executeAtBoundary(symbol, timeframe, callback,
    expectedTime)], up to the read of the tick buffer: the timing error is
    recorded.  [actualTime] is the reading of [realtimeClient.getServerTime()]. *)
Definition recordTimingError (c : closure) (expectedTime actualTime : Date)
    (this : state) : state :=
  let timingError := match actualTime, expectedTime with
                     | DateOf a, DateOf e => Some (a - e)%Z
                     | _, _ => None
                     end in
  let pushed := timingErrors this ++
                [ {| te_symbol := c_symbol c; te_timeframe := c_timeframe c;
                     te_expectedTime := expectedTime; te_actualTime := actualTime;
                     te_errorMs := timingError |} ] in
  {| jobs := jobs this;
     timingErrors := if (1000 <? length pushed)%nat then shift pushed else pushed;
     timers := timers this;
     nextTimeout := nextTimeout this;
     running := running this;
     invocations := invocations this |}.

(** [executeAtBoundary] when [realtimeClient] is the socket client: the tick
    buffer is read and the callback is called, inside a [try]. *)
Definition executeAtBoundary (c : closure) (expectedTime actualTime : Date)
    (this : state) : state :=
  let this' := recordTimingError c expectedTime actualTime this in
  {| jobs := jobs this';
     timingErrors := timingErrors this';
     timers := timers this';
     nextTimeout := nextTimeout this';
     running := running this';
     invocations := invocations this' ++
                    [ {| i_jobId := c_jobId c; i_callback := c_callback c;
                         i_expectedTime := expectedTime |} ] |}.

(** [cancelJob(jobId)] *)
Definition cancelJob (jobId : string) (this : state) : bool * state :=
  match jobs this !! jobId with
  | Some j =>
      (true, {| jobs := delete jobId (jobs this);
                timingErrors := timingErrors this;
                timers := delete (timeoutId j) (timers this);      (* [clearTimeout] *)
                nextTimeout := nextTimeout this;
                running := running this;
                invocations := invocations this |})
  | None => (false, this)
  end.

(** [cancelAllJobs()] *)
Definition cancelAllJobs (this : state) : state :=
  {| jobs := ∅;
     timingErrors := timingErrors this;
     timers := map_fold (fun _ j ts => delete (timeoutId j) ts) (timers this) (jobs this);
     nextTimeout := nextTimeout this;
     running := running this;
     invocations := invocations this |}.

(** What the event loop and the callers do to the scheduler. *)
Inductive event :=
  | Schedule (symbol timeframe : string) (callback : nat) (offset : option Z)
             (now : Z) (serverTime : Date)
  | Fire (id : nat) (serverTime : Date)  (* timer [id] expires: the callback is called *)
  | FireFallback (id : nat) (serverTime : Date)
      (* timer [id] expires while [realtimeClient] is the fallback
         [MockWebSocketClient], which has no [getTickBuffer]:
         [executeAtBoundary] throws before it calls the callback, and the
         handler ends there *)
  | Rearm (serverTime : Date)            (* the handler reaches [if (this.jobs.has(jobId))] *)
  | Cancel (jobId : string)
  | CancelAll.

(** One event; [None] when the event cannot happen in that state (a timer
    that is not pending, a handler that is not running, a second handler
    while one runs).  Which of [Fire] and [FireFallback] a timer takes is
    fixed when the module is loaded, by the client that [realtimeClient]
    is. *)
Definition step (this : state) (e : event) : option state :=
  match e with
  | Schedule symbol timeframe callback offset now serverTime =>
      Some (snd (scheduleAtCandleBoundary symbol timeframe callback offset
                                          now serverTime this))
  | Fire id serverTime =>
      match running this, timers this !! id with
      | None, Some t =>
          let this' := {| jobs := jobs this; timingErrors := timingErrors this;
                          timers := delete id (timers this);
                          nextTimeout := nextTimeout this;
                          running := Some (t_closure t);
                          invocations := invocations this |} in
          Some (executeAtBoundary (t_closure t) (t_target t) serverTime this')
      | _, _ => None
      end
  | FireFallback id serverTime =>
      match running this, timers this !! id with
      | None, Some t =>
          let this' := {| jobs := jobs this; timingErrors := timingErrors this;
                          timers := delete id (timers this);
                          nextTimeout := nextTimeout this;
                          running := None;
                          invocations := invocations this |} in
          Some (recordTimingError (t_closure t) (t_target t) serverTime this')
      | _, _ => None
      end
  | Rearm serverTime =>
      match running this with
      | Some c =>
          let this' := {| jobs := jobs this; timingErrors := timingErrors this;
                          timers := timers this; nextTimeout := nextTimeout this;
                          running := None; invocations := invocations this |} in
          Some (if bool_decide (is_Some (jobs this !! c_jobId c))
                then scheduleNext c serverTime this' else this')
      | None => None
      end
  | Cancel jobId => Some (snd (cancelJob jobId this))
  | CancelAll => Some (cancelAllJobs this)
  end.

Fixpoint steps (this : state) (events : list event) : option state :=
  match events with
  | [] => Some this
  | e :: rest => match step this e with
                 | Some this' => steps this' rest
                 | None => None
                 end
  end.

(** The job id a [Schedule] event creates, if it creates one. *)
Definition scheduled_id (e : event) : option string :=
  match e with
  | Schedule symbol timeframe _ _ now _ =>
      match Timeframes.get timeframe with
      | Some _ => Some (make_jobId symbol timeframe now)
      | None => None
      end
  | _ => None
  end.

End Scheduler.

(* ===================================================================== *)
(** * The candle builder ([src/workers/indicators.worker.js]) *)
(* ===================================================================== *)

Module IndicatorWorker.
Import Timeframes.

(** [getTimeframeMs(timeframe)]: [timeframes[timeframe] || 60000] *)
Definition getTimeframeMs (timeframe : string) : property :=
  match Timeframes.get timeframe with
  | Some v => v
  | None => Ms 60000
  end.

(** [getMsToTimeframe(ms)]: [timeframes[ms] || '1m'] *)
Definition getMsToTimeframe (ms : property) : string :=
  match ms with
  | Ms T =>
      match find (fun kv => (snd kv =? T)%Z) Timeframes.table with
      | Some kv => fst kv
      | None => "1m"
      end
  | Inherited => "1m"
  end.

(** [getCandleStart(timestamp, timeframeMs)] *)
Definition getCandleStart (ts : Z) (timeframeMs : property) : Date :=
  match timeframeMs with
  | Ms T =>
      if (T =? 0)%Z then InvalidDate
      else let remainder := Z.rem ts T in new_Date (ts - remainder)
  | Inherited => InvalidDate
  end.

(** [a.getTime() !== b.getTime()]; NaN differs from everything. *)
Definition time_differs (a b : Date) : bool :=
  match a, b with
  | DateOf x, DateOf y => negb (x =? y)%Z
  | _, _ => true
  end.

Section WithNumber.
Context {num : Type} `{Number num}.

Record builder := mkBuilder {
  currentCandle : option (Candle.t num);
  timeframeMs   : property
}.

Record result := mkResult {
  completed   : option (Candle.t num);
  current     : Candle.t num;
  isNewCandle : bool
}.

(** [createNewCandle(tick, candleStart, timeframeMs)] *)
Definition createNewCandle (tick : Tick.t num) (candleStart : Date) (timeframeMs : property)
  : Candle.t num :=
  {| Candle.symbol := Tick.symbol tick;
     Candle.frame := getMsToTimeframe timeframeMs;
     Candle.open := Tick.price tick;
     Candle.high := Tick.price tick;
     Candle.low := Tick.price tick;
     Candle.close := Tick.price tick;
     Candle.ts_open := candleStart;
     Candle.ts_close := match candleStart, timeframeMs with
                        | DateOf s, Ms T => new_Date (s + T)
                        | _, _ => InvalidDate
                        end;
     Candle.volume := 1;
     Candle.tickCount := 1 |}.

(** [updateCandle(candle, tick)] *)
Definition updateCandle (candle : Candle.t num) (tick : Tick.t num) : Candle.t num :=
  {| Candle.symbol := Candle.symbol candle;
     Candle.frame := Candle.frame candle;
     Candle.open := Candle.open candle;
     Candle.high := Math_max (Candle.high candle) (Tick.price tick);
     Candle.low := Math_min (Candle.low candle) (Tick.price tick);
     Candle.close := Tick.price tick;
     Candle.ts_open := Candle.ts_open candle;
     Candle.ts_close := Candle.ts_close candle;
     Candle.volume := Candle.volume candle + 1;
     Candle.tickCount := Candle.tickCount candle + 1 |}.

(** The body of [buildCandle] once the builder of the key is at hand. *)
Definition ingest (b : builder) (tick : Tick.t num) : result * builder :=
  let candleStart := getCandleStart (Tick.ts tick) (timeframeMs b) in
  match currentCandle b with
  | Some cur =>
      if time_differs (Candle.ts_open cur) candleStart then
        let fresh := createNewCandle tick candleStart (timeframeMs b) in
        ({| completed := Some cur; current := fresh; isNewCandle := true |},
         {| currentCandle := Some fresh; timeframeMs := timeframeMs b |})
      else
        let cur' := updateCandle cur tick in
        ({| completed := None; current := cur'; isNewCandle := false |},
         {| currentCandle := Some cur'; timeframeMs := timeframeMs b |})
  | None =>
      let fresh := createNewCandle tick candleStart (timeframeMs b) in
      ({| completed := None; current := fresh; isNewCandle := true |},
       {| currentCandle := Some fresh; timeframeMs := timeframeMs b |})
  end.

(** [buildCandle(symbol, timeframe, tick)] on the [candleBuilders] map. *)
Definition buildCandle (candleBuilders : gmap string builder)
    (symbol timeframe : string) (tick : Tick.t num)
  : result * gmap string builder :=
  let key := symbol +:+ "_" +:+ timeframe in
  let b := match candleBuilders !! key with
           | Some b => b
           | None => {| currentCandle := None; timeframeMs := getTimeframeMs timeframe |}
           end in
  let '(r, b') := ingest b tick in
  (r, <[key := b']> candleBuilders).

(** The results of [buildCandle] for successive ticks of one symbol and
    timeframe. *)
Fixpoint feed (candleBuilders : gmap string builder) (symbol timeframe : string)
    (ticks : list (Tick.t num)) : list result :=
  match ticks with
  | [] => []
  | tick :: rest =>
      let '(r, candleBuilders') := buildCandle candleBuilders symbol timeframe tick in
      r :: feed candleBuilders' symbol timeframe rest
  end.

End WithNumber.
Arguments builder : clear implicits.
Arguments result : clear implicits.

End IndicatorWorker.

(* ===================================================================== *)
(** * Runs, scenarios and specification predicates *)
(* ===================================================================== *)

(** ** Indicators as objects under a sequence of calls *)

Inductive call (I : Type) := CallUpdate (x : I) | CallGetValue | CallReset.
Arguments CallUpdate {I}.
Arguments CallGetValue {I}.
Arguments CallReset {I}.

Section Calls.
Context {S : Type} `{Indicator S}.

(** The state a sequence of calls leaves behind. *)
Fixpoint exec (s : S) (calls : list (call Input)) : S :=
  match calls with
  | [] => s
  | CallUpdate x :: rest => exec (snd (update s x)) rest
  | CallGetValue :: rest => exec s rest
  | CallReset :: rest => exec (reset s) rest
  end.

(** What the [update] and [getValue] calls of a sequence return. *)
Fixpoint observe (s : S) (calls : list (call Input)) : list (option Output) :=
  match calls with
  | [] => []
  | CallUpdate x :: rest => fst (update s x) :: observe (snd (update s x)) rest
  | CallGetValue :: rest => getValue s :: observe s rest
  | CallReset :: rest => observe (reset s) rest
  end.

End Calls.

(** ** The EMA-crossover scenario *)

Module Scenario.
Section WithNumber.
Context {num : Type} `{Number num}.

Definition params : gmap string num :=
  <["fastPeriod" := of_Z 2]> (<["slowPeriod" := of_Z 3]> ∅).

Definition prices : list num := map of_Z [1; 2; 3; 10; 1]%Z.

(** The signals of the five evaluations, on one strategy object. *)
Definition outputs (symbol : string) : list (option (Signal.t num)) :=
  EMACrossStrategy.feed (EMACrossStrategy.initializeIndicators params) symbol prices.

(** The same prices, each given to a strategy object of its own. *)
Definition outputs_fresh_each (symbol : string) : list (option (Signal.t num)) :=
  map (fun p => fst (EMACrossStrategy.evaluate
                       (EMACrossStrategy.initializeIndicators params)
                       (Tick.mk symbol 0 p) None)) prices.

(** Whether the fast EMA exceeds the slow EMA after each price. *)
Definition fast_above_slow : list bool :=
  let fast := observe (EMA.new (of_Z 2)) (map CallUpdate prices) in
  let slow := observe (EMA.new (of_Z 3)) (map CallUpdate prices) in
  zip_with (fun f s => match f, s with
                       | Some f, Some s => gt f s
                       | _, _ => false
                       end) fast slow.

Definition sides (outs : list (option (Signal.t num))) : list (option Signal.Side) :=
  map (option_map Signal.side) outs.

(** The scenario as the specification words it: one signal, and it is long. *)
Definition one_long_signal (outs : list (option (Signal.t num))) : Prop :=
  exists sg, omap (fun o => o) outs = [sg] /\ Signal.side sg = Signal.long.

End WithNumber.
End Scenario.

(** ** RSI warm-up *)

Module RSISpec.
Local Open Scope Q_scope.

(** Every consecutive change of the price sequence is a gain. *)
Fixpoint all_gains (prices : list Q) : Prop :=
  match prices with
  | a :: (b :: _) as rest => a < b /\ all_gains rest
  | _ => True
  end.

(** The warm-up as the specification words it: null for the first [P-1]
    updates, a value in [0,100] from the [P]-th update on. *)
Definition warmup_as_specified : Prop :=
  forall (P : Z) (prices : list Q) (i : nat),
    (1 <= P)%Z -> (i < length prices)%nat ->
    let outs := RSI.run (RSI.new (Some (inject_Z P))) prices in
    ((Z.of_nat i < P - 1)%Z -> outs !! i = Some None) /\
    ((P - 1 <= Z.of_nat i)%Z -> exists v, outs !! i = Some (Some v) /\ 0 <= v <= 100).

(** What holds of an RSI object once it has seen a price: [n] changes are
    in the window, none negative, and [lp] is the remembered price. *)
Record inv (P : Z) (s : RSI.state Q) (n : nat) (lp : Q) : Prop := {
  inv_period : RSI.period s = inject_Z P;
  inv_last   : RSI.lastPrice s = Some lp;
  inv_gains  : length (RSI.gains s) = n;
  inv_losses : length (RSI.losses s) = n;
  inv_bound  : (Z.of_nat n <= P)%Z;
  inv_gains_nonneg  : Forall (fun x => 0 <= x) (RSI.gains s);
  inv_losses_nonneg : Forall (fun x => 0 <= x) (RSI.losses s)
}.

End RSISpec.

(** ** Unknown timeframes and strategy kinds *)

Module ConfigSpec.

(** A store that answers the engine's inserts from a script, for running the
    engine on concrete inputs. *)
Definition script := list (StrategyEngine.outcome StrategyEngine.response).

Definition answer (s : script) : StrategyEngine.outcome StrategyEngine.response * script :=
  match s with
  | r :: rest => (r, rest)
  | [] => (StrategyEngine.Threw (StrategyEngine.StoreError "store unavailable"), [])
  end.

#[global] Instance Store_script (num : Type) : StrategyEngine.Store num script := {|
  StrategyEngine.insert_signal := fun _ s => answer s;
  StrategyEngine.insert_strategy := fun _ s => answer s
|}.

Definition known_timeframes : list string := map fst Timeframes.table.

Definition known_kinds : list string :=
  ["EMA_Cross"; "RSI_MeanReversion"; "BollingerBands"; "MultiIndicator"].

(** The rule as the specification words it: a timeframe string outside the
    table is refused by the scheduler, and the candle builder has no duration
    to fall back on. *)
Definition unknown_timeframe_rejected_as_specified : Prop :=
  forall timeframe : string,
    ~ In timeframe known_timeframes ->
    (forall symbol callback offset now serverTime this,
       exists msg,
         fst (Scheduler.scheduleAtCandleBoundary symbol timeframe callback offset
                                                 now serverTime this) = inl msg) /\
    (forall T : Z, IndicatorWorker.getTimeframeMs timeframe <> Timeframes.Ms T).

End ConfigSpec.

(** ** Boundaries and delays *)

Module BoundarySpec.
Import Scheduler.

(** C4 as the specification words it, over the timestamps a [Date] holds. *)
Definition next_boundary_as_specified : Prop :=
  forall T t : Z,
    In T Timeframes.durations -> (Z.abs t <= Date_max)%Z ->
    exists b : Z,
      getNextCandleBoundary (DateOf t) T = DateOf b /\
      (exists k : Z, b = (k * T)%Z) /\ (t < b)%Z.

(** C8 as the specification words it: whatever the clock reads, a job is
    armed with a delay above 0. *)
Definition armed_delay_positive_as_specified : Prop :=
  forall T offset now : Z,
    In T Timeframes.durations -> (offset < T)%Z -> (Z.abs now <= Date_max)%Z ->
    exists (target : Date) (armed : Z),
      arm (Timeframes.Ms T) offset (DateOf now) = (target, Some armed) /\
      (0 < armed)%Z.

End BoundarySpec.

(** ** The clock offset *)

Module ClockSpec.
Import WebSocketClient.
Local Open Scope Q_scope.




End ClockSpec.

(** ** What [evaluateStrategies] collects *)

Module EngineSpec.
Import StrategyEngine.

Section Spec.
Context {num S DB : Type} `{Strategy num S} `{Store num DB}.

Definition log (who : string) (e : exn) (w : world S DB) : world S DB :=
  {| heap := heap w; db := db w; console := console w ++ [(who, e)];
     evaluated := evaluated w |}.

(** What one strategy adds to the batch, in words: nothing when its
    [evaluate] throws or returns null; its signal, with the stored id and
    the strategy's name, when the signal was persisted without error;
    nothing when persisting it failed. *)
Definition contribution (tick : Tick.t num) (candle : option (Candle.t num))
    (r : ref) (w : world S DB) : list (emitted num) * world S DB :=
  match call_evaluate r tick candle w with
  | (Threw e, w1) => ([], log (name (heap w1 r)) e w1)
  | (Returned None, w1) => ([], w1)
  | (Returned (Some sg), w1) =>
      let row := {| row_symbol := Tick.symbol tick;
                    row_strategy_id := id (heap w1 r);
                    row_ts := Tick.ts tick;
                    row_side := Signal.side sg;
                    row_confidence := Signal.confidence sg;
                    row_details := Signal.details sg |} in
      match persist_signal row w1 with
      | (Threw e, w2) => ([], log (name (heap w2 r)) e w2)
      | (Returned resp, w2) =>
          match error resp, data resp with
          | Some _, _ => ([], w2)
          | None, Some i => ([mkEmitted sg i (name (heap w2 r))], w2)
          | None, None =>
              ([], log (name (heap w2 r))
                       (TypeError "Cannot read properties of null (reading 'id')") w2)
          end
      end
  end.

(** The batch: the contributions of the strategies, in list order. *)
Fixpoint collect (tick : Tick.t num) (candle : option (Candle.t num))
    (strategies : list ref) (w : world S DB) : list (emitted num) * world S DB :=
  match strategies with
  | [] => ([], w)
  | r :: rest =>
      let '(first, w1) := contribution tick candle r w in
      let '(others, w2) := collect tick candle rest w1 in
      (first ++ others, w2)
  end.

(** The batch as the specification words it, for a single strategy: a
    non-null result of [evaluate] is collected. *)
Definition collects_every_signal_as_specified : Prop :=
  forall (tick : Tick.t num) (candle : option (Candle.t num)) (r : ref)
         (w : world S DB) (sg : Signal.t num) (s' : S),
    evaluate (heap w r) tick candle = (Returned (Some sg), s') ->
    exists signals w',
      evaluateStrategies tick candle [r] w = (Returned signals, w') /\
      map signal signals = [sg].

End Spec.

(** A concrete engine: binary64 numbers, the built-in strategy classes, a
    scripted store. *)
Definition primed_cross : object float :=
  mkObject "s-1" "EMA_Cross"
    (IEMACross (snd (EMACrossStrategy.evaluate
                       (EMACrossStrategy.initializeIndicators Scenario.params)
                       (Tick.mk "EURUSD" 1700000000000 1%float) None))).

Definition base_only : object float := mkObject "s-0" "Base" IBase.

Definition example_heap (r : ref) : object float :=
  match r with
  | O => base_only
  | _ => primed_cross
  end.

Definition example_world (answers : ConfigSpec.script)
  : world (object float) ConfigSpec.script :=
  {| heap := example_heap; db := answers; console := []; evaluated := [] |}.

Definition example_tick : Tick.t float := Tick.mk "EURUSD" 1700000060000 2%float.

End EngineSpec.

(** ** Cancelling a job *)

Module SchedulerSpec.
Import Scheduler.

(** The calls of the callbacks scheduled under [jobId] so far. *)
Definition invocations_of (jobId : string) (this : state) : list invocation :=
  filter (fun i => i_jobId i = jobId) (invocations this).

(** The job ids created by the [Schedule] events of a trace. *)
Definition scheduled_ids (events : list event) : list string :=
  omap scheduled_id events.

(** What ties the pending timers to the job table as long as every job id
    was created once: a pending timer is the one its job has on record, timer
    ids are fresh, and the job of a handler that is running has no pending
    timer.  [used] lists the job ids created so far. *)
Record inv (used : list string) (this : state) : Prop := {
  inv_registered :
    forall id t, timers this !! id = Some t ->
      exists j, jobs this !! c_jobId (t_closure t) = Some j /\ timeoutId j = id;
  inv_timer_ids :
    forall id t, timers this !! id = Some t -> (id < nextTimeout this)%nat;
  inv_running :
    forall c id t, running this = Some c -> timers this !! id = Some t ->
      c_jobId (t_closure t) <> c_jobId c;
  inv_used_jobs :
    forall jobId j, jobs this !! jobId = Some j -> In jobId used;
  inv_used_running :
    forall c, running this = Some c -> In (c_jobId c) used
}.

(** A job id with no entry in the job table and no pending timer. *)
Definition dead (jobId : string) (this : state) : Prop :=
  jobs this !! jobId = None /\
  forall id t, timers this !! id = Some t -> c_jobId (t_closure t) <> jobId.

(** Two jobs scheduled for the same symbol and timeframe within one
    millisecond, then the cancellation of the id both calls returned, then
    the expiry of the timer that is still pending. *)
Definition colliding_trace : list event :=
  [ Schedule "EURUSD" "1m" 1 None 1700000000000 1700000000000;
    Schedule "EURUSD" "1m" 2 None 1700000000000 1700000000000;
    Cancel "EURUSD_1m_1700000000000";
    Fire 0 1700000039995 ].

End SchedulerSpec.

(** ** Completed candles *)

Module CandleSpec.
Import IndicatorWorker.
Local Open Scope Q_scope.

(** [buildCandle] on the builder of one key, for successive ticks. *)
Fixpoint ingest_all {num : Type} `{Number num} (b : builder num)
    (ticks : list (Tick.t num)) : list (result num) :=
  match ticks with
  | [] => []
  | tick :: rest => let '(r, b') := ingest b tick in r :: ingest_all b' rest
  end.

(** The builder [buildCandle] works on for a key. *)
Definition builder_of {num : Type} (candleBuilders : gmap string (builder num))
    (symbol timeframe : string) : builder num :=
  match candleBuilders !! (symbol +:+ "_" +:+ timeframe) with
  | Some b => b
  | None => {| currentCandle := None; timeframeMs := getTimeframeMs timeframe |}
  end.

(** Candle [c] aggregates the ticks [period] (oldest first) of one period of
    [T] milliseconds. *)
Definition summarises (T : Z) (c : Candle.t Q) (period : list (Tick.t Q)) : Prop :=
  exists (first recent : Tick.t Q) (later earlier : list (Tick.t Q)) (start : Z),
    period = first :: later /\
    period = earlier ++ [recent] /\
    Candle.open c = Tick.price first /\
    Candle.close c = Tick.price recent /\
    Forall (fun t => Tick.price t <= Candle.high c) period /\
    Forall (fun t => Candle.low c <= Tick.price t) period /\
    (Candle.low c <= Candle.open c /\ Candle.open c <= Candle.high c) /\
    (Candle.low c <= Candle.close c /\ Candle.close c <= Candle.high c) /\
    Candle.ts_open c = DateOf start /\
    Candle.ts_close c = DateOf (start + T) /\
    Forall (fun t => start = (Tick.ts t - Z.rem (Tick.ts t) T)%Z) period.

(** The start of the period a tick falls in: [ts - ts % T]. *)
Definition period_start (T : Z) (tick : Tick.t Q) : Z :=
  (Tick.ts tick - Z.rem (Tick.ts tick) T)%Z.

(** Candle [c] is the aggregate of exactly the ticks [period] (oldest
    first), all of the period that starts at [start]: open and close are
    the first and the last price, high and low the greatest and the least,
    and the tick count is the number of ticks. *)
Definition aggregates (T start : Z) (c : Candle.t Q) (period : list (Tick.t Q)) : Prop :=
  exists first recent : Tick.t Q,
    head period = Some first /\
    last period = Some recent /\
    Candle.open c = Tick.price first /\
    Candle.close c = Tick.price recent /\
    Forall (fun t => Tick.price t <= Candle.high c) period /\
    Forall (fun t => Candle.low c <= Tick.price t) period /\
    Exists (fun t => Candle.high c = Tick.price t) period /\
    Exists (fun t => Candle.low c = Tick.price t) period /\
    Candle.ts_open c = DateOf start /\
    Candle.ts_close c = new_Date (start + T) /\
    Forall (fun t => period_start T t = start) period /\
    Candle.tickCount c = Z.of_nat (length period).

(** [period] does not continue a run of [before]: the tick just before it,
    if there is one, is of another period. *)
Definition starts_run (T : Z) (before period : list (Tick.t Q)) : Prop :=
  forall prev first : Tick.t Q,
    last before = Some prev -> head period = Some first ->
    period_start T prev <> period_start T first.

(** Ticks that arrive in the order of their timestamps. *)
Definition in_time_order (ticks : list (Tick.t Q)) : Prop :=
  StronglySorted (fun a b => (Tick.ts a <= Tick.ts b)%Z) ticks.

(** A builder with period length [T] that has been fed [before ++ period]
    and whose open candle, if any, aggregates the run [period]. *)
Definition building (T : Z) (b : builder Q) (before period : list (Tick.t Q)) : Prop :=
  timeframeMs b = Timeframes.Ms T /\
  starts_run T before period /\
  match currentCandle b with
  | Some cur => exists start, aggregates T start cur period
  | None => before = [] /\ period = []
  end.

(** The candle invariant as the specification words it, with the start of
    the period at [floor(ts / T) * T] for every tick of the period. *)
Definition candle_invariant_as_specified : Prop :=
  forall (candleBuilders : gmap string (builder Q)) (symbol timeframe : string)
         (T : Z) (ticks : list (Tick.t Q)) (i : nat) (r : result Q) (c : Candle.t Q),
    candleBuilders !! (symbol +:+ "_" +:+ timeframe) = None ->
    getTimeframeMs timeframe = Timeframes.Ms T ->
    feed candleBuilders symbol timeframe ticks !! i = Some r ->
    completed r = Some c ->
    exists before period,
      take i ticks = before ++ period /\
      summarises T c period /\
      Forall (fun t => Candle.ts_open c = DateOf (Tick.ts t / T * T)%Z) period.

(** A tick of the last millisecond of 1969, then one a minute into 1970. *)
Definition ticks_before_epoch : list (Tick.t Q) :=
  [ Tick.mk "EURUSD" (-1) (217 # 200); Tick.mk "EURUSD" 60000 (109 # 100) ].

End CandleSpec.

(* ===================================================================== *)
(** * Further operations of the same files *)
(* ===================================================================== *)

(** ** [Scheduler.findTickAtBoundary] *)

Module SchedulerQueries.

(** [findTickAtBoundary(tickBuffer, boundaryTime)]: the buffer is scanned
    from its newest entry backwards; [tick.ts <= boundaryTime] compares time
    values and is false against an invalid date. *)
Definition findTickAtBoundary {num : Type} (tickBuffer : list (Tick.t num))
    (boundaryTime : Date) : option (Tick.t num) :=
  match boundaryTime with
  | DateOf b => find (fun tick => (Tick.ts tick <=? b)%Z) (rev tickBuffer)
  | InvalidDate => None
  end.

End SchedulerQueries.

(** ** The tick feed of [WebSocketClient] *)

Module Feed.

(** What the client hands to [ws.send]. *)
Inductive message :=
  | MsgSubscribe (symbol : string)
  | MsgUnsubscribe (symbol : string).

(** The fields of the client that ticks, subscriptions and reconnection use.
    A handler is known by an identifier; it is taken not to call back into
    the client while it is being notified.  [socketOpen] stands for
    [ws?.readyState === WebSocket.OPEN]; [outbox] and [delivered] record what
    was sent and which handler was called with which tick. *)
Record state (num : Type) := mk {
  subscribers          : gmap string (list nat);
  tickBuffers          : gmap string (list (Tick.t num));
  isConnected          : bool;
  socketOpen           : bool;
  reconnectAttempts    : Z;
  maxReconnectAttempts : Z;
  reconnectDelay       : Z;
  outbox               : list message;
  delivered            : list (nat * Tick.t num)
}.
Arguments mk {num}.
Arguments subscribers {num}.
Arguments tickBuffers {num}.
Arguments isConnected {num}.
Arguments socketOpen {num}.
Arguments reconnectAttempts {num}.
Arguments maxReconnectAttempts {num}.
Arguments reconnectDelay {num}.
Arguments outbox {num}.
Arguments delivered {num}.

Section WithNumber.
Context {num : Type}.

(** [constructor()] *)
Definition new : state num :=
  {| subscribers := ∅; tickBuffers := ∅; isConnected := false; socketOpen := false;
     reconnectAttempts := 0; maxReconnectAttempts := 5; reconnectDelay := 1000;
     outbox := []; delivered := [] |}.

(** [send(data)] *)
Definition send (m : message) (this : state num) : state num :=
  if socketOpen this then
    {| subscribers := subscribers this; tickBuffers := tickBuffers this;
       isConnected := isConnected this; socketOpen := socketOpen this;
       reconnectAttempts := reconnectAttempts this;
       maxReconnectAttempts := maxReconnectAttempts this;
       reconnectDelay := reconnectDelay this;
       outbox := outbox this ++ [m]; delivered := delivered this |}
  else this.

Definition with_subscribers (subs : gmap string (list nat)) (this : state num)
  : state num :=
  {| subscribers := subs; tickBuffers := tickBuffers this;
     isConnected := isConnected this; socketOpen := socketOpen this;
     reconnectAttempts := reconnectAttempts this;
     maxReconnectAttempts := maxReconnectAttempts this;
     reconnectDelay := reconnectDelay this;
     outbox := outbox this; delivered := delivered this |}.

(** [processTick({symbol, ts, price})], on the tick already built from the
    message. *)
Definition processTick (tick : Tick.t num) (this : state num) : state num :=
  let symbol := Tick.symbol tick in
  let pushed := default [] (tickBuffers this !! symbol) ++ [tick] in
  let buffer := if (2048 <? length pushed)%nat then shift pushed else pushed in
  let symbolSubscribers := default [] (subscribers this !! symbol) in
  {| subscribers := subscribers this;
     tickBuffers := <[symbol := buffer]> (tickBuffers this);
     isConnected := isConnected this; socketOpen := socketOpen this;
     reconnectAttempts := reconnectAttempts this;
     maxReconnectAttempts := maxReconnectAttempts this;
     reconnectDelay := reconnectDelay this;
     outbox := outbox this;
     delivered := delivered this ++ map (fun handler => (handler, tick)) symbolSubscribers |}.

(** [subscribe(symbol, handler)]; the function it returns is [unsubscribe]
    below, for the same symbol and handler. *)
Definition subscribe (symbol : string) (handler : nat) (this : state num) : state num :=
  let handlers := default [] (subscribers this !! symbol) ++ [handler] in
  let this' := with_subscribers (<[symbol := handlers]> (subscribers this)) this in
  if isConnected this then send (MsgSubscribe symbol) this' else this'.

(** [handlers.splice(handlers.indexOf(handler), 1)] when the handler is
    found. *)
Fixpoint remove_first (handler : nat) (handlers : list nat) : list nat :=
  match handlers with
  | [] => []
  | h :: rest => if (h =? handler)%nat then rest else h :: remove_first handler rest
  end.

Definition unsubscribe (symbol : string) (handler : nat) (this : state num) : state num :=
  let handlers := remove_first handler (default [] (subscribers this !! symbol)) in
  match handlers with
  | [] =>
      let this' := with_subscribers (delete symbol (subscribers this)) this in
      if isConnected this then send (MsgUnsubscribe symbol) this' else this'
  | _ :: _ =>
      (* the array stored under [symbol] was edited in place *)
      with_subscribers (<[symbol := handlers]> (subscribers this)) this
  end.

(** [getTickBuffer(symbol)] *)
Definition getTickBuffer (symbol : string) (this : state num) : list (Tick.t num) :=
  default [] (tickBuffers this !! symbol).

(** [getLatestTick(symbol)] *)
Definition getLatestTick (symbol : string) (this : state num) : option (Tick.t num) :=
  match tickBuffers this !! symbol with
  | Some buffer => last buffer
  | None => None
  end.

(** [attemptReconnect()]: the delay of the timer that will call [connect],
    if one is set. *)
Definition attemptReconnect (this : state num) : option Z * state num :=
  if (maxReconnectAttempts this <=? reconnectAttempts this)%Z then (None, this)
  else
    let attempts := (reconnectAttempts this + 1)%Z in
    (Some (reconnectDelay this * 2 ^ (attempts - 1))%Z,
     {| subscribers := subscribers this; tickBuffers := tickBuffers this;
        isConnected := isConnected this; socketOpen := socketOpen this;
        reconnectAttempts := attempts;
        maxReconnectAttempts := maxReconnectAttempts this;
        reconnectDelay := reconnectDelay this;
        outbox := outbox this; delivered := delivered this |}).

(** The delays of [n] reconnection attempts in a row, none of which gets
    the socket open. *)
Fixpoint reconnect_delays (n : nat) (this : state num) : list (option Z) :=
  match n with
  | O => []
  | S n => let '(d, this') := attemptReconnect this in d :: reconnect_delays n this'
  end.

End WithNumber.
End Feed.

(** ** [StrategyEngine.loadUserStrategies] *)

Module Catalog.
Import StrategyEngine.

(** A row of the [strategies] table, and what the awaited [select] resolves
    to. *)
Record stored (num : Type) := mkStored {
  stored_id     : string;
  stored_name   : string;
  stored_params : gmap string num
}.
Arguments mkStored {num}.
Arguments stored_id {num}.
Arguments stored_name {num}.
Arguments stored_params {num}.

Record selection (num : Type) := mkSelection {
  sel_data  : option (list (stored num));     (* [None] for null *)
  sel_error : option string
}.
Arguments mkSelection {num}.
Arguments sel_data {num}.
Arguments sel_error {num}.

Class Query (num DB : Type) := {
  select_strategies : string -> DB -> outcome (selection num) * DB
}.

Section WithNumber.
Context {num DB : Type} `{Number num} `{Sqrt num} `{Query num DB}.

(** The body of the [for ... of data] loop: a row whose name is not
    registered is passed over. *)
Definition load_row (registry : gmap string kind) (row : stored num)
  : option (object num) :=
  match registry !! stored_name row with
  | Some StrategyClass =>
      Some (mkObject (stored_id row) (stored_name row)
                     (construct StrategyClass (stored_params row)))
  | None => None
  end.

Definition loadUserStrategies (registry : gmap string kind) (userId : string) (d : DB)
  : outcome (list (object num)) * DB :=
  match select_strategies userId d with
  | (Threw e, d') => (Threw e, d')
  | (Returned resp, d') =>
      match sel_error resp with
      | Some msg => (Threw (StoreError msg), d')
      | None =>
          match sel_data resp with
          | None => (Threw (TypeError "data is not iterable"), d')
          | Some data => (Returned (omap (load_row registry) data), d')
          end
      end
  end.

End WithNumber.
End Catalog.

(** ** Indicators on price streams *)

Module IndicatorSpec.
Local Open Scope Q_scope.

(** The [update] calls for a stream of inputs. *)
Definition updates {I : Type} (inputs : list I) : list (call I) := map CallUpdate inputs.

(** A rational approximation of the square root (to six decimals), to run
    the Bollinger bands on rationals. *)
Definition sqrt_approx (x : Q) : Q :=
  Z.sqrt (Qnum x * Z.pos (Qden x) * 10 ^ 12) # (Qden x * 1000000).

(** What holds of an RSI object of integer period [P] at any time: it has
    seen no price yet, or it satisfies [RSISpec.inv]. *)
Definition rsi_reachable (P : Z) (s : RSI.state Q) : Prop :=
  (RSI.period s = inject_Z P /\ RSI.lastPrice s = None /\
   RSI.gains s = [] /\ RSI.losses s = []) \/
  (exists n lp, RSISpec.inv P s n lp).

(** One evaluation per price on an RSI mean-reversion strategy. *)
Fixpoint rsi_strategy_feed (this : RSIMeanReversionStrategy.state Q)
    (symbol : string) (prices : list Q) : list (option (Signal.t Q)) :=
  match prices with
  | [] => []
  | p :: rest =>
      let '(s, this') := RSIMeanReversionStrategy.evaluate this (Tick.mk symbol 0 p) None in
      s :: rsi_strategy_feed this' symbol rest
  end.

End IndicatorSpec.

(** ** Signals of the EMA crossover *)

Module CrossSpec.

(** The signals a run emitted, oldest first. *)
Definition emitted_sides {num : Type} (outs : list (option (Signal.t num)))
  : list Signal.Side :=
  omap (option_map Signal.side) outs.

(** No two signals in a row point the same way. *)
Fixpoint alternating (sides : list Signal.Side) : Prop :=
  match sides with
  | a :: (b :: _) as rest => a <> b /\ alternating rest
  | _ => True
  end.

Definition side_of (c : Signal.Crossover) : Signal.Side :=
  match c with
  | Signal.bullish => Signal.long
  | Signal.bearish => Signal.short
  end.

End CrossSpec.

(** ** An in-memory strategies table *)

Module MemoryStore.
Import StrategyEngine Catalog.

(** The rows of the [strategies] table with their owners, newest last; an
    insert stores the row under the next id, a select returns the rows of
    the owner.  Signals are acknowledged and not kept. *)
Definition table (num : Type) := list (string * stored num).

Definition next_id {num : Type} (t : table num) : string :=
  "s-" +:+ Scheduler.string_of_Z (Z.of_nat (length t)).

#[global] Instance Store_table (num : Type) : Store num (table num) := {|
  insert_signal := fun _ t => (Returned (mkResponse (Some "sig") None), t);
  insert_strategy := fun row t =>
    (Returned (mkResponse (Some (next_id t)) None),
     t ++ [(row_owner _ row, mkStored (next_id t) (row_name _ row) (row_params _ row))])
|}.

#[global] Instance Query_table (num : Type) : Query num (table num) := {|
  select_strategies := fun userId t =>
    (Returned (mkSelection
                 (Some (map snd (List.filter (fun r => String.eqb (fst r) userId) t)))
                 None), t)
|}.

End MemoryStore.

(** ** Jobs and their timers *)

Module ArmedSpec.
Import Scheduler.


(** What ties the job table to the pending timers, for every job except
    [skip]: the timer a job has on record is pending, belongs to the job and
    aims at the job's [nextExecution], unless the handler of the job is
    running; and no two jobs have the same timer on record. *)
Record armed_but (skip : option string) (this : state) : Prop := {
  armed_pending :
    forall jobId j, jobs this !! jobId = Some j -> skip <> Some jobId ->
      (exists t, timers this !! timeoutId j = Some t /\
                 c_jobId (t_closure t) = jobId /\ t_target t = nextExecution j) \/
      (exists c, running this = Some c /\ c_jobId c = jobId);
  armed_distinct :
    forall jobId1 jobId2 j1 j2,
      jobs this !! jobId1 = Some j1 -> jobs this !! jobId2 = Some j2 ->
      timeoutId j1 = timeoutId j2 -> jobId1 = jobId2;
  armed_ids :
    forall jobId j, jobs this !! jobId = Some j -> (timeoutId j < nextTimeout this)%nat
}.

Definition armed (this : state) : Prop := armed_but None this.

(** A run in which [realtimeClient] is the socket client: no timer expires
    the way it does with the fallback client. *)
Definition with_socket_client (events : list event) : Prop :=
  Forall (fun e => match e with FireFallback _ _ => False | _ => True end) events.

(** A run in which [realtimeClient] is the fallback client. *)
Definition with_fallback_client (events : list event) : Prop :=
  Forall (fun e => match e with Fire _ _ => False | _ => True end) events.

End ArmedSpec.

(** ** Runs of the tick feed and of the candle builder *)

Module FeedSpec.
Import Feed.

(** What the callers and the socket do to the client. *)
Inductive action (num : Type) :=
  | Subscribe (symbol : string) (handler : nat)
  | Unsubscribe (symbol : string) (handler : nat)
  | TickMessage (tick : Tick.t num).
Arguments Subscribe {num}.
Arguments Unsubscribe {num}.
Arguments TickMessage {num}.

Definition perform {num : Type} (this : state num) (a : action num) : state num :=
  match a with
  | Subscribe symbol handler => subscribe symbol handler this
  | Unsubscribe symbol handler => unsubscribe symbol handler this
  | TickMessage tick => processTick tick this
  end.

Definition run {num : Type} (actions : list (action num)) (this : state num) : state num :=
  fold_left perform actions this.

(** [processTick] for successive tick messages. *)
Definition process_all {num : Type} (ticks : list (Tick.t num)) (this : state num)
  : state num :=
  fold_left (fun this tick => processTick tick this) ticks this.

(** The last [n] entries of a list. *)
Definition keep_last {A : Type} (n : nat) (l : list A) : list A :=
  drop (length l - n) l.

(** The ticks of one symbol, in arrival order. *)
Definition ticks_of {num : Type} (symbol : string) (ticks : list (Tick.t num))
  : list (Tick.t num) :=
  filter (fun tick => Tick.symbol tick = symbol) ticks.

End FeedSpec.

Module CountSpec.
Import IndicatorWorker.

(** The ticks counted by the candles that a run of [buildCandle] completed. *)
Definition completed_ticks {num : Type} (results : list (result num)) : Z :=
  foldr Z.add 0%Z (map Candle.tickCount (omap completed results)).

(** The ticks counted by the candle that is open after the run. *)
Definition open_ticks {num : Type} (results : list (result num)) : Z :=
  match last results with
  | Some r => Candle.tickCount (current r)
  | None => 0%Z
  end.

(** The label [createNewCandle] gives the candles of a timeframe. *)
Definition frame_label (timeframe : string) : string :=
  if existsb (String.eqb timeframe) (map fst Timeframes.table) then timeframe else "1m".

(** A candle of a builder with period [ms]: labelled after the period, with
    a tick count that is also its volume. *)
Definition well_counted {num : Type} (ms : Timeframes.property) (c : Candle.t num) : Prop :=
  Candle.frame c = getMsToTimeframe ms /\
  Candle.volume c = Candle.tickCount c /\
  (1 <= Candle.tickCount c)%Z.

End CountSpec.

(* ===================================================================== *)
(** * Theorems *)
(* ===================================================================== *)

(** ** EMA crossover *)

(** C1, as specified, fails: over the prices [1,2,3,10,1] the strategy does
    not emit exactly one signal.  One strategy object fed the five prices
    emits two signals, in exact arithmetic and in binary64 alike; five
    fresh strategy objects emit none. *)
Lemma C1_not_exactly_one_signal :
  ~ Scenario.one_long_signal (num := Q) (Scenario.outputs "EURUSD") /\
  ~ Scenario.one_long_signal (num := float) (Scenario.outputs "EURUSD") /\
  ~ Scenario.one_long_signal (num := Q) (Scenario.outputs_fresh_each "EURUSD") /\
  length (omap (fun o => o) (Scenario.outputs (num := Q) "EURUSD")) = 2%nat /\
  length (omap (fun o => o) (Scenario.outputs (num := float) "EURUSD")) = 2%nat.
Proof.
  repeat split; try (vm_compute; reflexivity);
    intros [sg [Hsg _]]; vm_compute in Hsg; discriminate Hsg.
Qed.

(** C1, amended: EMA-Crossover(fast=2, slow=3) fed [1,2,3,10,1] on one
    strategy object emits exactly two signals: a long signal at the second
    evaluation, which is the first one at which the fast EMA exceeds the
    slow EMA, and a short signal at the fifth, where the fast EMA falls back
    below the slow EMA.  This holds in exact arithmetic and in binary64. *)
Theorem C1_ema_cross_scenario (symbol : string) :
  Scenario.sides (num := Q) (Scenario.outputs symbol)
    = [None; Some Signal.long; None; None; Some Signal.short] /\
  Scenario.fast_above_slow (num := Q) = [false; true; true; true; false] /\
  Scenario.sides (num := float) (Scenario.outputs symbol)
    = [None; Some Signal.long; None; None; Some Signal.short] /\
  Scenario.fast_above_slow (num := float) = [false; true; true; true; false].
Proof. repeat split; vm_compute; reflexivity. Qed.

(** ** Boundary arithmetic of the scheduler *)

Lemma durations_positive (T : Z) : In T Timeframes.durations -> (0 < T)%Z.
Proof.
  unfold Timeframes.durations. simpl.
  intros Hin. repeat (destruct Hin as [<- | Hin]; [lia |]). destruct Hin.
Qed.

Lemma durations_divide_Date_max (T : Z) :
  In T Timeframes.durations -> exists m : Z, Date_max = (m * T)%Z.
Proof.
  unfold Timeframes.durations. simpl.
  intros Hin.
  repeat (destruct Hin as [<- | Hin];
          [match goal with
           | |- exists m : Z, _ = (m * ?d)%Z => exists (Date_max / d)%Z
           end; vm_compute; reflexivity |]).
  destruct Hin.
Qed.

Lemma new_Date_in_range (v : Z) :
  (Z.abs v <= Date_max)%Z -> new_Date v = DateOf v.
Proof.
  intros Hin. unfold new_Date.
  destruct (Z.leb_spec (Z.abs v) Date_max); [reflexivity | lia].
Qed.

Lemma new_Date_out_of_range (v : Z) :
  (Date_max < Z.abs v)%Z -> new_Date v = InvalidDate.
Proof.
  intros Hout. unfold new_Date.
  destruct (Z.leb_spec (Z.abs v) Date_max); [lia | reflexivity].
Qed.

Lemma next_multiple (t T : Z) :
  T <> 0%Z -> (t - Z.rem t T + T = (Z.quot t T + 1) * T)%Z.
Proof.
  intros HT. pose proof (Z.quot_rem' t T) as Hqr. lia.
Qed.

Lemma next_multiple_after (t T : Z) :
  (0 < T)%Z -> (t < t - Z.rem t T + T)%Z.
Proof.
  intros HT.
  assert (Z.abs (Z.rem t T) < Z.abs T)%Z as Hb by (apply Z.rem_bound_abs; lia).
  lia.
Qed.

(** The boundary after a timestamp below the last one is itself within the
    range of a [Date], because the last timestamp is a multiple of every
    duration of the table. *)
Lemma next_multiple_in_range (t T m : Z) :
  (0 < T)%Z -> Date_max = (m * T)%Z ->
  (- Date_max <= t < Date_max)%Z ->
  (Z.abs (t - Z.rem t T + T) <= Date_max)%Z.
Proof.
  intros HT Hm Ht.
  pose proof (next_multiple_after t T HT) as Hafter.
  pose proof (Z.quot_rem' t T) as Hqr.
  assert (0 < Date_max)%Z as Hmax by reflexivity.
  generalize dependent Date_max. intros D Hm Ht Hmax.
  assert (1 <= m)%Z as Hone by nia.
  destruct (Z.le_gt_cases 0 t) as [Hpos | Hneg].
  - pose proof (Z.rem_bound_pos t T Hpos HT) as Hr.
    assert (Z.quot t T < m)%Z as Hq by nia.
    assert (T * (Z.quot t T + 1) <= T * m)%Z by (apply Z.mul_le_mono_nonneg_l; lia).
    lia.
  - pose proof (Z.rem_nonpos t T ltac:(lia) ltac:(lia)) as Hr.
    assert (Z.abs (Z.rem t T) < Z.abs T)%Z as Hb by (apply Z.rem_bound_abs; lia).
    assert (Z.quot t T <= 0)%Z as Hq by nia.
    assert (T * Z.quot t T <= 0)%Z by nia.
    assert (T <= T * m)%Z by nia.
    lia.
Qed.

(** C4, amended: for every duration [T] of the timeframe table and every
    timestamp [t] a [Date] can hold except the last one,
    [getNextCandleBoundary(t, T)] is a date whose time value is an integer
    multiple of [T] and strictly greater than [t]; at the last timestamp,
    8.64e15 ms, and for an invalid date it is an invalid date. *)
Theorem C4_next_boundary (T t : Z) :
  In T Timeframes.durations ->
  ((- Date_max <= t < Date_max)%Z ->
   exists b : Z,
     Scheduler.getNextCandleBoundary (DateOf t) T = DateOf b /\
     (exists k : Z, b = (k * T)%Z) /\
     (t < b)%Z) /\
  Scheduler.getNextCandleBoundary (DateOf Date_max) T = InvalidDate /\
  Scheduler.getNextCandleBoundary InvalidDate T = InvalidDate.
Proof.
  intros Hin. pose proof (durations_positive T Hin) as HT.
  destruct (durations_divide_Date_max T Hin) as [m Hm].
  assert ((T =? 0)%Z = false) as Hnz by (apply Z.eqb_neq; lia).
  split; [| split; [| reflexivity]].
  - intros Ht. exists (t - Z.rem t T + T)%Z.
    split; [| split].
    + unfold Scheduler.getNextCandleBoundary. rewrite Hnz.
      apply new_Date_in_range. apply (next_multiple_in_range t T m); assumption.
    + exists (Z.quot t T + 1)%Z. apply next_multiple. lia.
    + apply next_multiple_after. exact HT.
  - unfold Scheduler.getNextCandleBoundary. rewrite Hnz.
    apply new_Date_out_of_range.
    assert (Z.rem Date_max T = 0)%Z as ->
      by (rewrite Hm; apply Z.rem_mul; lia).
    unfold Date_max in *. lia.
Qed.

Lemma C4_next_boundary_witness :
  In 60000%Z Timeframes.durations /\
  (- Date_max <= 1700000000123 < Date_max)%Z /\
  Scheduler.getNextCandleBoundary (DateOf 1700000000123) 60000 = DateOf 1700000040000.
Proof.
  assert (In 60000%Z Timeframes.durations) as Hin by (vm_compute; tauto).
  assert (- Date_max <= 1700000000123 < Date_max)%Z as Ht by (unfold Date_max; lia).
  split; [exact Hin |]. split; [exact Ht |].
  destruct (C4_next_boundary 60000 1700000000123 Hin) as [Hnext _].
  destruct (Hnext Ht) as (b & Hb & _ & _).
  rewrite Hb. vm_compute in Hb. symmetry. exact Hb.
Defined.

(** C4, as specified, fails at the last timestamp a [Date] holds: the
    boundary after it is beyond the range, and [new Date] of it is an
    invalid date. *)
Lemma C4_no_boundary_after_last_timestamp :
  Scheduler.getNextCandleBoundary (DateOf 8640000000000000) 60000 = InvalidDate /\
  ~ BoundarySpec.next_boundary_as_specified.
Proof.
  split; [reflexivity |]. intros Hspec.
  destruct (Hspec 60000%Z 8640000000000000%Z) as (b & Hb & _).
  - vm_compute. tauto.
  - vm_compute. discriminate.
  - vm_compute in Hb. discriminate Hb.
Qed.

(** C8, amended: when a job is armed at a valid clock reading [now] and
    [nextBoundary - now - offsetMs <= 0], the scheduler targets
    [nextBoundary + T]; with [offsetMs < T] and the target within the range
    of a [Date], the delay handed to the timer is strictly positive in
    either case and the timer expires [offsetMs] before its target.  With a
    target beyond the range, or a clock that reads an invalid date, the
    target is an invalid date and the delay is NaN. *)
Theorem C8_armed_delay_positive (T offset now : Z) :
  In T Timeframes.durations ->
  (offset < T)%Z ->
  (Z.abs now <= Date_max)%Z ->
  let nextBoundary := (now - Z.rem now T + T)%Z in
  let delay := (nextBoundary - now - offset)%Z in
  let target := (if (delay <=? 0)%Z then nextBoundary + T else nextBoundary)%Z in
  ((target <= Date_max)%Z ->
   exists armed : Z,
     Scheduler.arm (Timeframes.Ms T) offset (DateOf now) = (DateOf target, Some armed) /\
     (0 < armed)%Z /\
     armed = (target - now - offset)%Z /\
     Scheduler.getNextCandleBoundary (DateOf now) T = DateOf nextBoundary /\
     forall (c : Scheduler.closure) (this : Scheduler.state),
       Scheduler.c_intervalMs c = Timeframes.Ms T ->
       Scheduler.c_offset c = offset ->
       Scheduler.timers (Scheduler.scheduleNext c (DateOf now) this)
         !! Scheduler.nextTimeout this
       = Some (Scheduler.mkTimer c (DateOf target) (Some armed)) /\
       Scheduler.jobs (Scheduler.scheduleNext c (DateOf now) this) !! Scheduler.c_jobId c
       = Some (Scheduler.mkJob (Scheduler.nextTimeout this) (DateOf target))) /\
  ((Date_max < target)%Z ->
   Scheduler.arm (Timeframes.Ms T) offset (DateOf now) = (InvalidDate, None)) /\
  Scheduler.arm (Timeframes.Ms T) offset InvalidDate = (InvalidDate, None).
Proof.
  intros Hin Hoff Hnow nextBoundary delay target.
  pose proof (durations_positive T Hin) as HT.
  pose proof (next_multiple_after now T HT) as Hafter.
  fold nextBoundary in Hafter.
  assert ((T =? 0)%Z = false) as Hnz by (apply Z.eqb_neq; lia).
  assert (Scheduler.getNextCandleBoundary (DateOf now) T = new_Date nextBoundary)
    as Hnext by (unfold Scheduler.getNextCandleBoundary; rewrite Hnz; reflexivity).
  split; [| split; [| reflexivity]].
  - intros Htarget. exists (target - now - offset)%Z.
    assert (Z.abs nextBoundary <= Date_max)%Z as Hvalid
      by (subst target; destruct (delay <=? 0)%Z; lia).
    rewrite (new_Date_in_range nextBoundary Hvalid) in Hnext.
    assert (Scheduler.arm (Timeframes.Ms T) offset (DateOf now)
            = (DateOf target, Some (target - now - offset)%Z)) as Harm.
    { unfold Scheduler.arm. rewrite Hnext. fold delay. subst target.
      destruct (Z.leb_spec delay 0) as [Hle | Hgt]; [| reflexivity].
      rewrite new_Date_in_range by lia. f_equal. f_equal. lia. }
    split; [exact Harm |].
    split; [subst target delay; destruct (Z.leb_spec (nextBoundary - now - offset) 0); lia |].
    split; [reflexivity |]. split; [exact Hnext |].
    intros c this Hc Ho. unfold Scheduler.scheduleNext.
    rewrite Hc, Ho, Harm. simpl. split; apply lookup_insert_eq.
  - intros Htarget. unfold Scheduler.arm. rewrite Hnext. subst target.
    fold delay in Htarget |- *.
    destruct (Z.leb_spec delay 0) as [Hle | Hgt].
    + destruct (Z.leb_spec (Z.abs nextBoundary) Date_max) as [Hvalid | Hinvalid].
      * rewrite (new_Date_in_range nextBoundary Hvalid). fold delay.
        destruct (Z.leb_spec delay 0); [| lia].
        rewrite new_Date_out_of_range by lia. reflexivity.
      * rewrite (new_Date_out_of_range nextBoundary Hinvalid). reflexivity.
    + rewrite new_Date_out_of_range by lia. reflexivity.
Qed.

Lemma C8_armed_delay_positive_witness :
  In 60000%Z Timeframes.durations /\ (5 < 60000)%Z /\ (Z.abs 59998 <= Date_max)%Z /\
  exists armed : Z,
    Scheduler.arm (Timeframes.Ms 60000) 5 (DateOf 59998) = (DateOf 120000, Some armed) /\
    (0 < armed)%Z.
Proof.
  assert (In 60000%Z Timeframes.durations) as Hin by (vm_compute; tauto).
  assert (5 < 60000)%Z as Hoff by lia.
  assert (Z.abs 59998 <= Date_max)%Z as Hnow by (unfold Date_max; lia).
  split; [exact Hin |]. split; [exact Hoff |]. split; [exact Hnow |].
  destruct (C8_armed_delay_positive 60000 5 59998 Hin Hoff Hnow) as [Harmed _].
  destruct Harmed as (armed & Harm & Hpos & _); [vm_compute; discriminate |].
  exists armed. split; [exact Harm | exact Hpos].
Defined.

(** C8, as specified, fails one millisecond before the last timestamp a
    [Date] holds: the boundary is 1 ms ahead, less than the offset of 5 ms,
    and the following boundary is beyond the range, so the job is armed
    with an invalid date and a NaN delay. *)
Lemma C8_no_delay_at_end_of_range :
  Scheduler.arm (Timeframes.Ms 60000) 5 (DateOf 8639999999999999) = (InvalidDate, None) /\
  ~ BoundarySpec.armed_delay_positive_as_specified.
Proof.
  split; [reflexivity |]. intros Hspec.
  destruct (Hspec 60000%Z 5%Z 8639999999999999%Z) as (target & armed & Harm & _).
  - vm_compute. tauto.
  - lia.
  - vm_compute. discriminate.
  - vm_compute in Harm. discriminate Harm.
Qed.

(** ** Resetting an indicator *)

Section ResetLaw.
Context {S : Type} `{Indicator S}.

(** An indicator whose [reset] always lands on the freshly constructed state
    cannot be told apart from a fresh one afterwards. *)
Lemma reset_observational (p : Params) :
  (forall history, reset (exec (create (S := S) p) history) = create (S := S) p) ->
  forall history calls,
    observe (reset (exec (create (S := S) p) history)) calls = observe (create (S := S) p) calls.
Proof. intros Hreset history calls. rewrite Hreset. reflexivity. Qed.

(** It is enough that the calls keep what [reset] does not touch. *)
Lemma reset_exec_invariant (kept : S -> Prop) (p : Params) :
  kept (create (S := S) p) ->
  (forall s x, kept s -> kept (snd (update s x))) ->
  (forall s, kept s -> kept (reset s)) ->
  (forall s, kept s -> reset s = create (S := S) p) ->
  forall history, reset (exec (create (S := S) p) history) = create (S := S) p.
Proof.
  intros Hinit Hupd Hres Hfresh history.
  apply Hfresh.
  generalize (create (S := S) p) Hinit. clear Hinit.
  induction history as [| c history IH]; intros s Hs; simpl.
  - exact Hs.
  - destruct c; apply IH; auto.
Qed.

End ResetLaw.

Section ResetIndicators.
Context {num : Type} `{Number num} `{Sqrt num}.

Lemma EMA_reset_fresh (period : num) history :
  reset (exec (create (S := EMA.state num) period) history) = create (S := EMA.state num) period.
Proof.
  apply (reset_exec_invariant
           (fun s => EMA.period s = period /\
                     EMA.multiplier s = div (of_Z 2) (add period (of_Z 1)))).
  - split; reflexivity.
  - intros s x [Hp Hm]. split; assumption.
  - intros s [Hp Hm]. split; assumption.
  - intros [p m e] [Hp Hm]. simpl in *. subst. reflexivity.
Qed.

Lemma RSI_reset_fresh (period : option num) history :
  reset (exec (create (S := RSI.state num) period) history) = create (S := RSI.state num) period.
Proof.
  apply (reset_exec_invariant (fun s => RSI.period s = default (of_Z 14) period)).
  - reflexivity.
  - intros s x Hp. simpl. unfold RSI.update.
    destruct (RSI.lastPrice s); [| exact Hp].
    match goal with |- context [if ?b then (Some _, _) else _] => destruct b end;
      exact Hp.
  - intros s Hp. exact Hp.
  - intros [p g l lp] Hp. simpl in *. subst. reflexivity.
Qed.

Lemma ATR_reset_fresh (period : option num) history :
  reset (exec (create (S := ATR.state num) period) history) = create (S := ATR.state num) period.
Proof.
  apply (reset_exec_invariant (fun s => ATR.period s = default (of_Z 14) period)).
  - reflexivity.
  - intros s x Hp. exact Hp.
  - intros s Hp. exact Hp.
  - intros [p t l] Hp. simpl in *. subst. reflexivity.
Qed.

Lemma BollingerBands_reset_fresh (p : option num * option num) history :
  reset (exec (create (S := BollingerBands.state num) p) history) = create (S := BollingerBands.state num) p.
Proof.
  apply (reset_exec_invariant
           (fun s => BollingerBands.period s = default (of_Z 20) (fst p) /\
                     BollingerBands.stdDev s = default (of_Z 2) (snd p))).
  - split; reflexivity.
  - intros s x [Hp Hd]. simpl. unfold BollingerBands.update.
    match goal with |- context [if ?b then (None, _) else _] => destruct b end;
      split; assumption.
  - intros s [Hp Hd]. split; assumption.
  - intros [pe sd pr] [Hp Hd]. simpl in *. subst. reflexivity.
Qed.

Lemma VWAP_reset_fresh (p : unit) history :
  reset (exec (create (S := VWAP.state num) p) history) = create (S := VWAP.state num) p.
Proof.
  apply (reset_exec_invariant (fun _ => True)); auto.
Qed.

End ResetIndicators.

(** C10: for each of EMA, RSI, ATR, BollingerBands and VWAP, whatever the
    constructor parameters and whatever calls came before, [reset()] leaves
    the state of a freshly constructed instance with the same parameters,
    so every later sequence of [update]/[getValue] calls returns the same
    values on both.  This holds for any arithmetic, binary64 included. *)
Theorem C10_reset_is_fresh (num : Type) `{Number num} `{Sqrt num} :
  (forall (p : num) history calls,
     observe (reset (exec (create (S := EMA.state num) p) history)) calls
     = observe (create (S := EMA.state num) p) calls) /\
  (forall (p : option num) history calls,
     observe (reset (exec (create (S := RSI.state num) p) history)) calls
     = observe (create (S := RSI.state num) p) calls) /\
  (forall (p : option num) history calls,
     observe (reset (exec (create (S := ATR.state num) p) history)) calls
     = observe (create (S := ATR.state num) p) calls) /\
  (forall (p : option num * option num) history calls,
     observe (reset (exec (create (S := BollingerBands.state num) p) history)) calls
     = observe (create (S := BollingerBands.state num) p) calls) /\
  (forall (p : unit) history calls,
     observe (reset (exec (create (S := VWAP.state num) p) history)) calls
     = observe (create (S := VWAP.state num) p) calls).
Proof.
  repeat apply conj; intros p history calls; apply reset_observational; intros h.
  - apply EMA_reset_fresh.
  - apply RSI_reset_fresh.
  - apply ATR_reset_fresh.
  - apply BollingerBands_reset_fresh.
  - apply VWAP_reset_fresh.
Qed.

(** ** RSI: warm-up and range *)

Section RSIOverQ.
Local Open Scope Q_scope.

Lemma Qlt_bool_iff (a b : Q) : Qlt_bool a b = true <-> a < b.
Proof.
  unfold Qlt_bool. rewrite negb_true_iff. split.
  - intros Hf. apply Qnot_le_lt. intros Hle. apply Qle_bool_iff in Hle. congruence.
  - intros Hlt. destruct (Qle_bool b a) eqn:E; [| reflexivity].
    apply Qle_bool_iff in E. exfalso. apply (Qlt_not_le _ _ Hlt E).
Qed.

Lemma Qlt_bool_inject_Z (a b : Z) : Qlt_bool (inject_Z a) (inject_Z b) = (a <? b)%Z.
Proof.
  destruct (Z.ltb_spec a b) as [Hlt | Hge].
  - apply Qlt_bool_iff. rewrite <- Zlt_Qlt. exact Hlt.
  - destruct (Qlt_bool (inject_Z a) (inject_Z b)) eqn:E; [| reflexivity].
    apply Qlt_bool_iff in E. rewrite <- Zlt_Qlt in E. lia.
Qed.

Lemma Qeq_bool_inject_Z (a b : Z) : Qeq_bool (inject_Z a) (inject_Z b) = (a =? b)%Z.
Proof.
  destruct (Z.eqb_spec a b) as [-> | Hne].
  - apply Qeq_bool_iff. reflexivity.
  - destruct (Qeq_bool (inject_Z a) (inject_Z b)) eqn:E; [| reflexivity].
    apply Qeq_bool_iff in E. rewrite inject_Z_injective in E. contradiction.
Qed.

Lemma fold_add_nonneg (l : list Q) (acc : Q) :
  0 <= acc -> Forall (fun x => 0 <= x) l -> 0 <= fold_left (fun a x => add a x) l acc.
Proof.
  revert acc. induction l as [| x l IH]; intros acc Hacc Hl; simpl.
  - exact Hacc.
  - inversion Hl; subst. apply IH; [| assumption].
    change (0 <= acc + x). lra.
Qed.

Lemma sum_nonneg (l : list Q) : Forall (fun x => 0 <= x) l -> 0 <= sum l.
Proof. intros Hl. apply fold_add_nonneg; [apply Qle_refl | exact Hl]. Qed.

Lemma fold_add_zero (l : list Q) (acc : Q) :
  acc == 0 -> Forall (fun x => x == 0) l -> fold_left (fun a x => add a x) l acc == 0.
Proof.
  revert acc. induction l as [| x l IH]; intros acc Hacc Hl; simpl.
  - exact Hacc.
  - inversion Hl; subst. apply IH; [| assumption].
    change (acc + x == 0). lra.
Qed.

Lemma sum_zero (l : list Q) : Forall (fun x => x == 0) l -> sum l == 0.
Proof. intros Hl. apply fold_add_zero; [reflexivity | exact Hl]. Qed.

Lemma Qdiv_nonneg (a b : Q) : 0 <= a -> 0 < b -> 0 <= a / b.
Proof. intros Ha Hb. apply Qle_shift_div_l; [exact Hb | lra]. Qed.

Lemma rsi_value_range (P : Z) (s : RSI.state Q) :
  (1 <= P)%Z -> RSI.period s = inject_Z P ->
  Forall (fun x => 0 <= x) (RSI.gains s) -> Forall (fun x => 0 <= x) (RSI.losses s) ->
  0 <= RSI.value s <= 100.
Proof.
  intros HP Hper Hg Hl. unfold RSI.value. rewrite Hper. simpl.
  assert (0 < inject_Z P) as HPq by (change 0 with (inject_Z 0); rewrite <- Zlt_Qlt; lia).
  pose proof (Qdiv_nonneg _ _ (sum_nonneg _ Hg) HPq) as Hag.
  pose proof (Qdiv_nonneg _ _ (sum_nonneg _ Hl) HPq) as Hal.
  destruct (Qeq_bool (sum (RSI.losses s) / inject_Z P) (inject_Z 0)) eqn:E.
  - split; [discriminate | apply Qle_refl].
  - assert (~ sum (RSI.losses s) / inject_Z P == 0) as Hne.
    { intros Heq. apply Qeq_bool_iff in Heq. unfold inject_Z in E at 2. congruence. }
    set (avgGain := sum (RSI.gains s) / inject_Z P) in *.
    set (avgLoss := sum (RSI.losses s) / inject_Z P) in *.
    assert (0 < avgLoss) as Hpos by (apply Qle_lteq in Hal; destruct Hal as [H|H]; [exact H | exfalso; apply Hne; symmetry; exact H]).
    pose proof (Qdiv_nonneg _ _ Hag Hpos) as Hrs.
    set (rs := avgGain / avgLoss) in *.
    assert (0 < inject_Z 1 + rs) as Hden by (change (inject_Z 1) with 1; lra).
    assert (0 <= inject_Z 100 / (inject_Z 1 + rs)) as H1.
    { apply Qdiv_nonneg; [discriminate | exact Hden]. }
    assert (inject_Z 100 / (inject_Z 1 + rs) <= 100) as H2.
    { apply Qle_shift_div_r; [exact Hden |]. change (inject_Z 100) with 100. change (inject_Z 1) with 1. nra. }
    change (inject_Z 100) with 100 in *. lra.
Qed.

Lemma all_gains_head (a : Q) (rest : list Q) :
  RSISpec.all_gains (a :: rest) -> Forall (fun x => a <= x) rest /\ RSISpec.all_gains rest.
Proof.
  revert a. induction rest as [| b rest IH]; intros a Hg.
  - split; [constructor | exact I].
  - destruct Hg as [Hab Hrest]. split; [| exact Hrest].
    constructor; [lra |].
    destruct (IH b Hrest) as [Hb _].
    eapply Forall_impl; [exact Hb |]. intros x Hx. simpl in Hx. lra.
Qed.

Lemma Forall_shift {A} (Q : A -> Prop) (l : list A) : Forall Q l -> Forall Q (shift l).
Proof. intros Hl. destruct l; [exact Hl | inversion Hl; assumption]. Qed.

Lemma length_shift_snoc {A} (l : list A) (x : A) : length (shift (l ++ [x])) = length l.
Proof. destruct l; simpl; [reflexivity |]. rewrite length_app. simpl. lia. Qed.

Lemma rsi_update_step (P : Z) (s : RSI.state Q) (n : nat) (lp p : Q) :
  (1 <= P)%Z -> RSISpec.inv P s n lp ->
  let out := fst (RSI.update s p) in
  let s' := snd (RSI.update s p) in
  ((Z.of_nat n + 1 < P)%Z -> out = None /\ RSISpec.inv P s' (S n) p) /\
  ((P <= Z.of_nat n + 1)%Z ->
     (exists v, out = Some v /\ 0 <= v <= 100) /\ RSISpec.inv P s' (Z.to_nat P) lp) /\
  (Forall (fun x => x == 0) (RSI.losses s) -> lp <= p ->
     Forall (fun x => x == 0) (RSI.losses s') /\
     ((P <= Z.of_nat n + 1)%Z -> out = Some 100)).
Proof.
  intros HP [Hper Hlast Hg Hl Hb Hgn Hln].
  unfold RSI.update. rewrite Hlast. cbv zeta.
  set (change := sub p lp).
  set (gain := if gt change (of_Z 0) then change else of_Z 0).
  set (loss := if lt change (of_Z 0) then neg change else of_Z 0).
  assert (0 <= gain) as Hgain.
  { subst gain. unfold gt. simpl. destruct (Qlt_bool (inject_Z 0) change) eqn:E.
    - apply Qlt_bool_iff in E. change (inject_Z 0) with 0 in E. lra.
    - apply Qle_refl. }
  assert (0 <= loss) as Hloss.
  { subst loss. simpl. destruct (Qlt_bool change (inject_Z 0)) eqn:E.
    - apply Qlt_bool_iff in E. change (inject_Z 0) with 0 in E. lra.
    - apply Qle_refl. }
  assert (lp <= p -> loss = 0) as Hloss0.
  { intros Hle. subst loss. simpl. destruct (Qlt_bool change (inject_Z 0)) eqn:E.
    - apply Qlt_bool_iff in E. change (inject_Z 0) with 0 in E.
      subst change. simpl in E. lra.
    - reflexivity. }
  assert (Forall (fun x => 0 <= x) (RSI.gains s ++ [gain])) as Hgn1
    by (apply Forall_app; split; [exact Hgn | repeat constructor; exact Hgain]).
  assert (Forall (fun x => 0 <= x) (RSI.losses s ++ [loss])) as Hln1
    by (apply Forall_app; split; [exact Hln | repeat constructor; exact Hloss]).
  unfold gt, len. rewrite Hper. simpl lt. simpl strict_eq. simpl of_Z.
  rewrite Qlt_bool_inject_Z.
  assert (length (RSI.gains s ++ [gain]) = S n) as Hlen1 by (rewrite length_app; simpl; lia).
  rewrite Hlen1.
  destruct (Z.ltb_spec P (Z.of_nat (S n))) as [Hover | Hfit].
  - (* the window was full: the oldest entry is dropped *)
    assert (Z.of_nat n = P) as HnP by lia.
    rewrite Qeq_bool_inject_Z. rewrite length_shift_snoc, Hg.
    rewrite (proj2 (Z.eqb_eq _ _) HnP). simpl.
    assert (RSISpec.inv P {| RSI.period := inject_Z P;
                         RSI.gains := shift (RSI.gains s ++ [gain]);
                         RSI.losses := shift (RSI.losses s ++ [loss]);
                         RSI.lastPrice := Some lp |} (Z.to_nat P) lp) as Hinv'.
    { constructor; simpl; try reflexivity; try lia.
      - rewrite length_shift_snoc. lia.
      - rewrite length_shift_snoc. lia.
      - apply Forall_shift. exact Hgn1.
      - apply Forall_shift. exact Hln1. }
    split; [intros; lia |]. split.
    + intros _. split; [| exact Hinv'].
      eexists. split; [reflexivity |].
      apply (rsi_value_range P); simpl; auto using Forall_shift.
    + intros Hz Hle. 
      assert (Forall (fun x => x == 0) (shift (RSI.losses s ++ [loss]))) as Hz'.
      { apply Forall_shift. apply Forall_app. split; [exact Hz |].
        repeat constructor. rewrite (Hloss0 Hle). reflexivity. }
      split; [exact Hz' |]. intros _.
      unfold RSI.value. simpl.
      assert (Qeq_bool (sum (shift (RSI.losses s ++ [loss])) / inject_Z P) (inject_Z 0) = true) as ->.
      { apply Qeq_bool_iff. rewrite (sum_zero _ Hz'). reflexivity. }
      reflexivity.
  - rewrite Qeq_bool_inject_Z. rewrite Hlen1.
    destruct (Z.eqb_spec (Z.of_nat (S n)) P) as [Heq | Hne]; simpl.
    + assert (RSISpec.inv P {| RSI.period := inject_Z P;
                           RSI.gains := RSI.gains s ++ [gain];
                           RSI.losses := RSI.losses s ++ [loss];
                           RSI.lastPrice := Some lp |} (Z.to_nat P) lp) as Hinv'.
      { constructor; simpl; try reflexivity; try lia; try assumption.
        rewrite length_app; simpl; lia. }
      split; [intros; lia |]. split.
      * intros _. split; [| exact Hinv'].
        eexists. split; [reflexivity |].
        apply (rsi_value_range P); simpl; auto.
      * intros Hz Hle.
        assert (Forall (fun x => x == 0) (RSI.losses s ++ [loss])) as Hz'.
        { apply Forall_app. split; [exact Hz |].
          repeat constructor. rewrite (Hloss0 Hle). reflexivity. }
        split; [exact Hz' |]. intros _.
        unfold RSI.value. simpl.
        assert (Qeq_bool (sum (RSI.losses s ++ [loss]) / inject_Z P) (inject_Z 0) = true) as ->.
        { apply Qeq_bool_iff. rewrite (sum_zero _ Hz'). reflexivity. }
        reflexivity.
    + split; [| split].
      * intros _. split; [reflexivity |].
        constructor; simpl; try reflexivity; try lia; try assumption.
        rewrite length_app; simpl; lia.
      * intros; lia.
      * intros Hz Hle. split; [| intros; lia].
        apply Forall_app. split; [exact Hz |].
        repeat constructor. rewrite (Hloss0 Hle). reflexivity.
Qed.

Lemma rsi_run_spec (P : Z) (prices : list Q) :
  (1 <= P)%Z ->
  forall (s : RSI.state Q) (n : nat) (lp : Q) (i : nat),
    RSISpec.inv P s n lp -> (i < length prices)%nat ->
    ((Z.of_nat i + Z.of_nat n + 1 < P)%Z -> RSI.run s prices !! i = Some None) /\
    ((P <= Z.of_nat i + Z.of_nat n + 1)%Z ->
       exists v, RSI.run s prices !! i = Some (Some v) /\ 0 <= v <= 100) /\
    (Forall (fun x => x == 0) (RSI.losses s) ->
     Forall (fun x => lp <= x) prices -> RSISpec.all_gains prices ->
     (P <= Z.of_nat i + Z.of_nat n + 1)%Z -> RSI.run s prices !! i = Some (Some 100)).
Proof.
  intros HP. induction prices as [| p rest IH]; intros s n lp i Hinv Hi.
  - simpl in Hi. lia.
  - pose proof (rsi_update_step P s n lp p HP Hinv) as Hstep.
    simpl in Hstep. destruct Hstep as (Hnone & Hsome & Hzero).
    simpl. destruct (RSI.update s p) as [out s'] eqn:Hupd. simpl in *.
    destruct i as [| i].
    + simpl. split; [| split].
      * intros Hlt. destruct (Hnone ltac:(lia)) as [-> _]. reflexivity.
      * intros Hge. destruct (Hsome ltac:(lia)) as [(v & -> & Hv) _].
        exists v. split; [reflexivity | exact Hv].
      * intros Hz Hle _ Hge. inversion Hle; subst.
        destruct (Hzero Hz ltac:(assumption)) as [_ H100].
        rewrite (H100 ltac:(lia)). reflexivity.
    + simpl.
      destruct (Z.ltb_spec (Z.of_nat n + 1) P) as [Hlt | Hge].
      * destruct (Hnone Hlt) as [_ Hinv'].
        destruct (IH s' (S n) p i Hinv' ltac:(lia)) as (IH1 & IH2 & IH3).
        split; [| split].
        -- intros H. apply IH1. lia.
        -- intros H. apply IH2. lia.
        -- intros Hz Hle Hg H. inversion Hle; subst.
           destruct (Hzero Hz ltac:(assumption)) as [Hz' _].
           destruct (all_gains_head _ _ Hg) as [Hle' Hg'].
           apply IH3; auto. lia.
      * destruct (Hsome Hge) as [_ Hinv'].
        destruct (IH s' (Z.to_nat P) lp i Hinv' ltac:(lia)) as (IH1 & IH2 & IH3).
        pose proof (RSISpec.inv_bound _ _ _ _ Hinv) as Hb.
        split; [| split].
        -- intros H. lia.
        -- intros H. apply IH2. lia.
        -- intros Hz Hle Hg H. inversion Hle; subst.
           destruct (Hzero Hz ltac:(assumption)) as [Hz' _].
           destruct (all_gains_head _ _ Hg) as [_ Hg'].
           apply IH3; auto. lia.
Qed.

(** C2, amended: for every period [P >= 1] and every price sequence,
    [RSI(P).update] returns null for the first [P] updates (the first price
    only sets the reference, and [P] changes fill the window) and, from the
    [(P+1)]-th update on, a value in [[0,100]]; when every consecutive change
    is a gain that value is 100. *)
Theorem C2_rsi_warmup_and_range (P : Z) (prices : list Q) (i : nat) :
  (1 <= P)%Z -> (i < length prices)%nat ->
  let outs := RSI.run (RSI.new (Some (inject_Z P))) prices in
  ((Z.of_nat i < P)%Z -> outs !! i = Some None) /\
  ((P <= Z.of_nat i)%Z -> exists v, outs !! i = Some (Some v) /\ 0 <= v <= 100) /\
  (RSISpec.all_gains prices -> (P <= Z.of_nat i)%Z -> outs !! i = Some (Some 100)).
Proof.
  intros HP Hi outs. subst outs.
  destruct prices as [| p rest]; [simpl in Hi; lia |].
  simpl.
  assert (RSISpec.inv P {| RSI.period := inject_Z P; RSI.gains := []; RSI.losses := [];
                       RSI.lastPrice := Some p |} 0 p) as Hinv.
  { constructor; simpl; try reflexivity; try lia; constructor. }
  destruct i as [| i]; simpl.
  - split; [reflexivity |]. split; intros; lia.
  - simpl in Hi.
    destruct (rsi_run_spec P rest HP _ 0%nat p i Hinv ltac:(lia)) as (H1 & H2 & H3).
    split; [| split].
    + intros H. apply H1. lia.
    + intros H. apply H2. lia.
    + intros Hg H. destruct (all_gains_head _ _ Hg) as [Hle Hg'].
      apply H3; auto. lia.
Qed.

(** C2, as specified, fails: with [P = 1] the first update already returns
    null, and with [P = 2] so does the second, in exact arithmetic and in
    binary64. *)
Lemma C2_warmup_off_by_one :
  RSI.run (RSI.new (Some (inject_Z 1))) [5] = [None] /\
  RSI.run (RSI.new (Some (inject_Z 2))) [1; 2; 3] = [None; None; Some 100] /\
  RSI.run (RSI.new (Some 2%float)) [1; 2; 3]%float = [None; None; Some 100%float] /\
  ~ RSISpec.warmup_as_specified.
Proof.
  split; [reflexivity |]. split; [reflexivity |]. split; [vm_compute; reflexivity |].
  intros Hspec.
  destruct (Hspec 1%Z [5] 0%nat ltac:(lia) ltac:(simpl; lia)) as [_ Hdefined].
  destruct (Hdefined ltac:(simpl; lia)) as (v & Hv & _).
  vm_compute in Hv. discriminate Hv.
Qed.

Lemma C2_rsi_warmup_and_range_witness :
  (1 <= 2)%Z /\ (3 < length [1; 2; 4; 7])%nat /\
  RSISpec.all_gains [1; 2; 4; 7] /\
  RSI.run (RSI.new (Some (inject_Z 2))) [1; 2; 4; 7] !! 3%nat = Some (Some 100).
Proof.
  assert (1 <= 2)%Z as HP by lia.
  assert (3 < length [1; 2; 4; 7])%nat as Hi by (simpl; lia).
  assert (RSISpec.all_gains [1; 2; 4; 7]) as Hg
    by (simpl; repeat split; reflexivity).
  split; [exact HP |]. split; [exact Hi |]. split; [exact Hg |].
  destruct (C2_rsi_warmup_and_range 2 [1; 2; 4; 7] 3 HP Hi) as (_ & _ & H100).
  apply H100; [exact Hg | simpl; lia].
Defined.

End RSIOverQ.

(** ** Unknown timeframes and strategy kinds *)

Lemma assoc_not_in (key : string) (l : list (string * Z)) :
  ~ In key (map fst l) -> Timeframes.assoc key l = None.
Proof.
  induction l as [| [k v] l IH]; intros Hnot; simpl.
  - reflexivity.
  - destruct (String.eqb_spec k key) as [-> | Hne].
    + exfalso. apply Hnot. left. reflexivity.
    + apply IH. intros Hin. apply Hnot. right. exact Hin.
Qed.

Lemma existsb_eqb_not_in (key : string) (l : list string) :
  ~ In key l -> existsb (String.eqb key) l = false.
Proof.
  induction l as [| k l IH]; intros Hnot; simpl.
  - reflexivity.
  - destruct (String.eqb_spec key k) as [-> | Hne].
    + exfalso. apply Hnot. left. reflexivity.
    + apply IH. intros Hin. apply Hnot. right. exact Hin.
Qed.

Lemma timeframe_undefined (timeframe : string) :
  ~ In timeframe ConfigSpec.known_timeframes ->
  ~ In timeframe Timeframes.Object_prototype ->
  Timeframes.get timeframe = None.
Proof.
  intros Hknown Hproto. unfold Timeframes.get.
  rewrite (assoc_not_in _ _ Hknown), (existsb_eqb_not_in _ _ Hproto). reflexivity.
Qed.

Lemma kind_unregistered (name : string) :
  ~ In name ConfigSpec.known_kinds -> StrategyEngine.strategies !! name = None.
Proof.
  intros Hnot. unfold StrategyEngine.strategies, StrategyEngine.registerStrategy.
  rewrite !lookup_insert_ne; [apply lookup_empty | | | |];
    intros <-; apply Hnot; simpl; tauto.
Qed.

(** C3, as specified, fails: the candle builder gives the unknown timeframe
    "2m" the duration of one minute and builds a candle with it, and the
    scheduler accepts a name such as "toString", which the lookup finds on
    the prototype of its table. *)
Lemma C3_default_timeframe_substituted :
  IndicatorWorker.getTimeframeMs "2m" = Timeframes.Ms 60000 /\
  (let r := fst (IndicatorWorker.buildCandle (num := Q) ∅ "EURUSD" "2m"
                   (Tick.mk "EURUSD" 1700000000000 (217 # 200))) in
   Candle.ts_open (IndicatorWorker.current r) = DateOf 1699999980000 /\
   Candle.ts_close (IndicatorWorker.current r) = DateOf 1700000040000) /\
  fst (Scheduler.scheduleAtCandleBoundary "EURUSD" "toString" 0 None
         1700000000000 1700000000000 Scheduler.new)
    = inr "EURUSD_toString_1700000000000" /\
  ~ ConfigSpec.unknown_timeframe_rejected_as_specified.
Proof.
  split; [reflexivity |]. split; [split; reflexivity |]. split; [reflexivity |].
  intros Hspec.
  assert (~ In "2m" ConfigSpec.known_timeframes) as Hnot.
  { simpl. intros Hin. repeat (destruct Hin as [Hin | Hin]; [discriminate Hin |]).
    exact Hin. }
  destruct (Hspec "2m" Hnot) as [_ Hno]. apply (Hno 60000%Z). reflexivity.
Qed.

(** C3, amended: a timeframe string that the table lookup leaves undefined
    (not a key of the table and not a name inherited from [Object.prototype])
    makes [scheduleAtCandleBoundary] throw and schedule nothing; the candle
    builder does not reject it but falls back to 60000 ms; and
    [createStrategy] throws for a strategy kind that is not registered. *)
Theorem C3_unknown_timeframe_or_kind (timeframe name : string) :
  ~ In timeframe ConfigSpec.known_timeframes ->
  ~ In timeframe Timeframes.Object_prototype ->
  ~ In name ConfigSpec.known_kinds ->
  (forall symbol callback offset now serverTime this,
     Scheduler.scheduleAtCandleBoundary symbol timeframe callback offset
                                        now serverTime this
     = (inl ("Invalid timeframe: " +:+ timeframe), this)) /\
  IndicatorWorker.getTimeframeMs timeframe = Timeframes.Ms 60000 /\
  (forall (num DB : Type) `(Number num) `(Sqrt num) `(StrategyEngine.Store num DB)
          (params : gmap string num) (userId : string) (d : DB),
     StrategyEngine.createStrategy StrategyEngine.strategies name params userId d
     = (StrategyEngine.Threw
          (StrategyEngine.Error ("Strategy " +:+ name +:+ " not found")), d)).
Proof.
  intros Hknown Hproto Hkind.
  pose proof (timeframe_undefined timeframe Hknown Hproto) as Hget.
  split; [| split].
  - intros. unfold Scheduler.scheduleAtCandleBoundary. rewrite Hget. reflexivity.
  - unfold IndicatorWorker.getTimeframeMs. rewrite Hget. reflexivity.
  - intros. unfold StrategyEngine.createStrategy.
    rewrite (kind_unregistered name Hkind). reflexivity.
Qed.

Lemma C3_unknown_timeframe_or_kind_witness :
  ~ In "2m" ConfigSpec.known_timeframes /\
  ~ In "2m" Timeframes.Object_prototype /\
  ~ In "Momentum" ConfigSpec.known_kinds /\
  Scheduler.scheduleAtCandleBoundary "EURUSD" "2m" 0 None 1700000000000 1700000000000
                                     Scheduler.new
  = (inl "Invalid timeframe: 2m", Scheduler.new) /\
  StrategyEngine.createStrategy (num := float) StrategyEngine.strategies "Momentum" ∅ "u1"
                                ([] : ConfigSpec.script)
  = (StrategyEngine.Threw (StrategyEngine.Error "Strategy Momentum not found"), []).
Proof.
  assert (~ In "2m" ConfigSpec.known_timeframes) as H1.
  { simpl. intros Hin. repeat (destruct Hin as [Hin | Hin]; [discriminate Hin |]).
    exact Hin. }
  assert (~ In "2m" Timeframes.Object_prototype) as H2.
  { simpl. intros Hin. repeat (destruct Hin as [Hin | Hin]; [discriminate Hin |]).
    exact Hin. }
  assert (~ In "Momentum" ConfigSpec.known_kinds) as H3.
  { simpl. intros Hin. repeat (destruct Hin as [Hin | Hin]; [discriminate Hin |]).
    exact Hin. }
  split; [exact H1 |]. split; [exact H2 |]. split; [exact H3 |].
  destruct (C3_unknown_timeframe_or_kind "2m" "Momentum" H1 H2 H3) as (Hs & _ & Hc).
  split.
  - apply Hs.
  - apply (Hc float ConfigSpec.script _ _ _).
Defined.

(** ** The clock offset *)

Section Clock.
Import WebSocketClient.
Local Open Scope Q_scope.









End Clock.

(** ** The strategy engine *)

Section EngineTheorems.
Import StrategyEngine EngineSpec.
Context {num S DB : Type} `{Strategy num S} `{Store num DB}.

Lemma for_of_collect (tick : Tick.t num) (candle : option (Candle.t num))
    (body : ref -> list (emitted num) -> M S DB (list (emitted num))) :
  (forall r acc w,
     body r acc w = (Returned (acc ++ fst (contribution tick candle r w)),
                     snd (contribution tick candle r w))) ->
  forall strategies acc w,
    for_of strategies body acc w
    = (Returned (acc ++ fst (collect tick candle strategies w)),
       snd (collect tick candle strategies w)).
Proof.
  intros Hbody strategies. induction strategies as [| r rest IH]; intros acc w; simpl.
  - unfold ret. rewrite app_nil_r. reflexivity.
  - unfold bind. rewrite Hbody.
    destruct (contribution tick candle r w) as [first w1]. simpl.
    rewrite IH.
    destruct (collect tick candle rest w1) as [others w2]. simpl.
    rewrite app_assoc. reflexivity.
Qed.

Lemma evaluateStrategies_collect (tick : Tick.t num) (candle : option (Candle.t num))
    (strategies : list ref) (w : world S DB) :
  evaluateStrategies tick candle strategies w
  = (Returned (fst (collect tick candle strategies w)),
     snd (collect tick candle strategies w)).
Proof.
  unfold evaluateStrategies.
  rewrite (for_of_collect tick candle); [reflexivity |].
  intros r acc w0.
  unfold contribution, try_catch, bind, ret, throw, strategy_id, strategy_name,
    console_error, data_id, log.
  destruct (call_evaluate r tick candle w0) as [[[sg |] | e] w1]; simpl;
    rewrite ?app_nil_r; try reflexivity.
  destruct (persist_signal _ w1) as [[resp | e] w2]; simpl;
    rewrite ?app_nil_r; try reflexivity.
  destruct (error resp) as [msg |]; simpl; rewrite ?app_nil_r; try reflexivity.
  destruct (data resp) as [i |]; simpl; rewrite ?app_nil_r; reflexivity.
Qed.

Lemma contribution_evaluated (tick : Tick.t num) (candle : option (Candle.t num))
    (r : ref) (w : world S DB) :
  evaluated (snd (contribution tick candle r w)) = evaluated w ++ [r].
Proof.
  unfold contribution, call_evaluate, persist_signal, log.
  destruct (evaluate (heap w r) tick candle) as [[[sg |] | e] s']; simpl;
    try reflexivity.
  match goal with |- context [insert_signal ?row ?d] =>
    destruct (insert_signal row d) as [[resp | e] d'] end; simpl; try reflexivity.
  destruct (error resp); simpl; try reflexivity.
  destruct (data resp); reflexivity.
Qed.

Lemma collect_evaluated (tick : Tick.t num) (candle : option (Candle.t num))
    (strategies : list ref) (w : world S DB) :
  evaluated (snd (collect tick candle strategies w)) = evaluated w ++ strategies.
Proof.
  revert w. induction strategies as [| r rest IH]; intros w; simpl.
  - rewrite app_nil_r. reflexivity.
  - pose proof (contribution_evaluated tick candle r w) as Hr.
    destruct (contribution tick candle r w) as [first w1]. simpl in Hr.
    specialize (IH w1).
    destruct (collect tick candle rest w1) as [others w2]. simpl in *.
    rewrite IH, Hr, <- app_assoc. reflexivity.
Qed.

Lemma collect_app (tick : Tick.t num) (candle : option (Candle.t num))
    (before after : list ref) (w : world S DB) :
  collect tick candle (before ++ after) w
  = (fst (collect tick candle before w)
       ++ fst (collect tick candle after (snd (collect tick candle before w))),
     snd (collect tick candle after (snd (collect tick candle before w)))).
Proof.
  revert w. induction before as [| r rest IH]; intros w; simpl.
  - destruct (collect tick candle after w). reflexivity.
  - destruct (contribution tick candle r w) as [first w1].
    rewrite IH.
    destruct (collect tick candle rest w1) as [others w2]. simpl.
    rewrite app_assoc. reflexivity.
Qed.

(** C9, amended: [evaluateStrategies] never fails; it calls [evaluate] on
    each strategy of the list once, in list order; and it returns, in that
    order, the non-null results whose signal row was stored without error,
    each with the stored id and the strategy's name.  A strategy whose
    [evaluate] throws contributes nothing and is logged, and the strategies
    after it are evaluated as if it had not been there. *)
Theorem C9_evaluate_strategies (tick : Tick.t num) (candle : option (Candle.t num))
    (strategies : list ref) (w : world S DB) :
  evaluateStrategies tick candle strategies w
  = (Returned (fst (collect tick candle strategies w)),
     snd (collect tick candle strategies w)) /\
  evaluated (snd (evaluateStrategies tick candle strategies w))
  = evaluated w ++ strategies /\
  (forall before r after e,
     strategies = before ++ r :: after ->
     let w1 := snd (collect tick candle before w) in
     fst (evaluate (heap w1 r) tick candle) = Threw e ->
     let w2 := snd (contribution tick candle r w1) in
     fst (collect tick candle strategies w)
     = fst (collect tick candle before w) ++ fst (collect tick candle after w2) /\
     console w2 = console w1 ++ [(name (heap w2 r), e)]).
Proof.
  split; [apply evaluateStrategies_collect |]. split.
  - rewrite evaluateStrategies_collect. simpl. apply collect_evaluated.
  - intros before r after e -> w1 Hthrow w2.
    rewrite collect_app. fold w1. simpl.
    subst w2. unfold contribution, call_evaluate in *.
    destruct (evaluate (heap w1 r) tick candle) as [res s'] eqn:Heval.
    simpl in Hthrow. subst res. simpl.
    match goal with |- context [collect tick candle after ?w] =>
      destruct (collect tick candle after w) as [others w3] end.
    simpl. split; reflexivity.
Qed.

End EngineTheorems.

Section EngineExamples.
Import StrategyEngine EngineSpec.

Lemma C9_evaluate_strategies_witness :
  fst (evaluate (heap (example_world [Returned (mkResponse (Some "sig-1") None)]) 0%nat)
                example_tick None)
  = Threw (Error "evaluate method must be implemented") /\
  map signal_strategy
      (fst (collect example_tick None [0; 1]%nat
              (example_world [Returned (mkResponse (Some "sig-1") None)])))
  = ["EMA_Cross"] /\
  evaluated (snd (evaluateStrategies example_tick None [0; 1]%nat
                    (example_world [Returned (mkResponse (Some "sig-1") None)])))
  = [0; 1]%nat.
Proof.
  set (w := example_world [Returned (mkResponse (Some "sig-1") None)]).
  assert (fst (evaluate (heap w 0%nat) example_tick None)
          = Threw (Error "evaluate method must be implemented")) as Hthrow
    by reflexivity.
  split; [exact Hthrow |].
  destruct (C9_evaluate_strategies example_tick None [0; 1]%nat w)
    as (_ & Hcalls & Hskip).
  split; [| exact Hcalls].
  destruct (Hskip [] 0%nat [1%nat] _ eq_refl Hthrow) as [-> _].
  vm_compute. reflexivity.
Defined.

(** C9, as specified, fails: a strategy returns a signal, the store answers
    the insert with an error, and the signal is left out of the batch. *)
Lemma C9_unsaved_signal_dropped :
  (exists sg s',
     evaluate (heap (example_world [Returned (mkResponse None (Some "insert failed"))])
                    1%nat) example_tick None = (Returned (Some sg), s')) /\
  fst (evaluateStrategies example_tick None [1%nat]
         (example_world [Returned (mkResponse None (Some "insert failed"))]))
  = Returned [] /\
  ~ collects_every_signal_as_specified (num := float) (S := object float)
      (DB := ConfigSpec.script).
Proof.
  split; [eexists; eexists; vm_compute; reflexivity |].
  split; [vm_compute; reflexivity |].
  intros Hspec.
  destruct (Hspec example_tick None 1%nat
              (example_world [Returned (mkResponse None (Some "insert failed"))])
              _ _ eq_refl) as (signals & w' & Hrun & Hsig).
  vm_compute in Hrun. inversion Hrun; subst. discriminate Hsig.
Qed.

End EngineExamples.

(** ** Cancelling a job *)

Section SchedulerTheorems.
Import Scheduler SchedulerSpec.

(** [cancelAllJobs] clears only timers, and every timer a job has on record. *)
Lemma clear_all_timers (js : gmap string job) (ts : gmap nat timer) :
  forall id t,
    map_fold (fun _ j acc => delete (timeoutId j) acc) ts js !! id = Some t ->
    ts !! id = Some t /\ forall k j, js !! k = Some j -> timeoutId j <> id.
Proof.
  apply (map_fold_weak_ind
           (fun (r : gmap nat timer) (m : gmap string job) =>
              forall id t, r !! id = Some t ->
                ts !! id = Some t /\ forall k j, m !! k = Some j -> timeoutId j <> id)).
  - intros id t Hid. split; [exact Hid |]. intros k j Hk.
    rewrite lookup_empty in Hk. discriminate Hk.
  - intros k j m r Hfresh IH id t Hid.
    destruct (decide (timeoutId j = id)) as [<- | Hne].
    + rewrite lookup_delete_eq in Hid. discriminate Hid.
    + rewrite lookup_delete_ne in Hid by exact Hne.
      destruct (IH id t Hid) as [Hts Hm]. split; [exact Hts |].
      intros k' j' Hk'. destruct (decide (k = k')) as [<- | Hkk].
      * rewrite lookup_insert_eq in Hk'. injection Hk' as <-. exact Hne.
      * rewrite lookup_insert_ne in Hk' by exact Hkk. eapply Hm. exact Hk'.
Qed.

Lemma inv_new : inv [] new.
Proof.
  constructor; simpl; intros.
  - rewrite lookup_empty in H. discriminate H.
  - rewrite lookup_empty in H. discriminate H.
  - discriminate H.
  - rewrite lookup_empty in H. discriminate H.
  - discriminate H.
Qed.

Lemma inv_weaken (used used' : list string) (this : state) :
  (forall x, In x used -> In x used') -> inv used this -> inv used' this.
Proof.
  intros Hsub [H1 H2 H3 H4 H5]. constructor; eauto.
Qed.

(** Arming is safe when no pending timer belongs to the job. *)
Lemma inv_scheduleNext (used : list string) (c : closure) (serverTime : Date) (this : state) :
  inv used this ->
  (forall id t, timers this !! id = Some t -> c_jobId (t_closure t) <> c_jobId c) ->
  (forall c', running this = Some c' -> c_jobId c' <> c_jobId c) ->
  inv (used ++ [c_jobId c]) (scheduleNext c serverTime this).
Proof.
  intros [Hreg Hids Hrun Hjobs Hrunning] Hnone Hother.
  unfold scheduleNext.
  destruct (arm (c_intervalMs c) (c_offset c) serverTime) as [target delay].
  constructor; simpl.
  - intros id t Hid. destruct (decide (nextTimeout this = id)) as [<- | Hne].
    + rewrite lookup_insert_eq in Hid. injection Hid as <-. simpl.
      rewrite lookup_insert_eq. eexists. split; reflexivity.
    + rewrite lookup_insert_ne in Hid by exact Hne.
      rewrite lookup_insert_ne by (intros Heq; apply (Hnone id t Hid); congruence).
      apply Hreg. exact Hid.
  - intros id t Hid. destruct (decide (nextTimeout this = id)) as [<- | Hne].
    + lia.
    + rewrite lookup_insert_ne in Hid by exact Hne.
      pose proof (Hids id t Hid). lia.
  - intros c' id t Hc' Hid. destruct (decide (nextTimeout this = id)) as [<- | Hne].
    + rewrite lookup_insert_eq in Hid. injection Hid as <-. simpl.
      intros Heq. apply (Hother c' Hc'). congruence.
    + rewrite lookup_insert_ne in Hid by exact Hne. eapply Hrun; eassumption.
  - intros jobId j Hj. apply in_or_app.
    destruct (decide (c_jobId c = jobId)) as [<- | Hne].
    + right. left. reflexivity.
    + rewrite lookup_insert_ne in Hj by exact Hne. left. eapply Hjobs. exact Hj.
  - intros c' Hc'. apply in_or_app. left. apply Hrunning. exact Hc'.
Qed.

Lemma inv_step (used : list string) (this this' : state) (e : event) :
  inv used this ->
  step this e = Some this' ->
  (forall jobId, scheduled_id e = Some jobId -> ~ In jobId used) ->
  inv (used ++ option_list (scheduled_id e)) this'.
Proof.
  intros Hinv Hstep Hfresh.
  pose proof Hinv as [Hreg Hids Hrun Hjobs Hrunning].
  destruct e as [symbol timeframe callback offset now serverTime
                | id serverTime | id serverTime | serverTime | jobId |]; simpl in Hstep.
  - (* Schedule *)
    injection Hstep as <-. unfold scheduleAtCandleBoundary. simpl in Hfresh |- *.
    destruct (Timeframes.get timeframe) as [intervalMs |]; simpl.
    + specialize (Hfresh _ eq_refl).
      set (c := {| c_jobId := make_jobId symbol timeframe now |}).
      apply (inv_scheduleNext used c serverTime this Hinv).
      * intros id t Hid Heq. apply Hfresh.
        destruct (Hreg id t Hid) as (j & Hj & _).
        apply (Hjobs _ j). subst c. simpl in Heq. rewrite <- Heq. exact Hj.
      * intros c' Hc' Heq. apply Hfresh. subst c. simpl in Heq. rewrite <- Heq.
        apply Hrunning. exact Hc'.
    + rewrite app_nil_r. exact Hinv.
  - (* Fire *)
    rewrite app_nil_r.
    destruct (running this) as [c |] eqn:Hr; [discriminate Hstep |].
    destruct (timers this !! id) as [t |] eqn:Ht; [| discriminate Hstep].
    injection Hstep as <-.
    constructor; simpl.
    + intros id' t' Hid'.
      destruct (decide (id = id')) as [<- | Hne];
        [rewrite lookup_delete_eq in Hid'; discriminate Hid' |].
      rewrite lookup_delete_ne in Hid' by exact Hne. apply Hreg. exact Hid'.
    + intros id' t' Hid'.
      destruct (decide (id = id')) as [<- | Hne];
        [rewrite lookup_delete_eq in Hid'; discriminate Hid' |].
      rewrite lookup_delete_ne in Hid' by exact Hne. eapply Hids. exact Hid'.
    + intros c id' t' Hc Hid'. injection Hc as <-.
      destruct (decide (id = id')) as [<- | Hne];
        [rewrite lookup_delete_eq in Hid'; discriminate Hid' |].
      rewrite lookup_delete_ne in Hid' by exact Hne.
      intros Heq.
      destruct (Hreg id t Ht) as (j & Hj & Hjid).
      destruct (Hreg id' t' Hid') as (j' & Hj' & Hjid').
      rewrite Heq, Hj in Hj'. injection Hj' as <-. congruence.
    + exact Hjobs.
    + intros c Hc. injection Hc as <-.
      destruct (Hreg id t Ht) as (j & Hj & _). eapply Hjobs. exact Hj.
  - (* FireFallback *)
    rewrite app_nil_r.
    destruct (running this) as [c |] eqn:Hr; [discriminate Hstep |].
    destruct (timers this !! id) as [t |] eqn:Ht; [| discriminate Hstep].
    injection Hstep as <-.
    constructor; simpl.
    + intros id' t' Hid'.
      destruct (decide (id = id')) as [<- | Hne];
        [rewrite lookup_delete_eq in Hid'; discriminate Hid' |].
      rewrite lookup_delete_ne in Hid' by exact Hne. apply Hreg. exact Hid'.
    + intros id' t' Hid'.
      destruct (decide (id = id')) as [<- | Hne];
        [rewrite lookup_delete_eq in Hid'; discriminate Hid' |].
      rewrite lookup_delete_ne in Hid' by exact Hne. eapply Hids. exact Hid'.
    + intros c id' t' Hc. discriminate Hc.
    + exact Hjobs.
    + intros c Hc. discriminate Hc.
  - (* Rearm *)
    rewrite app_nil_r.
    destruct (running this) as [c |] eqn:Hr; [| discriminate Hstep].
    injection Hstep as <-.
    assert (inv used {| jobs := jobs this; timingErrors := timingErrors this;
                        timers := timers this; nextTimeout := nextTimeout this;
                        running := None; invocations := invocations this |}) as Hidle.
    { constructor; simpl; auto; intros; discriminate. }
    case_bool_decide as Hhas; [| exact Hidle].
    eapply inv_weaken; [| apply (inv_scheduleNext used c serverTime _ Hidle)].
    + intros x Hx. apply in_app_or in Hx. destruct Hx as [Hx | [<- | []]]; [exact Hx |].
      apply Hrunning. reflexivity.
    + simpl. intros id t Hid. eapply Hrun; [reflexivity | exact Hid].
    + simpl. intros c' Hc'. discriminate Hc'.
  - (* Cancel *)
    rewrite app_nil_r. injection Hstep as <-. unfold cancelJob.
    destruct (jobs this !! jobId) as [j |] eqn:Hj; simpl; [| exact Hinv].
    constructor; simpl.
    + intros id t Hid.
      destruct (decide (timeoutId j = id)) as [<- | Hne];
        [rewrite lookup_delete_eq in Hid; discriminate Hid |].
      rewrite lookup_delete_ne in Hid by exact Hne.
      destruct (Hreg id t Hid) as (j' & Hj' & Hjid').
      exists j'. split; [| exact Hjid'].
      rewrite lookup_delete_ne; [exact Hj' |].
      intros Heq. rewrite <- Heq, Hj in Hj'. injection Hj' as <-. contradiction.
    + intros id t Hid.
      destruct (decide (timeoutId j = id)) as [<- | Hne];
        [rewrite lookup_delete_eq in Hid; discriminate Hid |].
      rewrite lookup_delete_ne in Hid by exact Hne. eapply Hids. exact Hid.
    + intros c id t Hc Hid.
      destruct (decide (timeoutId j = id)) as [<- | Hne];
        [rewrite lookup_delete_eq in Hid; discriminate Hid |].
      rewrite lookup_delete_ne in Hid by exact Hne. eapply Hrun; eassumption.
    + intros k j' Hk. destruct (decide (jobId = k)) as [<- | Hne];
        [rewrite lookup_delete_eq in Hk; discriminate Hk |].
      rewrite lookup_delete_ne in Hk by exact Hne. eapply Hjobs. exact Hk.
    + exact Hrunning.
  - (* CancelAll *)
    rewrite app_nil_r. injection Hstep as <-. unfold cancelAllJobs.
    assert (forall id t,
              map_fold (fun _ j acc => delete (timeoutId j) acc) (timers this) (jobs this)
                !! id = Some t -> False) as Hempty.
    { intros id t Hid. destruct (clear_all_timers _ _ id t Hid) as [Hts Hnot].
      destruct (Hreg id t Hts) as (j & Hj & Hjid). exact (Hnot _ j Hj Hjid). }
    constructor; simpl.
    + intros id t Hid. destruct (Hempty id t Hid).
    + intros id t Hid. destruct (Hempty id t Hid).
    + intros c id t _ Hid. destruct (Hempty id t Hid).
    + intros k j Hk. rewrite lookup_empty in Hk. discriminate Hk.
    + exact Hrunning.
Qed.

Lemma inv_steps (events : list event) :
  forall (used : list string) (this this' : state),
    inv used this ->
    steps this events = Some this' ->
    NoDup (used ++ scheduled_ids events) ->
    inv (used ++ scheduled_ids events) this'.
Proof.
  induction events as [| e events IH]; intros used this this' Hinv Hsteps Hnodup.
  - simpl in Hsteps. injection Hsteps as <-. unfold scheduled_ids. simpl.
    rewrite app_nil_r. exact Hinv.
  - simpl in Hsteps. destruct (step this e) as [this1 |] eqn:Hstep; [| discriminate Hsteps].
    assert (scheduled_ids (e :: events)
            = option_list (scheduled_id e) ++ scheduled_ids events) as Hids.
    { unfold scheduled_ids. simpl. destruct (scheduled_id e); reflexivity. }
    rewrite Hids in *. rewrite app_assoc in *.
    apply (IH _ this1 this'); [| exact Hsteps | exact Hnodup].
    apply (inv_step used this this1 e Hinv Hstep).
    intros jobId Hsched Hin. rewrite Hsched in Hnodup. simpl in Hnodup.
    apply NoDup_app in Hnodup. destruct Hnodup as (Hnd & _ & _).
    apply NoDup_app in Hnd. destruct Hnd as (_ & Hdisj & _).
    apply (Hdisj jobId).
    + apply list_elem_of_In. exact Hin.
    + apply list_elem_of_In. left. reflexivity.
Qed.

Lemma cancel_dead (used : list string) (jobId : string) (this : state) :
  inv used this -> dead jobId (snd (cancelJob jobId this)).
Proof.
  intros [Hreg _ _ _ _]. unfold cancelJob, dead.
  destruct (jobs this !! jobId) as [j |] eqn:Hj; simpl.
  - split; [apply lookup_delete_eq |].
    intros id t Hid Heq.
    destruct (decide (timeoutId j = id)) as [<- | Hne];
      [rewrite lookup_delete_eq in Hid; discriminate Hid |].
    rewrite lookup_delete_ne in Hid by exact Hne.
    destruct (Hreg id t Hid) as (j' & Hj' & Hjid').
    rewrite Heq, Hj in Hj'. injection Hj' as <-. contradiction.
  - split; [exact Hj |].
    intros id t Hid Heq. destruct (Hreg id t Hid) as (j' & Hj' & _).
    rewrite Heq, Hj in Hj'. discriminate Hj'.
Qed.

Lemma dead_scheduleNext (jobId : string) (c : closure) (serverTime : Date) (this : state) :
  dead jobId this -> c_jobId c <> jobId ->
  dead jobId (scheduleNext c serverTime this) /\
  invocations (scheduleNext c serverTime this) = invocations this.
Proof.
  intros [Hjob Htimers] Hne. unfold scheduleNext, dead.
  destruct (arm (c_intervalMs c) (c_offset c) serverTime) as [target delay]. simpl.
  split; [split |]; [| | reflexivity].
  - rewrite lookup_insert_ne by exact Hne. exact Hjob.
  - intros id t Hid. destruct (decide (nextTimeout this = id)) as [<- | Hni].
    + rewrite lookup_insert_eq in Hid. injection Hid as <-. exact Hne.
    + rewrite lookup_insert_ne in Hid by exact Hni. eapply Htimers. exact Hid.
Qed.

Lemma dead_step (jobId : string) (this this' : state) (e : event) :
  dead jobId this ->
  step this e = Some this' ->
  scheduled_id e <> Some jobId ->
  dead jobId this' /\ invocations_of jobId this' = invocations_of jobId this.
Proof.
  intros Hdead Hstep Hother. pose proof Hdead as [Hjob Htimers].
  unfold invocations_of.
  destruct e as [symbol timeframe callback offset now serverTime
                | id serverTime | id serverTime | serverTime | jobId' |]; simpl in Hstep.
  - injection Hstep as <-. unfold scheduleAtCandleBoundary. simpl in Hother.
    destruct (Timeframes.get timeframe) as [intervalMs |]; simpl; [| auto].
    set (c := {| c_jobId := make_jobId symbol timeframe now |}).
    destruct (dead_scheduleNext jobId c serverTime this Hdead) as [Hd Hi].
    { simpl. intros Heq. apply Hother. rewrite Heq. reflexivity. }
    rewrite Hi. auto.
  - destruct (running this) as [c |]; [discriminate Hstep |].
    destruct (timers this !! id) as [t |] eqn:Ht; [| discriminate Hstep].
    injection Hstep as <-. unfold dead. simpl. split; [split |].
    + exact Hjob.
    + intros id' t' Hid'.
      destruct (decide (id = id')) as [<- | Hne];
        [rewrite lookup_delete_eq in Hid'; discriminate Hid' |].
      rewrite lookup_delete_ne in Hid' by exact Hne. eapply Htimers. exact Hid'.
    + rewrite filter_app. rewrite filter_cons_False; [| simpl; eapply Htimers; exact Ht].
      rewrite filter_nil, app_nil_r. reflexivity.
  - destruct (running this) as [c |]; [discriminate Hstep |].
    destruct (timers this !! id) as [t |] eqn:Ht; [| discriminate Hstep].
    injection Hstep as <-. unfold dead. simpl. split; [split |].
    + exact Hjob.
    + intros id' t' Hid'.
      destruct (decide (id = id')) as [<- | Hne];
        [rewrite lookup_delete_eq in Hid'; discriminate Hid' |].
      rewrite lookup_delete_ne in Hid' by exact Hne. eapply Htimers. exact Hid'.
    + reflexivity.
  - destruct (running this) as [c |]; [| discriminate Hstep].
    injection Hstep as <-.
    assert (dead jobId {| jobs := jobs this; timingErrors := timingErrors this;
                          timers := timers this; nextTimeout := nextTimeout this;
                          running := None; invocations := invocations this |}) as Hidle
      by exact Hdead.
    case_bool_decide as Hhas; [| auto].
    destruct (dead_scheduleNext jobId c serverTime _ Hidle) as [Hd Hi].
    { intros Heq. rewrite Heq, Hjob in Hhas. destruct Hhas as [? Hx]. discriminate Hx. }
    rewrite Hi. auto.
  - injection Hstep as <-. unfold cancelJob.
    destruct (jobs this !! jobId') as [j |] eqn:Hj; simpl; [| auto].
    unfold dead. simpl. split; [split |]; [| | reflexivity].
    + destruct (decide (jobId' = jobId)) as [<- | Hne];
        [apply lookup_delete_eq | rewrite lookup_delete_ne by exact Hne; exact Hjob].
    + intros id t Hid.
      destruct (decide (timeoutId j = id)) as [<- | Hne];
        [rewrite lookup_delete_eq in Hid; discriminate Hid |].
      rewrite lookup_delete_ne in Hid by exact Hne. eapply Htimers. exact Hid.
  - injection Hstep as <-. unfold cancelAllJobs, dead. simpl.
    split; [split |]; [apply lookup_empty | | reflexivity].
    intros id t Hid. destruct (clear_all_timers _ _ id t Hid) as [Hts _].
    eapply Htimers. exact Hts.
Qed.

Lemma dead_steps (jobId : string) (events : list event) :
  forall this this',
    dead jobId this ->
    steps this events = Some this' ->
    ~ In jobId (scheduled_ids events) ->
    invocations_of jobId this' = invocations_of jobId this.
Proof.
  induction events as [| e events IH]; intros this this' Hdead Hsteps Hnot.
  - simpl in Hsteps. injection Hsteps as <-. reflexivity.
  - simpl in Hsteps. destruct (step this e) as [this1 |] eqn:Hstep; [| discriminate Hsteps].
    assert (scheduled_id e <> Some jobId /\ ~ In jobId (scheduled_ids events)) as [He Hrest].
    { unfold scheduled_ids in *. simpl in Hnot. destruct (scheduled_id e) as [k |].
      - split; [intros Heq; injection Heq as ->; apply Hnot; left; reflexivity |].
        intros Hin. apply Hnot. right. exact Hin.
      - split; [discriminate | exact Hnot]. }
    destruct (dead_step jobId this this1 e Hdead Hstep He) as [Hdead1 Hsame].
    rewrite <- Hsame. apply (IH this1 this' Hdead1 Hsteps Hrest).
Qed.

Lemma steps_app (before after : list event) (this : state) :
  steps this (before ++ after)
  = match steps this before with
    | Some this1 => steps this1 after
    | None => None
    end.
Proof.
  revert this. induction before as [| e before IH]; intros this; simpl.
  - reflexivity.
  - destruct (step this e); [apply IH | reflexivity].
Qed.

(** As long as every job id is created once, cancelling works: whatever
    happened before [cancelJob(jobId)], and whatever happens after it short
    of scheduling that id again, the callbacks of the job are not called
    any more.  The handler of the job may be between its callback and its
    re-arm test when the cancellation comes. *)
Theorem cancel_stops_firing (before after : list event) (jobId : string)
    (final : state) :
  NoDup (scheduled_ids before) ->
  ~ In jobId (scheduled_ids after) ->
  steps new (before ++ Cancel jobId :: after) = Some final ->
  exists cancelled : state,
    steps new before = Some cancelled /\
    invocations_of jobId final = invocations_of jobId cancelled.
Proof.
  intros Hnodup Hafter Hsteps.
  rewrite steps_app in Hsteps.
  destruct (steps new before) as [cancelled |] eqn:Hbefore; [| discriminate Hsteps].
  exists cancelled. split; [reflexivity |].
  simpl in Hsteps.
  pose proof (inv_steps before [] new cancelled inv_new Hbefore Hnodup) as Hinv.
  pose proof (cancel_dead _ jobId cancelled Hinv) as Hdead.
  rewrite (dead_steps jobId after _ final Hdead Hsteps Hafter).
  unfold invocations_of, cancelJob.
  destruct (jobs cancelled !! jobId); reflexivity.
Qed.

(** C5 on the code: two jobs scheduled for the same symbol and timeframe in
    the same millisecond receive the same job id; [cancelJob] clears the
    timer of the second only, and the timer of the first still fires and
    calls its callback after the cancellation. *)
Theorem C5_cancelled_job_fires :
  fst (scheduleAtCandleBoundary "EURUSD" "1m" 1 None 1700000000000 1700000000000 new)
  = inr "EURUSD_1m_1700000000000" /\
  (exists scheduled,
     steps new (firstn 2 colliding_trace) = Some scheduled /\
     fst (scheduleAtCandleBoundary "EURUSD" "1m" 2 None 1700000000000 1700000000000
            (snd (scheduleAtCandleBoundary "EURUSD" "1m" 1 None
                    1700000000000 1700000000000 new)))
     = inr "EURUSD_1m_1700000000000" /\
     fst (cancelJob "EURUSD_1m_1700000000000" scheduled) = true) /\
  (exists cancelled,
     steps new (firstn 3 colliding_trace) = Some cancelled /\
     invocations_of "EURUSD_1m_1700000000000" cancelled = []) /\
  (exists final,
     steps new colliding_trace = Some final /\
     invocations_of "EURUSD_1m_1700000000000" final
     = [ {| i_jobId := "EURUSD_1m_1700000000000"; i_callback := 1;
            i_expectedTime := DateOf 1700000040000 |} ]).
Proof.
  split; [vm_compute; reflexivity |].
  split; [eexists; split; [vm_compute; reflexivity |]; split; vm_compute; reflexivity |].
  split; eexists; (split; [vm_compute; reflexivity |]); vm_compute; reflexivity.
Qed.

End SchedulerTheorems.

(** ** Completed candles *)

Section CandleTheorems.
Import IndicatorWorker CandleSpec.
Local Open Scope Q_scope.

Lemma feed_ingest_all (ticks : list (Tick.t Q)) :
  forall (candleBuilders : gmap string (builder Q)) (symbol timeframe : string),
    feed candleBuilders symbol timeframe ticks
    = ingest_all (builder_of candleBuilders symbol timeframe) ticks.
Proof.
  induction ticks as [| tick rest IH]; intros candleBuilders symbol timeframe; simpl.
  - reflexivity.
  - unfold buildCandle. fold (builder_of candleBuilders symbol timeframe).
    destruct (ingest (builder_of candleBuilders symbol timeframe) tick) as [r b'].
    rewrite IH. f_equal. f_equal. unfold builder_of. rewrite lookup_insert_eq. reflexivity.
Qed.

Lemma assoc_in_values (key : string) (l : list (string * Z)) (v : Z) :
  Timeframes.assoc key l = Some v -> In v (map snd l).
Proof.
  induction l as [| [k x] l IH]; simpl; [discriminate |].
  destruct (String.eqb k key).
  - intros Heq. injection Heq as ->. left. reflexivity.
  - intros Heq. right. apply IH. exact Heq.
Qed.

Lemma getTimeframeMs_positive (timeframe : string) (T : Z) :
  getTimeframeMs timeframe = Timeframes.Ms T -> (0 < T)%Z.
Proof.
  unfold getTimeframeMs, Timeframes.get.
  destruct (Timeframes.assoc timeframe Timeframes.table) as [v |] eqn:Hassoc.
  - intros Heq. injection Heq as <-.
    apply durations_positive. apply (assoc_in_values timeframe). exact Hassoc.
  - destruct (existsb _ _); [discriminate |].
    intros Heq. injection Heq as <-. lia.
Qed.

Lemma candle_start_floor (ts T : Z) :
  (0 < T)%Z -> (0 <= ts)%Z -> (ts - Z.rem ts T = ts / T * T)%Z.
Proof.
  intros HT Hts. rewrite Z.rem_mod_nonneg by lia.
  pose proof (Z.div_mod ts T ltac:(lia)). lia.
Qed.

Lemma Math_max_upper (a b : Q) : a <= Math_max a b /\ b <= Math_max a b.
Proof.
  simpl. destruct (Qle_bool a b) eqn:E.
  - apply Qle_bool_iff in E. split; [exact E | apply Qle_refl].
  - split; [apply Qle_refl |].
    destruct (Qlt_le_dec a b) as [Hlt | Hle]; [| exact Hle].
    apply Qlt_le_weak in Hlt. apply Qle_bool_iff in Hlt. congruence.
Qed.

Lemma Math_min_lower (a b : Q) : Math_min a b <= a /\ Math_min a b <= b.
Proof.
  simpl. destruct (Qle_bool a b) eqn:E.
  - apply Qle_bool_iff in E. split; [apply Qle_refl | exact E].
  - split; [| apply Qle_refl].
    destruct (Qlt_le_dec a b) as [Hlt | Hle]; [| exact Hle].
    apply Qlt_le_weak in Hlt. apply Qle_bool_iff in Hlt. congruence.
Qed.

Lemma getCandleStart_valid (T ts : Z) :
  (0 < T)%Z -> (Z.abs ts <= Date_max)%Z ->
  getCandleStart ts (Timeframes.Ms T) = DateOf (ts - Z.rem ts T).
Proof.
  intros HT Hts. unfold getCandleStart.
  destruct (Z.eqb_spec T 0) as [-> | _]; [lia |].
  apply new_Date_in_range.
  pose proof (Z.quot_rem' ts T) as Hqr.
  assert (Z.abs (Z.rem ts T) < Z.abs T)%Z as Hb by (apply Z.rem_bound_abs; lia).
  destruct (Z.le_gt_cases 0 ts) as [Hpos | Hneg].
  - pose proof (Z.rem_bound_pos ts T Hpos HT).
    assert (0 <= T * Z.quot ts T)%Z
      by (apply Z.mul_nonneg_nonneg; [lia | apply Z.quot_pos; lia]).
    lia.
  - pose proof (Z.rem_nonpos ts T ltac:(lia) ltac:(lia)).
    assert (Z.quot ts T <= 0)%Z by nia.
    assert (T * Z.quot ts T <= 0)%Z by nia.
    lia.
Qed.

Lemma period_start_mono (T : Z) (a b : Tick.t Q) :
  (0 < T)%Z -> (Tick.ts a <= Tick.ts b)%Z -> (period_start T a <= period_start T b)%Z.
Proof.
  intros HT Hab. unfold period_start.
  pose proof (Z.quot_rem' (Tick.ts a) T) as Ha.
  pose proof (Z.quot_rem' (Tick.ts b) T) as Hb.
  pose proof (Z.quot_le_mono (Tick.ts a) (Tick.ts b) T HT Hab) as Hq.
  assert (T * Z.quot (Tick.ts a) T <= T * Z.quot (Tick.ts b) T)%Z
    by (apply Z.mul_le_mono_nonneg_l; lia).
  lia.
Qed.

Lemma aggregates_new (T : Z) (tick : Tick.t Q) :
  aggregates T (period_start T tick)
    (createNewCandle tick (DateOf (period_start T tick)) (Timeframes.Ms T)) [tick].
Proof.
  exists tick, tick. unfold createNewCandle.
  cbn [Candle.open Candle.close Candle.high Candle.low Candle.ts_open Candle.ts_close
       Candle.tickCount head last length].
  repeat apply conj; try reflexivity;
    repeat constructor; try apply Qle_refl.
Qed.

Lemma Math_max_either (a b : Q) : Math_max a b = a \/ Math_max a b = b.
Proof. simpl. destruct (Qle_bool a b); auto. Qed.

Lemma Math_min_either (a b : Q) : Math_min a b = a \/ Math_min a b = b.
Proof. simpl. destruct (Qle_bool a b); auto. Qed.

Lemma aggregates_update (T start : Z) (cur : Candle.t Q) (period : list (Tick.t Q))
    (tick : Tick.t Q) :
  aggregates T start cur period ->
  period_start T tick = start ->
  aggregates T start (updateCandle cur tick) (period ++ [tick]).
Proof.
  intros (first & recent & Hfirst & Hlast & Hopen & Hclose & Hhigh & Hlow
          & Hhighest & Hlowest & Hstart & Hend & Hsame & Hcount) Htick.
  pose proof (Math_max_upper (Candle.high cur) (Tick.price tick)) as [Hmax1 Hmax2].
  pose proof (Math_min_lower (Candle.low cur) (Tick.price tick)) as [Hmin1 Hmin2].
  exists first, tick.
  unfold updateCandle. cbn [Candle.open Candle.close Candle.high Candle.low
                            Candle.ts_open Candle.ts_close Candle.tickCount].
  split.
  { destruct period as [| p period]; [discriminate Hfirst | exact Hfirst]. }
  split; [apply last_snoc |].
  split; [exact Hopen |].
  split; [reflexivity |].
  split.
  { apply Forall_app. split.
    - eapply Forall_impl; [exact Hhigh |]. intros t Ht. simpl in Ht.
      eapply Qle_trans; [exact Ht | exact Hmax1].
    - repeat constructor. exact Hmax2. }
  split.
  { apply Forall_app. split.
    - eapply Forall_impl; [exact Hlow |]. intros t Ht. simpl in Ht.
      eapply Qle_trans; [exact Hmin1 | exact Ht].
    - repeat constructor. exact Hmin2. }
  split.
  { apply Exists_app.
    destruct (Math_max_either (Candle.high cur) (Tick.price tick)) as [-> | ->].
    - left. exact Hhighest.
    - right. constructor. reflexivity. }
  split.
  { apply Exists_app.
    destruct (Math_min_either (Candle.low cur) (Tick.price tick)) as [-> | ->].
    - left. exact Hlowest.
    - right. constructor. reflexivity. }
  split; [exact Hstart |].
  split; [exact Hend |].
  split.
  { apply Forall_app. split; [exact Hsame |]. repeat constructor. exact Htick. }
  rewrite length_app, Hcount. cbn [length]. lia.
Qed.

(** One tick: either the open candle absorbs it, or the open candle is
    completed as it stands, because the tick is of another period, and the
    tick opens the next one. *)
Lemma ingest_step (T : Z) (b : builder Q) (before period : list (Tick.t Q))
    (tick : Tick.t Q) :
  (0 < T)%Z ->
  (Z.abs (Tick.ts tick) <= Date_max)%Z ->
  building T b before period ->
  (completed (fst (ingest b tick)) = None /\
   building T (snd (ingest b tick)) before (period ++ [tick])) \/
  (exists c start,
     completed (fst (ingest b tick)) = Some c /\
     aggregates T start c period /\
     starts_run T before period /\
     period_start T tick <> start /\
     building T (snd (ingest b tick)) (before ++ period) [tick]).
Proof.
  intros HTpos Hvalid (HT & Hrun & Hcur). unfold ingest. rewrite HT.
  rewrite (getCandleStart_valid T (Tick.ts tick) HTpos Hvalid).
  fold (period_start T tick).
  destruct (currentCandle b) as [cur |].
  - destruct Hcur as (start & Hagg).
    pose proof Hagg as (first & recent & Hfirst & Hlast & _ & _ & _ & _ & _ & _
                        & Hstart & _ & Hsame & _).
    rewrite Hstart. cbn [time_differs].
    destruct (Z.eqb_spec start (period_start T tick)) as [Heq | Hne]; cbn [negb].
    + left. cbn [fst snd completed currentCandle timeframeMs].
      split; [reflexivity |]. split; [reflexivity |]. split.
      * intros prev first' Hprev Hhead. apply (Hrun prev first' Hprev).
        destruct period; [discriminate Hfirst | exact Hhead].
      * exists start. apply aggregates_update; [exact Hagg | symmetry; exact Heq].
    + right. exists cur, start. cbn [fst snd completed currentCandle timeframeMs].
      split; [reflexivity |]. split; [exact Hagg |]. split; [exact Hrun |].
      split; [congruence |]. split; [reflexivity |]. split.
      * intros prev first' Hprev Hhead. cbn [head] in Hhead. injection Hhead as <-.
        rewrite last_app, Hlast in Hprev. injection Hprev as <-.
        rewrite Forall_forall in Hsame.
        rewrite (Hsame recent); [congruence |].
        apply last_Some_elem_of. exact Hlast.
      * exists (period_start T tick). apply aggregates_new.
  - destruct Hcur as [-> ->]. left.
    cbn [fst snd completed currentCandle timeframeMs app].
    split; [reflexivity |]. split; [reflexivity |]. split.
    + intros prev first' Hprev. discriminate Hprev.
    + exists (period_start T tick). apply aggregates_new.
Qed.

Lemma ingest_all_completed (T : Z) (ticks : list (Tick.t Q)) :
  forall (b : builder Q) (before period : list (Tick.t Q)) (i : nat)
         (r : result Q) (c : Candle.t Q),
    (0 < T)%Z ->
    Forall (fun t => (Z.abs (Tick.ts t) <= Date_max)%Z) ticks ->
    building T b before period ->
    ingest_all b ticks !! i = Some r ->
    completed r = Some c ->
    exists (before' period' : list (Tick.t Q)) (next : Tick.t Q) (start : Z),
      before ++ period ++ take i ticks = before' ++ period' /\
      ticks !! i = Some next /\
      aggregates T start c period' /\
      starts_run T before' period' /\
      period_start T next <> start.
Proof.
  induction ticks as [| tick rest IH]; intros b before period i r c HT Hvalid Hb Hi Hc.
  - simpl in Hi. rewrite lookup_nil in Hi. discriminate Hi.
  - apply Forall_cons in Hvalid. destruct Hvalid as [Htick Hrest].
    simpl in Hi. pose proof (ingest_step T b before period tick HT Htick Hb) as Hstep.
    destruct (ingest b tick) as [r0 b'] eqn:Hing. simpl in Hstep.
    destruct i as [| i]; simpl in Hi.
    + injection Hi as ->. rewrite Hc in Hstep.
      destruct Hstep as [[Hnone _] | (c' & start & Hsome & Hagg & Hrun & Hnext & _)];
        [discriminate Hnone |].
      injection Hsome as <-. exists before, period, tick, start. simpl.
      rewrite app_nil_r. repeat apply conj; try reflexivity; assumption.
    + destruct Hstep as [[_ Hb'] | (c' & start' & _ & _ & _ & _ & Hb')].
      * destruct (IH b' before (period ++ [tick]) i r c HT Hrest Hb' Hi Hc)
          as (before' & period' & next & start & Heq & Hnext & Hrestc).
        exists before', period', next, start. split; [| split; [exact Hnext | exact Hrestc]].
        rewrite <- Heq. simpl. rewrite <- app_assoc. reflexivity.
      * destruct (IH b' (before ++ period) [tick] i r c HT Hrest Hb' Hi Hc)
          as (before' & period' & next & start & Heq & Hnext & Hrestc).
        exists before', period', next, start. split; [| split; [exact Hnext | exact Hrestc]].
        rewrite <- Heq. simpl. rewrite <- app_assoc. reflexivity.
Qed.

Lemma filter_all {A : Type} (P : A -> Prop) `{forall x, Decision (P x)} (l : list A) :
  Forall P l -> filter P l = l.
Proof.
  induction 1 as [| x l Hx _ IH]; [reflexivity |].
  rewrite filter_cons_True by exact Hx. rewrite IH. reflexivity.
Qed.

Lemma filter_none {A : Type} (P : A -> Prop) `{forall x, Decision (P x)} (l : list A) :
  Forall (fun x => ~ P x) l -> filter P l = [].
Proof.
  induction 1 as [| x l Hx _ IH]; [reflexivity |].
  rewrite filter_cons_False by exact Hx. exact IH.
Qed.

(** When the ticks arrive in the order of their timestamps, a run that is
    closed on both sides holds every tick of its period. *)
Lemma run_is_whole_period (T start : Z) (before period rest : list (Tick.t Q))
    (next : Tick.t Q) :
  (0 < T)%Z ->
  in_time_order (before ++ period ++ next :: rest) ->
  period <> [] ->
  Forall (fun t => period_start T t = start) period ->
  starts_run T before period ->
  period_start T next <> start ->
  filter (fun t => period_start T t = start) (before ++ period ++ next :: rest) = period.
Proof.
  intros HT Hsorted Hnonempty Hsame Hrun Hnext.
  unfold in_time_order in Hsorted.
  destruct period as [| first period']; [contradiction |].
  assert (period_start T first = start) as Hfirst by (inversion Hsame; assumption).
  destruct (last (first :: period')) as [recent |] eqn:Hlast;
    [| apply last_None in Hlast; discriminate Hlast].
  assert (period_start T recent = start) as Hrecent.
  { rewrite Forall_forall in Hsame. apply Hsame. apply last_Some_elem_of. exact Hlast. }
  rewrite !filter_app.
  rewrite (filter_all _ (first :: period') Hsame).
  rewrite (filter_none _ before), (filter_none _ (next :: rest));
    [rewrite app_nil_r; reflexivity | |].
  - (* the ticks after the run *)
    assert (start < period_start T next)%Z as Hlater.
    { assert (Tick.ts recent <= Tick.ts next)%Z as Hle.
      { rewrite app_assoc in Hsorted.
        apply (StronglySorted_app_1_elem_of _ _ _ recent next Hsorted).
        - apply elem_of_app. right. apply last_Some_elem_of. exact Hlast.
        - left. }
      pose proof (period_start_mono T recent next HT Hle). lia. }
    assert (StronglySorted (fun a b => (Tick.ts a <= Tick.ts b)%Z) (next :: rest)) as Htail.
    { rewrite app_assoc in Hsorted. eapply StronglySorted_app_1_r. exact Hsorted. }
    apply StronglySorted_inv in Htail. destruct Htail as [_ Hafter].
    constructor; [lia |].
    eapply Forall_impl; [exact Hafter |]. intros x Hx. simpl in Hx.
    pose proof (period_start_mono T next x HT Hx). lia.
  - (* the ticks before the run *)
    destruct (last before) as [prev |] eqn:Hprev;
      [| apply last_None in Hprev; subst before; constructor].
    assert (period_start T prev < start)%Z as Hearlier.
    { assert (Tick.ts prev <= Tick.ts first)%Z as Hle.
      { apply (StronglySorted_app_1_elem_of _ _ _ prev first Hsorted).
        - apply last_Some_elem_of. exact Hprev.
        - apply elem_of_app. left. left. }
      pose proof (period_start_mono T prev first HT Hle).
      pose proof (Hrun prev first Hprev eq_refl). lia. }
    apply last_Some in Hprev. destruct Hprev as [earlier ->].
    assert (StronglySorted (fun a b => (Tick.ts a <= Tick.ts b)%Z) (earlier ++ [prev]))
      as Hhead by (eapply StronglySorted_app_1_l; exact Hsorted).
    apply Forall_app. split; [| repeat constructor; lia].
    apply Forall_forall. intros x Hx.
    assert (Tick.ts x <= Tick.ts prev)%Z as Hle
      by (apply (StronglySorted_app_1_elem_of _ _ _ x prev Hhead Hx); left).
    pose proof (period_start_mono T x prev HT Hle). lia.
Qed.

(** C6, amended: a candle that the builder completes, for ticks with valid
    dates, is the aggregate of a run of consecutive ticks [period]: the
    ticks fed since the last tick of another period, up to the tick [next]
    of another period that completed it.  Its open is the price of the first
    tick of the run and its close that of the last, its high and low are the
    greatest and the least price of the run, it counts the ticks of the run,
    it starts at [ts - ts % T] for every tick of the run, which is
    [floor(ts / T) * T] for the ticks whose timestamp is not negative, and it
    ends [T] later (an invalid date beyond the range of a [Date]).  When the
    ticks arrive in the order of their timestamps, the run is all the ticks
    of the period. *)
Theorem C6_completed_candle
    (candleBuilders : gmap string (builder Q)) (symbol timeframe : string)
    (T : Z) (ticks : list (Tick.t Q)) (i : nat) (r : result Q) (c : Candle.t Q) :
  candleBuilders !! (symbol +:+ "_" +:+ timeframe) = None ->
  getTimeframeMs timeframe = Timeframes.Ms T ->
  Forall (fun t => (Z.abs (Tick.ts t) <= Date_max)%Z) ticks ->
  feed candleBuilders symbol timeframe ticks !! i = Some r ->
  completed r = Some c ->
  exists (before period : list (Tick.t Q)) (next : Tick.t Q) (start : Z),
    take i ticks = before ++ period /\
    ticks !! i = Some next /\
    aggregates T start c period /\
    starts_run T before period /\
    period_start T next <> start /\
    (Candle.low c <= Candle.open c /\ Candle.open c <= Candle.high c) /\
    (Candle.low c <= Candle.close c /\ Candle.close c <= Candle.high c) /\
    ((start + T <= Date_max)%Z -> Candle.ts_close c = DateOf (start + T)) /\
    Forall (fun t => (0 <= Tick.ts t)%Z -> start = (Tick.ts t / T * T)%Z) period /\
    (in_time_order ticks ->
     period = filter (fun t => period_start T t = start) ticks).
Proof.
  intros Hfresh HT Hvalid Hi Hc.
  pose proof (getTimeframeMs_positive timeframe T HT) as HTpos.
  rewrite feed_ingest_all in Hi.
  assert (building T (builder_of candleBuilders symbol timeframe) [] []) as Hb.
  { unfold builder_of. rewrite Hfresh. split; [exact HT |]. split.
    - intros prev first Hprev. discriminate Hprev.
    - split; reflexivity. }
  destruct (ingest_all_completed T ticks _ [] [] i r c HTpos Hvalid Hb Hi Hc)
    as (before & period & next & start & Heq & Hnext & Hagg & Hrun & Hother).
  simpl in Heq.
  exists before, period, next, start.
  pose proof Hagg as (first & recent & Hfirst & Hlast & Hopen & Hclose & Hhigh & Hlow
                      & _ & _ & Hstart & Hend & Hsame & _).
  assert (first ∈ period) as Hfirst_in.
  { destruct period; [discriminate Hfirst |]. injection Hfirst as ->. left. }
  assert (recent ∈ period) as Hrecent_in by (apply last_Some_elem_of; exact Hlast).
  pose proof Hhigh as Hhigh'. pose proof Hlow as Hlow'.
  rewrite Forall_forall in Hhigh', Hlow'.
  assert (Z.abs start <= Date_max)%Z as Hstart_valid.
  { rewrite Forall_forall in Hsame, Hvalid.
    rewrite <- (Hsame first Hfirst_in).
    assert (first ∈ ticks) as Hin.
    { rewrite <- (take_drop i ticks), Heq. apply elem_of_app. left.
      apply elem_of_app. right. exact Hfirst_in. }
    pose proof (getCandleStart_valid T (Tick.ts first) HTpos (Hvalid first Hin)) as Hcs.
    unfold getCandleStart in Hcs.
    destruct (Z.eqb_spec T 0) as [-> | _]; [lia |].
    unfold new_Date, period_start in *.
    destruct (Z.leb_spec (Z.abs (Tick.ts first - Z.rem (Tick.ts first) T)) Date_max);
      [assumption | discriminate Hcs]. }
  repeat apply conj; try assumption.
  - rewrite Hopen. apply Hlow'. exact Hfirst_in.
  - rewrite Hopen. apply Hhigh'. exact Hfirst_in.
  - rewrite Hclose. apply Hlow'. exact Hrecent_in.
  - rewrite Hclose. apply Hhigh'. exact Hrecent_in.
  - intros Hin. rewrite Hend. apply new_Date_in_range. lia.
  - eapply Forall_impl; [exact Hsame |]. intros t Ht Hts. simpl in Ht.
    rewrite <- Ht. unfold period_start. apply candle_start_floor; assumption.
  - intros Hsorted.
    pose proof (take_drop_middle ticks i next Hnext) as Hsplit.
    rewrite Heq, <- app_assoc in Hsplit.
    rewrite <- Hsplit.
    symmetry. apply run_is_whole_period; try assumption.
    + rewrite Hsplit. exact Hsorted.
    + intros ->. discriminate Hfirst.
Qed.

Lemma C6_completed_candle_witness :
  (∅ : gmap string (builder Q)) !! ("EURUSD" +:+ "_" +:+ "1m") = None /\
  getTimeframeMs "1m" = Timeframes.Ms 60000 /\
  exists (r : result Q) (c : Candle.t Q) (before period : list (Tick.t Q)) (start : Z),
    feed ∅ "EURUSD" "1m"
      [ Tick.mk "EURUSD" 1700000000000 (217 # 200);
        Tick.mk "EURUSD" 1700000030000 (109 # 100);
        Tick.mk "EURUSD" 1700000040000 (108 # 100) ] !! 2%nat = Some r /\
    completed r = Some c /\
    [ Tick.mk "EURUSD" 1700000000000 (217 # 200);
      Tick.mk "EURUSD" 1700000030000 (109 # 100) ] = before ++ period /\
    aggregates 60000 start c period /\
    starts_run 60000 before period.
Proof.
  assert ((∅ : gmap string (builder Q)) !! ("EURUSD" +:+ "_" +:+ "1m") = None) as Hfresh
    by reflexivity.
  assert (getTimeframeMs "1m" = Timeframes.Ms 60000) as HT by reflexivity.
  assert (Forall (fun t : Tick.t Q => (Z.abs (Tick.ts t) <= Date_max)%Z)
            [ Tick.mk "EURUSD" 1700000000000 (217 # 200);
              Tick.mk "EURUSD" 1700000030000 (109 # 100);
              Tick.mk "EURUSD" 1700000040000 (108 # 100) ]) as Hvalid
    by (repeat constructor; vm_compute; discriminate).
  split; [exact Hfresh |]. split; [exact HT |].
  destruct (feed ∅ "EURUSD" "1m"
              [ Tick.mk "EURUSD" 1700000000000 (217 # 200);
                Tick.mk "EURUSD" 1700000030000 (109 # 100);
                Tick.mk "EURUSD" 1700000040000 (108 # 100) ] !! 2%nat)
    as [r |] eqn:Hr; [| vm_compute in Hr; discriminate Hr].
  destruct (completed r) as [c |] eqn:Hc.
  - destruct (C6_completed_candle ∅ "EURUSD" "1m" 60000 _ 2%nat r c
                Hfresh HT Hvalid Hr Hc)
      as (before & period & next & start & Heq & _ & Hagg & Hrun & _).
    exists r, c, before, period, start. repeat split; assumption.
  - exfalso. vm_compute in Hr. injection Hr as <-. discriminate Hc.
Defined.

(** C6, as specified, fails on a tick before 1970: [%] takes the sign of the
    timestamp, so the candle of the tick at -1 ms starts at 0, not at
    [floor(-1 / 60000) * 60000 = -60000]. *)
Lemma C6_period_start_truncates :
  (exists r c,
     feed ∅ "EURUSD" "1m" ticks_before_epoch !! 1%nat = Some r /\
     completed r = Some c /\
     Candle.ts_open c = DateOf 0 /\ Candle.ts_close c = DateOf 60000) /\
  ~ candle_invariant_as_specified.
Proof.
  split.
  - eexists. eexists. split; [vm_compute; reflexivity |].
    split; [reflexivity |]. split; reflexivity.
  - intros Hspec.
    assert ((∅ : gmap string (builder Q)) !! ("EURUSD" +:+ "_" +:+ "1m") = None)
      as Hfresh by reflexivity.
    assert (getTimeframeMs "1m" = Timeframes.Ms 60000) as HT by reflexivity.
    destruct (feed ∅ "EURUSD" "1m" ticks_before_epoch !! 1%nat) as [r |] eqn:Hr;
      [| vm_compute in Hr; discriminate Hr].
    destruct (completed r) as [c |] eqn:Hc;
      [| vm_compute in Hr; injection Hr as <-; discriminate Hc].
    destruct (Hspec ∅ "EURUSD" "1m" 60000%Z ticks_before_epoch 1%nat r c
                    Hfresh HT Hr Hc)
      as (before & period & Heq & Hsum & Hfloor).
    vm_compute in Hr. injection Hr as <-. simpl in Hc. injection Hc as <-.
    destruct Hsum as (first & recent & later & earlier & start & Hfirst & _).
    subst period. simpl in Heq.
    destruct before as [| t0 before].
    + simpl in Heq. injection Heq as <- <-.
      inversion Hfloor as [| ? ? Hhead _]; subst.
      vm_compute in Hhead. discriminate Hhead.
    + destruct before; simpl in Heq; discriminate Heq.
Qed.

End CandleTheorems.


(** ** Indicators on price streams *)

Section ObserveUpdates.
Import IndicatorSpec.
Context {S : Type} `{Indicator S}.

Lemma observe_updates_cons (s : S) (x : Input) (rest : list Input) :
  observe s (updates (x :: rest))
  = fst (update s x) :: observe (snd (update s x)) (updates rest).
Proof. reflexivity. Qed.

Lemma observe_updates_length (inputs : list Input) :
  forall s : S, length (observe s (updates inputs)) = length inputs.
Proof.
  induction inputs as [| x rest IH]; intros s; [reflexivity |].
  rewrite observe_updates_cons. simpl length. rewrite IH. reflexivity.
Qed.

End ObserveUpdates.

Section IndicatorStreams.
Import IndicatorSpec.
Local Open Scope Q_scope.

Lemma rsi_first_update (P : Z) (s : RSI.state Q) (p : Q) :
  (1 <= P)%Z ->
  RSI.period s = inject_Z P -> RSI.lastPrice s = None ->
  RSI.gains s = [] -> RSI.losses s = [] ->
  fst (RSI.update s p) = None /\ RSISpec.inv P (snd (RSI.update s p)) 0 p.
Proof.
  intros HP Hper Hlast Hg Hl. unfold RSI.update. rewrite Hlast. simpl.
  split; [reflexivity |].
  constructor; simpl; try assumption; try (rewrite ?Hg, ?Hl; reflexivity);
    try (rewrite ?Hg, ?Hl; constructor); lia.
Qed.

Lemma rsi_reachable_new (P : Z) : rsi_reachable P (RSI.new (Some (inject_Z P))).
Proof. left. repeat split; reflexivity. Qed.

Lemma rsi_reachable_update (P : Z) (s : RSI.state Q) (p : Q) :
  (1 <= P)%Z -> rsi_reachable P s -> rsi_reachable P (snd (RSI.update s p)).
Proof.
  intros HP [(Hper & Hlast & Hg & Hl) | (n & lp & Hinv)].
  - right. exists 0%nat, p. apply rsi_first_update; assumption.
  - right. destruct (rsi_update_step P s n lp p HP Hinv) as (Hnone & Hsome & _).
    destruct (Z.ltb_spec (Z.of_nat n + 1) P) as [Hlt | Hge].
    + exists (S n), p. apply Hnone. exact Hlt.
    + exists (Z.to_nat P), lp. apply Hsome. exact Hge.
Qed.

Lemma rsi_reachable_output (P : Z) (s : RSI.state Q) (p : Q) :
  (1 <= P)%Z -> rsi_reachable P s ->
  match fst (RSI.update s p) with
  | Some v => 0 <= v <= 100
  | None => True
  end.
Proof.
  intros HP [(Hper & Hlast & Hg & Hl) | (n & lp & Hinv)].
  - rewrite (proj1 (rsi_first_update P s p HP Hper Hlast Hg Hl)). exact I.
  - destruct (rsi_update_step P s n lp p HP Hinv) as (Hnone & Hsome & _).
    destruct (Z.ltb_spec (Z.of_nat n + 1) P) as [Hlt | Hge].
    + rewrite (proj1 (Hnone Hlt)). exact I.
    + destruct (proj1 (Hsome Hge)) as (v & -> & Hv). exact Hv.
Qed.

Lemma rsi_exec_cons (s : RSI.state Q) (p : Q) (rest : list Q) :
  exec s (updates (p :: rest)) = exec (snd (RSI.update s p)) (updates rest).
Proof. reflexivity. Qed.

Lemma rsi_exec_inv (P : Z) (l : list Q) :
  (1 <= P)%Z ->
  forall (s : RSI.state Q) (n : nat) (lp : Q),
    RSISpec.inv P s n lp ->
    RSISpec.inv P (exec s (updates l))
                (Nat.min (n + length l) (Z.to_nat P))
                (default lp (last (take (Z.to_nat P - 1 - n) l))).
Proof.
  intros HP. induction l as [| p rest IH]; intros s n lp Hinv.
  - simpl. pose proof (RSISpec.inv_bound _ _ _ _ Hinv) as Hb.
    replace (Nat.min (n + 0) (Z.to_nat P)) with n by lia.
    rewrite take_nil. exact Hinv.
  - rewrite rsi_exec_cons.
    destruct (rsi_update_step P s n lp p HP Hinv) as (Hnone & Hsome & _).
    pose proof (RSISpec.inv_bound _ _ _ _ Hinv) as Hb.
    destruct (Z.ltb_spec (Z.of_nat n + 1) P) as [Hlt | Hge].
    + destruct (Hnone Hlt) as [_ Hinv'].
      specialize (IH _ _ _ Hinv'). simpl length.
      replace (Z.to_nat P - 1 - n)%nat with (S (Z.to_nat P - 1 - S n)) by lia.
      simpl take. rewrite last_cons.
      replace (n + S (length rest))%nat with (S n + length rest)%nat by lia.
      destruct (last (take (Z.to_nat P - 1 - S n) rest)); exact IH.
    + destruct (Hsome Hge) as [_ Hinv'].
      specialize (IH _ _ _ Hinv'). simpl length.
      replace (Z.to_nat P - 1 - n)%nat with 0%nat by lia.
      replace (Z.to_nat P - 1 - Z.to_nat P)%nat with 0%nat in IH by lia.
      rewrite take_0 in *. simpl in *.
      replace (Nat.min (n + S (length rest)) (Z.to_nat P)) with (Z.to_nat P) by lia.
      replace (Nat.min (Z.to_nat P + length rest) (Z.to_nat P)) with (Z.to_nat P)
        in IH by lia.
      exact IH.
Qed.

(** An RSI of period [P] stops advancing its reference price once its
    window is full: after any number of updates the remembered price is the
    last of the first [P] prices, so later changes are measured from the
    [P]-th price and not from the previous one.  The window holds one entry
    per price after the first, up to [P]. *)
Theorem RSI_reference_price_frozen (P : Z) (prices : list Q) :
  (1 <= P)%Z ->
  let s := exec (RSI.new (Some (inject_Z P))) (updates prices) in
  RSI.lastPrice s = last (take (Z.to_nat P) prices) /\
  length (RSI.gains s) = Nat.min (length prices - 1) (Z.to_nat P) /\
  length (RSI.losses s) = Nat.min (length prices - 1) (Z.to_nat P).
Proof.
  intros HP s. subst s. destruct prices as [| p rest].
  - simpl. rewrite take_nil. repeat split; reflexivity.
  - rewrite rsi_exec_cons.
    destruct (rsi_first_update P (RSI.new (Some (inject_Z P))) p HP
                eq_refl eq_refl eq_refl eq_refl) as [_ Hinv].
    pose proof (rsi_exec_inv P rest HP _ _ _ Hinv) as [_ Hlast Hg Hl _ _ _].
    rewrite Hlast, Hg, Hl. simpl length.
    destruct (Z.to_nat P) as [| k] eqn:Hk; [lia |].
    replace (S k - 1 - 0)%nat with k by lia.
    replace (S (length rest) - 1)%nat with (length rest) by lia.
    simpl take. rewrite last_cons.
    split; [| split; reflexivity].
    destruct (last (take k rest)); reflexivity.
Qed.

Lemma RSI_reference_price_frozen_witness :
  (1 <= 2)%Z /\
  RSI.lastPrice (exec (RSI.new (Some (inject_Z 2))) (updates [10; 11; 15; 9])) = Some 11.
Proof.
  assert (1 <= 2)%Z as HP by lia.
  split; [exact HP |].
  exact (proj1 (RSI_reference_price_frozen 2 [10; 11; 15; 9] HP)).
Defined.


Lemma rsi_update_returns_value (s : RSI.state Q) (p v : Q) :
  fst (RSI.update s p) = Some v -> v = RSI.value (snd (RSI.update s p)).
Proof.
  unfold RSI.update. destruct (RSI.lastPrice s); [| discriminate].
  match goal with |- context [if ?b then (Some _, _) else _] => destruct b end;
    simpl; [| discriminate].
  intros Heq. injection Heq as <-. reflexivity.
Qed.

Lemma rsi_getValue_after_update (P : Z) (s : RSI.state Q) (p : Q) :
  (1 <= P)%Z -> rsi_reachable P s ->
  RSI.getValue (snd (RSI.update s p)) = fst (RSI.update s p).
Proof.
  intros HP Hreach.
  assert (forall (s' : RSI.state Q) (n : nat) (lp : Q),
            RSISpec.inv P s' n lp ->
            RSI.getValue s' = if (Z.of_nat n <? P)%Z then None else Some (RSI.value s'))
    as Hget.
  { intros s' n lp [Hper _ Hg _ _ _ _]. unfold RSI.getValue, len.
    rewrite Hper, Hg. simpl lt. simpl of_Z. rewrite Qlt_bool_inject_Z. reflexivity. }
  destruct Hreach as [(Hper & Hlast & Hg & Hl) | (n & lp & Hinv)].
  - destruct (rsi_first_update P s p HP Hper Hlast Hg Hl) as [-> Hinv].
    rewrite (Hget _ _ _ Hinv). destruct (Z.ltb_spec (Z.of_nat 0) P); [reflexivity | lia].
  - destruct (rsi_update_step P s n lp p HP Hinv) as (Hnone & Hsome & _).
    destruct (Z.ltb_spec (Z.of_nat n + 1) P) as [Hlt | Hge].
    + destruct (Hnone Hlt) as [-> Hinv']. rewrite (Hget _ _ _ Hinv').
      destruct (Z.ltb_spec (Z.of_nat (S n)) P); [reflexivity | lia].
    + destruct (Hsome Hge) as [(v & Hv & _) Hinv']. rewrite (Hget _ _ _ Hinv').
      destruct (Z.ltb_spec (Z.of_nat (Z.to_nat P)) P); [lia |].
      rewrite Hv. f_equal. symmetry. apply rsi_update_returns_value. exact Hv.
Qed.

Lemma rsi_last_output (P : Z) (l : list Q) :
  (1 <= P)%Z ->
  forall (s : RSI.state Q) (p : Q),
    rsi_reachable P s ->
    last (RSI.run s (p :: l)) = Some (RSI.getValue (num := Q) (exec s (updates (p :: l)))).
Proof.
  intros HP. induction l as [| q rest IH]; intros s p Hreach.
  - rewrite rsi_exec_cons. simpl.
    destruct (RSI.update s p) as [out s'] eqn:Hupd. simpl.
    pose proof (rsi_getValue_after_update P s p HP Hreach) as Hget.
    rewrite Hupd in Hget. simpl in Hget. rewrite Hget. reflexivity.
  - rewrite rsi_exec_cons.
    pose proof (rsi_reachable_update P s p HP Hreach) as Hreach'.
    specialize (IH _ q Hreach').
    change (RSI.run s (p :: q :: rest))
      with (let '(v, this') := RSI.update s p in v :: RSI.run this' (q :: rest)).
    destruct (RSI.update s p) as [out s'] eqn:Hupd. simpl snd in *.
    rewrite last_cons, IH. reflexivity.
Qed.

(** [getValue] of an RSI agrees with its [update]: at any time it returns
    what the most recent [update] returned (null before any update and
    while the window is filling). *)
Theorem RSI_getValue_is_last_update (P : Z) (prices : list Q) :
  (1 <= P)%Z ->
  RSI.getValue (num := Q) (exec (RSI.new (Some (inject_Z P))) (updates prices))
  = match last (RSI.run (RSI.new (Some (inject_Z P))) prices) with
    | Some out => out
    | None => None
    end.
Proof.
  intros HP. destruct prices as [| p rest].
  - simpl. unfold RSI.getValue, len. simpl. rewrite Qlt_bool_inject_Z.
    destruct (Z.ltb_spec (Z.of_nat 0) P); [reflexivity | lia].
  - rewrite (rsi_last_output P rest HP _ p (rsi_reachable_new P)). reflexivity.
Qed.

Lemma RSI_getValue_is_last_update_witness :
  (1 <= 2)%Z /\
  RSI.getValue (num := Q) (exec (RSI.new (Some (inject_Z 2))) (updates [10; 11; 15; 9]))
  = match last (RSI.run (RSI.new (Some (inject_Z 2))) [10; 11; 15; 9]) with
    | Some out => out
    | None => None
    end.
Proof.
  assert (1 <= 2)%Z as HP by lia.
  split; [exact HP |].
  exact (RSI_getValue_is_last_update 2 [10; 11; 15; 9] HP).
Defined.


(** *** ATR *)

Lemma true_range_nonneg (a b c : Q) : 0 <= Math_max (Math_max a (Qabs b)) (Qabs c).
Proof.
  eapply Qle_trans; [apply Qabs_nonneg | apply Math_max_upper].
Qed.

Lemma atr_update_step (P : Z) (s : ATR.state Q) (candle : Candle.t Q) :
  (1 <= P)%Z ->
  ATR.period s = inject_Z P ->
  Forall (fun x => 0 <= x) (ATR.trueRanges s) ->
  (length (ATR.trueRanges s) <= Z.to_nat P)%nat ->
  let s' := snd (ATR.update s candle) in
  ATR.period s' = inject_Z P /\
  Forall (fun x => 0 <= x) (ATR.trueRanges s') /\
  (length (ATR.trueRanges s') <= Z.to_nat P)%nat /\
  ATR.lastCandle s' = Some candle /\
  match ATR.lastCandle s with
  | None => ATR.trueRanges s' = ATR.trueRanges s
  | Some _ =>
      length (ATR.trueRanges s')
      = Nat.min (S (length (ATR.trueRanges s))) (Z.to_nat P)
  end.
Proof.
  intros HP Hper Hnn Hlen. unfold ATR.update. cbv zeta. cbn [fst snd].
  destruct (ATR.lastCandle s) as [last |].
  - set (tr := Math_max (num := Q) _ _).
    assert (0 <= tr) as Htr by apply true_range_nonneg.
    assert (Forall (fun x => 0 <= x) (ATR.trueRanges s ++ [tr])) as Hpushed
      by (apply Forall_app; split; [exact Hnn | repeat constructor; exact Htr]).
    unfold gt, len. rewrite Hper. simpl lt. simpl of_Z. rewrite Qlt_bool_inject_Z.
    rewrite length_app. simpl length.
    destruct (Z.ltb_spec P (Z.of_nat (length (ATR.trueRanges s) + 1))) as [Hover | Hfit].
    + cbn [ATR.period ATR.trueRanges ATR.lastCandle].
      split; [reflexivity |]. split; [apply Forall_shift; exact Hpushed |].
      rewrite length_shift_snoc. split; [exact Hlen |]. split; [reflexivity | lia].
    + cbn [ATR.period ATR.trueRanges ATR.lastCandle].
      split; [reflexivity |]. split; [exact Hpushed |].
      rewrite length_app. simpl length. split; [lia |]. split; [reflexivity | lia].
  - cbn [ATR.period ATR.trueRanges ATR.lastCandle]. repeat split; assumption.
Qed.

Lemma atr_getValue (s : ATR.state Q) :
  Forall (fun x => 0 <= x) (ATR.trueRanges s) ->
  match ATR.getValue s with
  | Some v => 0 <= v /\ ATR.trueRanges s <> []
  | None => ATR.trueRanges s = []
  end.
Proof.
  intros Hnn. unfold ATR.getValue, len. simpl strict_eq. simpl of_Z.
  rewrite Qeq_bool_inject_Z.
  destruct (ATR.trueRanges s) as [| x l] eqn:Hr; [reflexivity |].
  simpl length. destruct (Z.eqb_spec (Z.of_nat (S (length l))) 0) as [Heq | _]; [lia |].
  split; [| discriminate].
  apply Qdiv_nonneg; [apply sum_nonneg; exact Hnn |].
  change 0 with (inject_Z 0). rewrite <- Zlt_Qlt. lia.
Qed.

Lemma atr_observe (P : Z) (candles : list (Candle.t Q)) :
  (1 <= P)%Z ->
  forall s : ATR.state Q,
    ATR.period s = inject_Z P ->
    Forall (fun x => 0 <= x) (ATR.trueRanges s) ->
    (length (ATR.trueRanges s) <= Z.to_nat P)%nat ->
    ATR.lastCandle s <> None ->
    Forall (fun o => exists v, o = Some v /\ 0 <= v) (observe s (updates candles)).
Proof.
  intros HP. induction candles as [| candle rest IH]; intros s Hper Hnn Hlen Hlast.
  - constructor.
  - destruct (atr_update_step P s candle HP Hper Hnn Hlen)
      as (Hper' & Hnn' & Hlen' & Hlast' & Hgrow).
    unfold updates in *. cbn [map observe].
    cbv beta iota delta [update Indicator_ATR].
    constructor.
    + change (fst (ATR.update s candle)) with (ATR.getValue (snd (ATR.update s candle))).
      pose proof (atr_getValue _ Hnn') as Hval.
      destruct (ATR.lastCandle s) as [last |]; [| contradiction].
      destruct (ATR.getValue (snd (ATR.update s candle))) as [v |].
      * exists v. split; [reflexivity | apply Hval].
      * rewrite Hval in Hgrow. cbn [length] in Hgrow. lia.
    + apply IH; [exact Hper' | exact Hnn' | exact Hlen' |].
      intros Hnone.
      assert (Some candle = None) as Habs by (rewrite <- Hlast'; exact Hnone).
      discriminate Habs.
Qed.

(** An ATR of period [P >= 1] returns null for the first candle (there is
    no previous close yet) and, from the second candle on, a value that is
    never negative, whatever the candles hold. *)
Theorem ATR_defined_from_second_candle (P : Z) (first : Candle.t Q)
    (others : list (Candle.t Q)) :
  (1 <= P)%Z ->
  exists later,
    observe (ATR.new (Some (inject_Z P))) (updates (first :: others)) = None :: later /\
    length later = length others /\
    Forall (fun o => exists v, o = Some v /\ 0 <= v) later.
Proof.
  intros HP.
  destruct (atr_update_step P (ATR.new (Some (inject_Z P))) first HP eq_refl
              ltac:(constructor) ltac:(simpl; lia))
    as (Hper' & Hnn' & Hlen' & Hlast' & _).
  eexists. split; [reflexivity |]. split.
  - exact (observe_updates_length (S := ATR.state Q) others _).
  - refine (atr_observe P others HP _ Hper' Hnn' Hlen' _).
    intros Hnone.
    assert (Some first = None) as Habs by (rewrite <- Hlast'; exact Hnone).
    discriminate Habs.
Qed.

Lemma ATR_defined_from_second_candle_witness :
  (1 <= 14)%Z /\
  exists later,
    observe (ATR.new (Some (inject_Z 14)))
            (updates [ Candle.mk "EURUSD" "1m" 10 12 9 11 (DateOf 0) (DateOf 60000) 3 3;
                       Candle.mk "EURUSD" "1m" 11 15 11 14 (DateOf 60000) (DateOf 120000)
                                 2 2 ])
    = None :: later /\
    Forall (fun o => exists v, o = Some v /\ 0 <= v) later.
Proof.
  assert (1 <= 14)%Z as HP by lia.
  split; [exact HP |].
  destruct (ATR_defined_from_second_candle 14
              (Candle.mk "EURUSD" "1m" 10 12 9 11 (DateOf 0) (DateOf 60000) 3 3)
              [Candle.mk "EURUSD" "1m" 11 15 11 14 (DateOf 60000) (DateOf 120000) 2 2]
              HP) as (later & Heq & _ & Hnn).
  exists later. split; [exact Heq | exact Hnn].
Defined.

End IndicatorStreams.


(** ** Signals of the strategies *)

Section CrossSignals.
Import CrossSpec.
Context {num : Type} `{Number num}.

Lemma side_of_injective (a b : Signal.Crossover) : side_of a = side_of b -> a = b.
Proof. destruct a, b; simpl; intros Heq; congruence. Qed.

Lemma cross_feed_alternating (symbol : string) (prices : list num) :
  forall this : EMACrossStrategy.state num,
    alternating (emitted_sides (EMACrossStrategy.feed this symbol prices)) /\
    (forall c, EMACrossStrategy.lastCrossover this = Some c ->
       match emitted_sides (EMACrossStrategy.feed this symbol prices) with
       | a :: _ => a <> side_of c
       | [] => True
       end).
Proof.
  induction prices as [| p rest IH]; intros this.
  - split; [exact I | intros; exact I].
  - cbn [EMACrossStrategy.feed]. unfold EMACrossStrategy.evaluate.
    cbn [EMA.update fst snd Tick.price].
    set (fast := match EMA.ema (EMACrossStrategy.fastEMA this) with
                 | Some e => _ | None => p end).
    set (slow := match EMA.ema (EMACrossStrategy.slowEMA this) with
                 | Some e => _ | None => p end).
    set (cur := if gt fast slow then Signal.bullish else Signal.bearish).
    match goal with
    | |- context [EMACrossStrategy.mk ?f ?s (Some cur)] =>
        set (this' := EMACrossStrategy.mk f s (Some cur))
    end.
    destruct (IH this') as [IHalt IHhead].
    specialize (IHhead cur eq_refl).
    destruct (EMACrossStrategy.lastCrossover this) as [last |] eqn:Hlast.
    + destruct (decide (last <> cur)) as [Hne | Heq].
      * unfold emitted_sides in *. cbn [omap list_omap option_map Signal.side mbind].
        cbn [option_map Signal.side].
        match goal with
        | |- context [match cur with Signal.bullish => _ | Signal.bearish => _ end] =>
            change (match cur with
                    | Signal.bullish => Signal.long
                    | Signal.bearish => Signal.short
                    end) with (side_of cur)
        end.
        split.
        -- simpl. destruct (omap _ _) as [| b rest'] eqn:Hrest; [exact I |].
           split; [intros Heq; apply IHhead; symmetry; exact Heq | exact IHalt].
        -- intros c Hc. injection Hc as <-. simpl.
           intros Heq. apply Hne. symmetry. apply side_of_injective. exact Heq.
      * assert (last = cur) as Hsame
          by (destruct (decide (last = cur)); [assumption | contradiction]).
        rewrite Hsame in *.
        unfold emitted_sides in *. simpl omap.
        split; [exact IHalt |]. intros c Hc. injection Hc as <-. exact IHhead.
    + unfold emitted_sides in *. simpl omap.
      split; [exact IHalt | intros c Hc; discriminate Hc].
Qed.

(** The EMA crossover is edge-triggered: whatever the parameters and the
    prices, the first evaluation of a new strategy emits nothing, and no two
    signals in a row have the same side. *)
Theorem EMACross_signals_alternate (params : gmap string num) (symbol : string)
    (prices : list num) :
  alternating (emitted_sides
                 (EMACrossStrategy.feed (EMACrossStrategy.initializeIndicators params)
                                        symbol prices)) /\
  head (EMACrossStrategy.feed (EMACrossStrategy.initializeIndicators params)
                              symbol prices)
  = match prices with [] => None | _ :: _ => Some None end.
Proof.
  split.
  - apply cross_feed_alternating.
  - destruct prices as [| p rest]; reflexivity.
Qed.

End CrossSignals.

Section MeanReversion.
Import IndicatorSpec.
Local Open Scope Q_scope.

Lemma mean_reversion_feed_confidence (P : Z) (symbol : string) (prices : list Q) :
  (1 <= P)%Z ->
  forall this : RSIMeanReversionStrategy.state Q,
    rsi_reachable P (RSIMeanReversionStrategy.rsi this) ->
    0 < RSIMeanReversionStrategy.oversoldLevel this ->
    RSIMeanReversionStrategy.overboughtLevel this < 100 ->
    Forall (fun o => match o with
                     | Some sg => 0 <= Signal.confidence sg <= 1
                     | None => True
                     end)
           (rsi_strategy_feed this symbol prices).
Proof.
  intros HP. induction prices as [| p rest IH]; intros this Hreach Hos Hob.
  - constructor.
  - cbn [rsi_strategy_feed]. unfold RSIMeanReversionStrategy.evaluate.
    cbn [Tick.price].
    pose proof (rsi_reachable_output P _ p HP Hreach) as Hout.
    pose proof (rsi_reachable_update P _ p HP Hreach) as Hreach'.
    destruct (RSI.update (RSIMeanReversionStrategy.rsi this) p) as [out rsi'].
    cbn [fst snd] in Hout, Hreach'.
    pose proof (IH (RSIMeanReversionStrategy.mk rsi'
                      (RSIMeanReversionStrategy.oversoldLevel this)
                      (RSIMeanReversionStrategy.overboughtLevel this))
                   Hreach' Hos Hob) as Hrest.
    destruct out as [r |]; [| constructor; [exact I | exact Hrest]].
    destruct Hout as [Hr0 Hr100].
    unfold ge. cbn [le Number_Q].
    destruct (Qle_bool r (RSIMeanReversionStrategy.oversoldLevel this)) eqn:Elow.
    + apply Qle_bool_iff in Elow. constructor; [| exact Hrest].
      cbn [Signal.confidence sub div Number_Q]. split.
      * apply Qle_shift_div_l; [exact Hos | lra].
      * apply Qle_shift_div_r; [exact Hos | lra].
    + destruct (Qle_bool (RSIMeanReversionStrategy.overboughtLevel this) r) eqn:Ehigh.
      * apply Qle_bool_iff in Ehigh. constructor; [| exact Hrest].
        cbn [Signal.confidence sub div of_Z Number_Q].
        change (inject_Z 100) with 100.
        assert (0 < 100 - RSIMeanReversionStrategy.overboughtLevel this) as Hden by lra.
        split.
        -- apply Qle_shift_div_l; [exact Hden | lra].
        -- apply Qle_shift_div_r; [exact Hden | lra].
      * constructor; [exact I | exact Hrest].
Qed.

(** The RSI mean-reversion strategy scores within bounds: with an integer
    period of at least 1, an oversold level above 0 and an overbought level
    below 100 (the defaults 14, 30 and 70 among them), every signal it emits
    has a confidence between 0 and 1. *)
Theorem RSIMeanReversion_confidence_bounded (params : gmap string Q) (P : Z)
    (symbol : string) (prices : list Q) :
  (1 <= P)%Z ->
  param params "period" (of_Z 14) = inject_Z P ->
  0 < param params "oversoldLevel" (of_Z 30) ->
  param params "overboughtLevel" (of_Z 70) < 100 ->
  Forall (fun o => match o with
                   | Some sg => 0 <= Signal.confidence sg <= 1
                   | None => True
                   end)
         (rsi_strategy_feed (RSIMeanReversionStrategy.initializeIndicators params)
                            symbol prices).
Proof.
  intros HP Hper Hos Hob.
  apply (mean_reversion_feed_confidence P symbol prices HP); [| exact Hos | exact Hob].
  unfold RSIMeanReversionStrategy.initializeIndicators.
  cbn [RSIMeanReversionStrategy.rsi]. rewrite Hper. apply rsi_reachable_new.
Qed.

Lemma RSIMeanReversion_confidence_bounded_witness :
  (1 <= 14)%Z /\
  param (∅ : gmap string Q) "period" (of_Z 14) = inject_Z 14 /\
  0 < param (∅ : gmap string Q) "oversoldLevel" (of_Z 30) /\
  param (∅ : gmap string Q) "overboughtLevel" (of_Z 70) < 100 /\
  Forall (fun o => match o with
                   | Some sg => 0 <= Signal.confidence sg <= 1
                   | None => True
                   end)
         (rsi_strategy_feed (RSIMeanReversionStrategy.initializeIndicators ∅)
                            "EURUSD" [1; 2; 3]).
Proof.
  assert (1 <= 14)%Z as HP by lia.
  assert (param (∅ : gmap string Q) "period" (of_Z 14) = inject_Z 14) as Hper
    by reflexivity.
  assert (0 < param (∅ : gmap string Q) "oversoldLevel" (of_Z 30)) as Hos
    by reflexivity.
  assert (param (∅ : gmap string Q) "overboughtLevel" (of_Z 70) < 100) as Hob
    by reflexivity.
  split; [exact HP |]. split; [exact Hper |]. split; [exact Hos |]. split; [exact Hob |].
  exact (RSIMeanReversion_confidence_bounded ∅ 14 "EURUSD" [1; 2; 3] HP Hper Hos Hob).
Defined.

End MeanReversion.

(** ** Creating, loading and evaluating strategies *)

Section EngineBatch.
Import StrategyEngine EngineSpec.
Context {num S DB : Type} `{Strategy num S} `{Store num DB}.

Lemma contribution_size (tick : Tick.t num) (candle : option (Candle.t num))
    (r : ref) (w : world S DB) :
  (length (fst (contribution tick candle r w)) <= 1)%nat /\
  (length (console (snd (contribution tick candle r w))) <= 1 + length (console w))%nat.
Proof.
  unfold contribution, call_evaluate, persist_signal, log.
  destruct (evaluate (heap w r) tick candle) as [[[sg |] | e] s']; simpl;
    rewrite ?length_app; simpl; try lia.
  match goal with |- context [insert_signal ?row ?d] =>
    destruct (insert_signal row d) as [[resp | e] d'] end; simpl;
    rewrite ?length_app; simpl; try lia.
  destruct (error resp); simpl; try lia.
  destruct (data resp); simpl; rewrite ?length_app; simpl; lia.
Qed.

(** [evaluateStrategies] returns at most one signal per strategy of the
    list, and writes at most one error line per strategy to the console. *)
Theorem evaluateStrategies_batch_size (tick : Tick.t num)
    (candle : option (Candle.t num)) (strategies : list ref) (w : world S DB) :
  exists signals w',
    evaluateStrategies tick candle strategies w = (Returned signals, w') /\
    (length signals <= length strategies)%nat /\
    (length (console w') <= length (console w) + length strategies)%nat.
Proof.
  rewrite evaluateStrategies_collect.
  eexists. eexists. split; [reflexivity |].
  revert w. induction strategies as [| r rest IH]; intros w.
  - simpl. lia.
  - cbn [collect]. pose proof (contribution_size tick candle r w) as [Hone Hlog].
    destruct (contribution tick candle r w) as [first w1].
    specialize (IH w1).
    destruct (collect tick candle rest w1) as [others w2].
    cbn [fst snd length] in *. rewrite length_app. lia.
Qed.

End EngineBatch.

Section Loading.
Import StrategyEngine Catalog.
Context {num DB : Type} `{Number num} `{Sqrt num} `{Store num DB} `{Query num DB}.

Lemma load_rows_names (registry : gmap string kind) (rows : list (stored num)) :
  map object_name (omap (load_row registry) rows)
  = filter (fun n => is_Some (registry !! n)) (map stored_name rows) /\
  map object_id (omap (load_row registry) rows)
  = map stored_id (filter (fun row => is_Some (registry !! stored_name row)) rows).
Proof.
  induction rows as [| row rest [IHn IHi]]; [split; reflexivity |].
  cbn [omap list_omap map].
  destruct (registry !! stored_name row) as [k |] eqn:Hk.
  - assert (load_row registry row
            = Some (mkObject (stored_id row) (stored_name row)
                             (construct k (stored_params row)))) as ->
      by (unfold load_row; rewrite Hk; reflexivity).
    rewrite !filter_cons_True by (cbn; rewrite Hk; eexists; reflexivity).
    cbn [map object_name object_id]. split; f_equal; assumption.
  - assert (load_row registry row = None) as ->
      by (unfold load_row; rewrite Hk; reflexivity).
    rewrite !filter_cons_False by (cbn; rewrite Hk; intros [? Hx]; discriminate Hx).
    split; assumption.
Qed.

(** [loadUserStrategies] builds a strategy for each stored row whose name is
    registered, in the order of the rows: each strategy carries the id and
    the name of its row and is constructed by the class registered under
    that name from the parameters of that row; a row with another name is
    passed over without an error. *)
Theorem loadUserStrategies_registered_rows (registry : gmap string kind)
    (userId : string) (d d' : DB) (rows : list (stored num)) :
  select_strategies userId d = (Returned (mkSelection (Some rows) None), d') ->
  exists loaded,
    loadUserStrategies registry userId d = (Returned loaded, d') /\
    map object_name loaded
    = filter (fun n => is_Some (registry !! n)) (map stored_name rows) /\
    map object_id loaded
    = map stored_id (filter (fun row => is_Some (registry !! stored_name row)) rows) /\
    Forall2 (fun o row =>
               object_id o = stored_id row /\ object_name o = stored_name row /\
               exists k, registry !! stored_name row = Some k /\
                         object_body o = construct k (stored_params row))
            loaded (filter (fun row => is_Some (registry !! stored_name row)) rows).
Proof.
  intros Hsel. unfold loadUserStrategies. rewrite Hsel. cbn [sel_error sel_data].
  eexists. split; [reflexivity |].
  destruct (load_rows_names registry rows) as [Hn Hi].
  split; [exact Hn |]. split; [exact Hi |].
  clear. induction rows as [| row rest IH]; [constructor |].
  cbn [omap list_omap].
  destruct (registry !! stored_name row) as [k |] eqn:Hk.
  - assert (load_row registry row
            = Some (mkObject (stored_id row) (stored_name row)
                             (construct k (stored_params row)))) as ->
      by (unfold load_row; rewrite Hk; reflexivity).
    rewrite filter_cons_True by (cbn; rewrite Hk; eexists; reflexivity).
    constructor; [| exact IH].
    cbn [object_id object_name object_body].
    split; [reflexivity |]. split; [reflexivity |].
    exists k. split; [exact Hk | reflexivity].
  - assert (load_row registry row = None) as ->
      by (unfold load_row; rewrite Hk; reflexivity).
    rewrite filter_cons_False by (cbn; rewrite Hk; intros [? Hx]; discriminate Hx).
    exact IH.
Qed.

(** A strategy that [createStrategy] stored is what [loadUserStrategies]
    builds from its row: when the insert returns the id [i] and a later
    select returns the row [(i, name, params)], loading gives back the
    strategy that was created. *)
Theorem createStrategy_then_load (registry : gmap string kind) (name : string)
    (params : gmap string num) (userId i : string) (d d1 d2 : DB) :
  is_Some (registry !! name) ->
  insert_strategy (mkStrategyRow userId name params true) d
  = (Returned (mkResponse (Some i) None), d1) ->
  select_strategies userId d1
  = (Returned (mkSelection (Some [mkStored i name params]) None), d2) ->
  exists created,
    createStrategy registry name params userId d = (Returned created, d1) /\
    object_id created = i /\ object_name created = name /\
    loadUserStrategies registry userId d1 = (Returned [created], d2).
Proof.
  intros [k Hk] Hins Hsel.
  unfold createStrategy, loadUserStrategies. rewrite Hk, Hins, Hsel.
  cbn [error data sel_error sel_data].
  eexists. split; [reflexivity |]. split; [reflexivity |]. split; [reflexivity |].
  cbn [omap list_omap]. unfold load_row. cbn [stored_name stored_id stored_params].
  rewrite Hk. reflexivity.
Qed.

End Loading.

Section LoadingExamples.
Import StrategyEngine Catalog MemoryStore.

Lemma loadUserStrategies_registered_rows_witness :
  select_strategies "u1"
    ([("u1", mkStored "s-0" "EMA_Cross" ∅); ("u1", mkStored "s-1" "Momentum" ∅)]
       : table float)
  = (Returned (mkSelection (Some [mkStored "s-0" "EMA_Cross" ∅;
                                  mkStored "s-1" "Momentum" ∅]) None),
     [("u1", mkStored "s-0" "EMA_Cross" ∅); ("u1", mkStored "s-1" "Momentum" ∅)]) /\
  exists loaded,
    loadUserStrategies strategies "u1"
      ([("u1", mkStored "s-0" "EMA_Cross" ∅); ("u1", mkStored "s-1" "Momentum" ∅)]
         : table float)
    = (Returned loaded,
       [("u1", mkStored "s-0" "EMA_Cross" ∅); ("u1", mkStored "s-1" "Momentum" ∅)]) /\
    map object_name loaded = ["EMA_Cross"].
Proof.
  set (t := ([("u1", mkStored "s-0" "EMA_Cross" ∅); ("u1", mkStored "s-1" "Momentum" ∅)]
               : table float)).
  assert (select_strategies "u1" t
          = (Returned (mkSelection (Some [mkStored "s-0" "EMA_Cross" ∅;
                                          mkStored "s-1" "Momentum" ∅]) None), t))
    as Hsel by reflexivity.
  split; [exact Hsel |].
  destruct (loadUserStrategies_registered_rows strategies "u1" t t _ Hsel)
    as (loaded & Hload & Hnames & _).
  exists loaded. split; [exact Hload |]. rewrite Hnames. vm_compute. reflexivity.
Defined.

Lemma createStrategy_then_load_witness :
  is_Some (strategies !! "RSI_MeanReversion") /\
  exists created,
    createStrategy (num := float) strategies "RSI_MeanReversion" ∅ "u1" ([] : table float)
    = (Returned created, [("u1", mkStored "s-0" "RSI_MeanReversion" ∅)]) /\
    loadUserStrategies strategies "u1"
      ([("u1", mkStored "s-0" "RSI_MeanReversion" ∅)] : table float)
    = (Returned [created], [("u1", mkStored "s-0" "RSI_MeanReversion" ∅)]).
Proof.
  assert (is_Some (strategies !! "RSI_MeanReversion")) as Hreg
    by (eexists; vm_compute; reflexivity).
  split; [exact Hreg |].
  assert (insert_strategy (mkStrategyRow "u1" "RSI_MeanReversion" (∅ : gmap string float) true)
                          ([] : table float)
          = (Returned (mkResponse (Some "s-0") None),
             [("u1", mkStored "s-0" "RSI_MeanReversion" ∅)])) as Hins
    by reflexivity.
  assert (select_strategies "u1" ([("u1", mkStored "s-0" "RSI_MeanReversion" ∅)] : table float)
          = (Returned (mkSelection (Some [mkStored "s-0" "RSI_MeanReversion" ∅]) None),
             [("u1", mkStored "s-0" "RSI_MeanReversion" ∅)])) as Hsel
    by reflexivity.
  destruct (createStrategy_then_load strategies "RSI_MeanReversion" ∅ "u1" "s-0"
              _ _ _ Hreg Hins Hsel) as (created & Hc & _ & _ & Hl).
  exists created. split; [exact Hc | exact Hl].
Defined.

End LoadingExamples.


(** ** More on the scheduler *)

Section SchedulerExtras.
Import Scheduler SchedulerSpec SchedulerQueries ArmedSpec.

Lemma find_first {A} (f : A -> bool) (l : list A) :
  match find f l with
  | Some x => exists l1 l2, l = l1 ++ x :: l2 /\ f x = true /\
                            Forall (fun y => f y = false) l1
  | None => Forall (fun y => f y = false) l
  end.
Proof.
  induction l as [| a l IH]; simpl.
  - constructor.
  - destruct (f a) eqn:Hfa.
    + exists [], l. split; [reflexivity |]. split; [exact Hfa | constructor].
    + destruct (find f l) as [x |].
      * destruct IH as (l1 & l2 & -> & Hx & Hall).
        exists (a :: l1), l2. split; [reflexivity |]. split; [exact Hx |].
        constructor; assumption.
      * constructor; assumption.
Qed.

(** [findTickAtBoundary] returns the newest tick of the buffer that is not
    later than the boundary: every tick stored after it is later than the
    boundary.  It returns nothing exactly when every tick of the buffer is
    later than the boundary, and always nothing for an invalid date. *)
Theorem findTickAtBoundary_newest_not_later {num : Type}
    (tickBuffer : list (Tick.t num)) (b : Z) :
  match findTickAtBoundary tickBuffer (DateOf b) with
  | Some tick =>
      exists older newer, tickBuffer = older ++ tick :: newer /\
        (Tick.ts tick <= b)%Z /\ Forall (fun t => (b < Tick.ts t)%Z) newer
  | None => Forall (fun t => (b < Tick.ts t)%Z) tickBuffer
  end /\
  findTickAtBoundary tickBuffer InvalidDate = None.
Proof.
  split; [| reflexivity].
  unfold findTickAtBoundary.
  pose proof (find_first (fun tick : Tick.t num => (Tick.ts tick <=? b)%Z) (rev tickBuffer))
    as Hfind.
  assert (forall l : list (Tick.t num),
            Forall (fun y => (Tick.ts y <=? b)%Z = false) l ->
            Forall (fun t => (b < Tick.ts t)%Z) (rev l)) as Hlater.
  { intros l Hl. apply Forall_forall. intros t Ht.
    rewrite Forall_forall in Hl. apply Z.leb_gt. apply Hl.
    apply list_elem_of_In. apply in_rev. apply list_elem_of_In. exact Ht. }
  destruct (find _ (rev tickBuffer)) as [tick |].
  - destruct Hfind as (l1 & l2 & Hrev & Hle & Hall).
    exists (rev l2), (rev l1). split; [| split].
    + rewrite <- (rev_involutive tickBuffer), Hrev, rev_app_distr. simpl.
      rewrite <- app_assoc. reflexivity.
    + apply Z.leb_le. exact Hle.
    + apply Hlater. exact Hall.
  - rewrite <- (rev_involutive tickBuffer). apply Hlater. exact Hfind.
Qed.








(** As long as every job id was created once, [cancelAllJobs] leaves the
    scheduler with no job and no pending timer, so no timer can expire
    after it. *)
Theorem cancelAllJobs_clears_every_timer (before : list event) (this : state) :
  NoDup (scheduled_ids before) ->
  steps new before = Some this ->
  jobs (cancelAllJobs this) = ∅ /\
  timers (cancelAllJobs this) = ∅ /\
  forall id serverTime, step (cancelAllJobs this) (Fire id serverTime) = None.
Proof.
  intros Hnodup Hsteps.
  pose proof (inv_steps before [] new this inv_new Hsteps Hnodup) as [Hreg _ _ _ _].
  assert (timers (cancelAllJobs this) = ∅) as Hempty.
  { apply map_eq. intros id. rewrite lookup_empty. cbn [cancelAllJobs timers].
    destruct (map_fold _ _ _ !! id) as [t |] eqn:Hid; [| reflexivity].
    destruct (clear_all_timers _ _ id t Hid) as [Hts Hnot].
    destruct (Hreg id t Hts) as (j & Hj & Hjid). destruct (Hnot _ j Hj Hjid). }
  split; [reflexivity |]. split; [exact Hempty |].
  intros id serverTime. cbn [step]. rewrite Hempty, lookup_empty.
  destruct (running (cancelAllJobs this)); reflexivity.
Qed.

Lemma cancelAllJobs_clears_every_timer_witness :
  exists this,
    steps new [ Schedule "EURUSD" "1m" 1 None 1700000000000 1700000000000;
                Schedule "GBPUSD" "5m" 2 None 1700000000000 1700000000000 ]
    = Some this /\
    jobs (cancelAllJobs this) = ∅ /\
    timers (cancelAllJobs this) = ∅ /\
    forall id serverTime, step (cancelAllJobs this) (Fire id serverTime) = None.
Proof.
  assert (exists this,
            steps new [ Schedule "EURUSD" "1m" 1 None 1700000000000 1700000000000;
                        Schedule "GBPUSD" "5m" 2 None 1700000000000 1700000000000 ]
            = Some this) as [this Hsteps] by (eexists; vm_compute; reflexivity).
  exists this. split; [exact Hsteps |].
  apply (cancelAllJobs_clears_every_timer
           [ Schedule "EURUSD" "1m" 1 None 1700000000000 1700000000000;
             Schedule "GBPUSD" "5m" 2 None 1700000000000 1700000000000 ] this);
    [| exact Hsteps].
  apply (bool_decide_unpack _). vm_compute. reflexivity.
Defined.

Lemma cancelJob_found (jobId : string) (this : state) (j : job) :
  jobs this !! jobId = Some j ->
  cancelJob jobId this
  = (true, {| jobs := delete jobId (jobs this);
              timingErrors := timingErrors this;
              timers := delete (timeoutId j) (timers this);
              nextTimeout := nextTimeout this;
              running := running this;
              invocations := invocations this |}).
Proof. intros Hj. unfold cancelJob. rewrite Hj. reflexivity. Qed.

Lemma cancelJob_missing (jobId : string) (this : state) :
  jobs this !! jobId = None -> cancelJob jobId this = (false, this).
Proof. intros Hj. unfold cancelJob. rewrite Hj. reflexivity. Qed.

(** Scheduling a job under an id that was not used before and cancelling it
    at once puts the job table and the pending timers back as they were;
    [cancelJob] answers [true], and [false] when it is asked again. *)
Theorem schedule_then_cancel (before : list event) (this : state)
    (symbol timeframe : string) (callback : nat) (offset : option Z)
    (now serverTime : Z) :
  NoDup (scheduled_ids before) ->
  steps new before = Some this ->
  is_Some (Timeframes.get timeframe) ->
  ~ In (make_jobId symbol timeframe now) (scheduled_ids before) ->
  let scheduled :=
    scheduleAtCandleBoundary symbol timeframe callback offset now serverTime this in
  let jobId := make_jobId symbol timeframe now in
  fst scheduled = inr jobId /\
  is_Some (jobs (snd scheduled) !! jobId) /\
  fst (cancelJob jobId (snd scheduled)) = true /\
  jobs (snd (cancelJob jobId (snd scheduled))) = jobs this /\
  timers (snd (cancelJob jobId (snd scheduled))) = timers this /\
  fst (cancelJob jobId (snd (cancelJob jobId (snd scheduled)))) = false.
Proof.
  intros Hnodup Hsteps [intervalMs Htf] Hfresh scheduled jobId.
  pose proof (inv_steps before [] new this inv_new Hsteps Hnodup)
    as [Hreg Hids _ Hjobs _].
  simpl in Hjobs.
  assert (jobs this !! jobId = None) as Hnojob.
  { destruct (jobs this !! jobId) as [j |] eqn:Hj; [| reflexivity].
    destruct (Hfresh (Hjobs _ _ Hj)). }
  assert (timers this !! nextTimeout this = None) as Hnotimer.
  { destruct (timers this !! nextTimeout this) as [t |] eqn:Ht; [| reflexivity].
    pose proof (Hids _ _ Ht). lia. }
  subst scheduled. unfold scheduleAtCandleBoundary. rewrite Htf. cbn [fst snd].
  unfold scheduleNext. cbn [c_jobId c_intervalMs c_offset].
  destruct (arm intervalMs (default 5%Z offset) serverTime) as [target delay].
  fold jobId.
  match goal with |- context [cancelJob jobId ?s] => set (armed_state := s) end.
  assert (jobs armed_state !! jobId
          = Some {| timeoutId := nextTimeout this; nextExecution := target |}) as Hjob
    by apply lookup_insert_eq.
  rewrite (cancelJob_found jobId armed_state _ Hjob). cbn [fst snd jobs timers timeoutId].
  rewrite cancelJob_missing by (cbn [jobs]; apply lookup_delete_eq).
  cbn [fst]. subst armed_state. cbn [jobs timers].
  rewrite delete_insert_eq, delete_insert_eq.
  rewrite (delete_id _ _ Hnojob), (delete_id _ _ Hnotimer).
  repeat apply conj; try reflexivity. eexists; exact Hjob.
Qed.

Lemma schedule_then_cancel_witness :
  let scheduled :=
    scheduleAtCandleBoundary "GBPUSD" "5m" 2 None 1700000000000 1700000000000
      (snd (scheduleAtCandleBoundary "EURUSD" "1m" 1 None 1700000000000 1700000000000 new)) in
  let jobId := make_jobId "GBPUSD" "5m" 1700000000000 in
  fst scheduled = inr jobId /\
  is_Some (jobs (snd scheduled) !! jobId) /\
  fst (cancelJob jobId (snd scheduled)) = true /\
  jobs (snd (cancelJob jobId (snd scheduled)))
  = jobs (snd (scheduleAtCandleBoundary "EURUSD" "1m" 1 None 1700000000000 1700000000000 new)) /\
  timers (snd (cancelJob jobId (snd scheduled)))
  = timers (snd (scheduleAtCandleBoundary "EURUSD" "1m" 1 None 1700000000000 1700000000000 new)) /\
  fst (cancelJob jobId (snd (cancelJob jobId (snd scheduled)))) = false.
Proof.
  apply (schedule_then_cancel
           [Schedule "EURUSD" "1m" 1 None 1700000000000 1700000000000]).
  - apply (bool_decide_unpack _). vm_compute. reflexivity.
  - reflexivity.
  - eexists. vm_compute. reflexivity.
  - vm_compute. intros [H | []]. discriminate H.
Defined.

Lemma armed_new : armed new.
Proof.
  constructor; simpl; intros *; rewrite lookup_empty; discriminate.
Qed.

(** Arming job [c_jobId c] completes the link between jobs and timers. *)
Lemma armed_scheduleNext (used : list string) (c : closure) (serverTime : Date)
    (this : state) :
  inv used this ->
  armed_but (Some (c_jobId c)) this ->
  armed (scheduleNext c serverTime this).
Proof.
  intros [_ Hids _ _ _] [Hpending Hdistinct Hjids].
  unfold scheduleNext.
  destruct (arm (c_intervalMs c) (c_offset c) serverTime) as [target delay].
  constructor; cbn [jobs timers nextTimeout running].
  - intros jobId j Hj _.
    destruct (decide (c_jobId c = jobId)) as [<- | Hne].
    + rewrite lookup_insert_eq in Hj. injection Hj as <-. left. cbn [timeoutId nextExecution].
      rewrite lookup_insert_eq. eexists. repeat apply conj; reflexivity.
    + rewrite lookup_insert_ne in Hj by exact Hne.
      destruct (Hpending jobId j Hj ltac:(congruence)) as [(t & Ht & Hc & Htarget) | Hrun].
      * left. exists t. rewrite lookup_insert_ne; [auto |].
        pose proof (Hjids _ _ Hj). lia.
      * right. exact Hrun.
  - intros jobId1 jobId2 j1 j2 Hj1 Hj2 Heq.
    destruct (decide (c_jobId c = jobId1)) as [<- | Hne1];
      destruct (decide (c_jobId c = jobId2)) as [<- | Hne2]; [reflexivity | | |].
    + rewrite lookup_insert_eq in Hj1. injection Hj1 as <-.
      rewrite lookup_insert_ne in Hj2 by exact Hne2.
      pose proof (Hjids _ _ Hj2). cbn [timeoutId] in Heq. lia.
    + rewrite lookup_insert_eq in Hj2. injection Hj2 as <-.
      rewrite lookup_insert_ne in Hj1 by exact Hne1.
      pose proof (Hjids _ _ Hj1). cbn [timeoutId] in Heq. lia.
    + rewrite lookup_insert_ne in Hj1 by exact Hne1.
      rewrite lookup_insert_ne in Hj2 by exact Hne2.
      eapply Hdistinct; eassumption.
  - intros jobId j Hj.
    destruct (decide (c_jobId c = jobId)) as [<- | Hne].
    + rewrite lookup_insert_eq in Hj. injection Hj as <-. cbn [timeoutId]. lia.
    + rewrite lookup_insert_ne in Hj by exact Hne. pose proof (Hjids _ _ Hj). lia.
Qed.

Lemma armed_step (used : list string) (this this' : state) (e : event) :
  inv used this -> armed this ->
  step this e = Some this' ->
  match e with FireFallback _ _ => False | _ => True end ->
  armed this'.
Proof.
  intros Hinv Harmed Hstep Hclient.
  pose proof Harmed as [Hpending Hdistinct Hjids].
  destruct e as [symbol timeframe callback offset now serverTime
                | id serverTime | id serverTime | serverTime | jobId |]; simpl in Hstep;
    [| | destruct Hclient | | |].
  - (* Schedule *)
    injection Hstep as <-. unfold scheduleAtCandleBoundary.
    destruct (Timeframes.get timeframe) as [intervalMs |]; cbn [snd]; [| exact Harmed].
    apply (armed_scheduleNext used); [exact Hinv |].
    constructor; [| exact Hdistinct | exact Hjids].
    intros jobId j Hj _. apply (Hpending jobId j Hj). discriminate.
  - (* Fire *)
    destruct (running this) as [c |] eqn:Hr; [discriminate Hstep |].
    destruct (timers this !! id) as [t |] eqn:Ht; [| discriminate Hstep].
    injection Hstep as <-.
    constructor;
      cbn [executeAtBoundary recordTimingError jobs timers nextTimeout running];
      [| exact Hdistinct | exact Hjids].
    intros jobId j Hj _.
    destruct (Hpending jobId j Hj ltac:(discriminate)) as [(t0 & Ht0 & Hc & Htarget) | Hrun].
    + destruct (decide (id = timeoutId j)) as [-> | Hne].
      * right. rewrite Ht in Ht0. injection Ht0 as <-. eexists. split; [reflexivity | exact Hc].
      * left. exists t0. rewrite lookup_delete_ne by exact Hne. auto.
    + destruct Hrun as (c & Hc & _). discriminate Hc.
  - (* Rearm *)
    destruct (running this) as [c |] eqn:Hr; [| discriminate Hstep].
    injection Hstep as <-.
    set (idle := {| jobs := jobs this; timingErrors := timingErrors this;
                    timers := timers this; nextTimeout := nextTimeout this;
                    running := None; invocations := invocations this |}).
    assert (armed_but (Some (c_jobId c)) idle) as Hidle.
    { constructor; cbn [idle jobs timers nextTimeout running];
        [| exact Hdistinct | exact Hjids].
      intros jobId j Hj Hskip.
      destruct (Hpending jobId j Hj ltac:(discriminate)) as [Hleft | (c' & Hc' & Hid)].
      - left. exact Hleft.
      - injection Hc' as <-. congruence. }
    assert (inv used idle) as Hinv_idle.
    { destruct Hinv as [H1 H2 H3 H4 H5].
      constructor; cbn [idle jobs timers nextTimeout running]; auto; intros; discriminate. }
    case_bool_decide as Hhas.
    + apply (armed_scheduleNext used); assumption.
    + destruct Hidle as [Hp Hd Hi].
      constructor; [| exact Hd | exact Hi].
      intros jobId j Hj _. apply (Hp jobId j Hj).
      intros Heq. injection Heq as Heq. apply Hhas. rewrite Heq.
      eexists. exact Hj.
  - (* Cancel *)
    injection Hstep as <-. unfold cancelJob.
    destruct (jobs this !! jobId) as [j |] eqn:Hj; cbn [snd]; [| exact Harmed].
    constructor; cbn [jobs timers nextTimeout running].
    + intros k j' Hk _.
      destruct (decide (jobId = k)) as [<- | Hne];
        [rewrite lookup_delete_eq in Hk; discriminate Hk |].
      rewrite lookup_delete_ne in Hk by exact Hne.
      destruct (Hpending k j' Hk ltac:(discriminate)) as [(t & Ht & Hc & Htarget) | Hrun].
      * left. exists t. rewrite lookup_delete_ne; [auto |].
        intros Heq. apply Hne. eapply Hdistinct; eassumption.
      * right. exact Hrun.
    + intros k1 k2 j1 j2 Hk1 Hk2.
      destruct (decide (jobId = k1)) as [<- | Hne1];
        [rewrite lookup_delete_eq in Hk1; discriminate Hk1 |].
      destruct (decide (jobId = k2)) as [<- | Hne2];
        [rewrite lookup_delete_eq in Hk2; discriminate Hk2 |].
      rewrite lookup_delete_ne in Hk1 by exact Hne1.
      rewrite lookup_delete_ne in Hk2 by exact Hne2.
      eapply Hdistinct; eassumption.
    + intros k j' Hk.
      destruct (decide (jobId = k)) as [<- | Hne];
        [rewrite lookup_delete_eq in Hk; discriminate Hk |].
      rewrite lookup_delete_ne in Hk by exact Hne. eapply Hjids. exact Hk.
  - (* CancelAll *)
    injection Hstep as <-.
    constructor; cbn [cancelAllJobs jobs]; intros *; rewrite lookup_empty; discriminate.
Qed.

Lemma armed_steps (events : list event) :
  forall (used : list string) (this this' : state),
    inv used this -> armed this ->
    steps this events = Some this' ->
    with_socket_client events ->
    NoDup (used ++ scheduled_ids events) ->
    armed this'.
Proof.
  induction events as [| e events IH];
    intros used this this' Hinv Harmed Hsteps Hclient Hnodup.
  - simpl in Hsteps. injection Hsteps as <-. exact Harmed.
  - simpl in Hsteps. destruct (step this e) as [this1 |] eqn:Hstep; [| discriminate Hsteps].
    apply Forall_cons in Hclient. destruct Hclient as [He Hclient].
    assert (scheduled_ids (e :: events)
            = option_list (scheduled_id e) ++ scheduled_ids events) as Hids.
    { unfold scheduled_ids. simpl. destruct (scheduled_id e); reflexivity. }
    rewrite Hids, app_assoc in Hnodup.
    apply (IH (used ++ option_list (scheduled_id e)) this1 this');
      [| eapply armed_step; eassumption | exact Hsteps | exact Hclient | exact Hnodup].
    apply (inv_step used this this1 e Hinv Hstep).
    intros jobId Hsched Hin. rewrite Hsched in Hnodup. simpl in Hnodup.
    apply NoDup_app in Hnodup. destruct Hnodup as (Hnd & _ & _).
    apply NoDup_app in Hnd. destruct Hnd as (_ & Hdisj & _).
    apply (Hdisj jobId).
    + apply list_elem_of_In. exact Hin.
    + apply list_elem_of_In. left. reflexivity.
Qed.

(** With the socket client as [realtimeClient], and as long as every job id
    was created once: whenever no timer handler is running, every job of the
    job table has exactly its recorded timer pending, that timer belongs to
    the job and aims at the [nextExecution] the job shows, and no two jobs
    share a timer. *)
Theorem jobs_stay_armed (events : list event) (this : state) :
  with_socket_client events ->
  NoDup (scheduled_ids events) ->
  steps new events = Some this ->
  running this = None ->
  (forall jobId j, jobs this !! jobId = Some j ->
     exists t, timers this !! timeoutId j = Some t /\
               c_jobId (t_closure t) = jobId /\ t_target t = nextExecution j) /\
  (forall jobId1 jobId2 j1 j2,
     jobs this !! jobId1 = Some j1 -> jobs this !! jobId2 = Some j2 ->
     timeoutId j1 = timeoutId j2 -> jobId1 = jobId2).
Proof.
  intros Hclient Hnodup Hsteps Hidle.
  pose proof (armed_steps events [] new this inv_new armed_new Hsteps Hclient Hnodup)
    as [Hpending Hdistinct _].
  split; [| exact Hdistinct].
  intros jobId j Hj.
  destruct (Hpending jobId j Hj ltac:(discriminate)) as [Hleft | (c & Hc & _)];
    [exact Hleft |].
  rewrite Hidle in Hc. discriminate Hc.
Qed.

Lemma jobs_stay_armed_witness :
  exists this,
    steps new [ Schedule "EURUSD" "1m" 1 None 1700000000000 1700000000000;
                Fire 0 1700000039995; Rearm 1700000040001 ] = Some this /\
    (forall jobId j, jobs this !! jobId = Some j ->
       exists t, timers this !! timeoutId j = Some t /\
                 c_jobId (t_closure t) = jobId /\ t_target t = nextExecution j) /\
    (forall jobId1 jobId2 j1 j2,
       jobs this !! jobId1 = Some j1 -> jobs this !! jobId2 = Some j2 ->
       timeoutId j1 = timeoutId j2 -> jobId1 = jobId2).
Proof.
  assert (exists this,
            steps new [ Schedule "EURUSD" "1m" 1 None 1700000000000 1700000000000;
                        Fire 0 1700000039995; Rearm 1700000040001 ] = Some this /\
            running this = None) as (this & Hsteps & Hidle)
    by (eexists; split; vm_compute; reflexivity).
  exists this. split; [exact Hsteps |].
  apply (jobs_stay_armed
           [ Schedule "EURUSD" "1m" 1 None 1700000000000 1700000000000;
             Fire 0 1700000039995; Rearm 1700000040001 ] this);
    [| | exact Hsteps | exact Hidle].
  - repeat constructor.
  - apply (bool_decide_unpack _). vm_compute. reflexivity.
Defined.

Lemma fallback_step (this this' : state) (e : event) :
  step this e = Some this' ->
  match e with Fire _ _ => False | _ => True end ->
  running this = None -> invocations this = [] ->
  running this' = None /\ invocations this' = [] /\
  nextTimeout this' = (nextTimeout this + length (option_list (scheduled_id e)))%nat /\
  match e with Rearm _ => False | _ => True end.
Proof.
  intros Hstep Hclient Hidle Hquiet.
  destruct e as [symbol timeframe callback offset now serverTime
                | id serverTime | id serverTime | serverTime | jobId |]; simpl in Hstep;
    [| destruct Hclient | | |  |].
  - injection Hstep as <-. unfold scheduleAtCandleBoundary. cbn [scheduled_id].
    destruct (Timeframes.get timeframe) as [intervalMs |]; cbn [snd option_list option_rect length].
    + unfold scheduleNext. cbn [c_intervalMs c_offset].
      destruct (arm intervalMs (default 5%Z offset) serverTime) as [target delay].
      cbn [running invocations nextTimeout]. repeat apply conj; auto; lia.
    + repeat apply conj; auto; lia.
  - rewrite Hidle in Hstep.
    destruct (timers this !! id) as [t |]; [| discriminate Hstep].
    injection Hstep as <-. cbn [recordTimingError running invocations nextTimeout
                                scheduled_id option_list option_rect length].
    repeat apply conj; auto; lia.
  - rewrite Hidle in Hstep. discriminate Hstep.
  - injection Hstep as <-. unfold cancelJob. cbn [scheduled_id option_list option_rect length].
    destruct (jobs this !! jobId); cbn [snd running invocations nextTimeout];
      repeat apply conj; auto; lia.
  - injection Hstep as <-. cbn [cancelAllJobs running invocations nextTimeout
                                scheduled_id option_list option_rect length].
    repeat apply conj; auto; lia.
Qed.

Lemma fallback_steps (events : list event) :
  forall this this' : state,
    steps this events = Some this' ->
    with_fallback_client events ->
    running this = None -> invocations this = [] ->
    running this' = None /\ invocations this' = [] /\
    nextTimeout this' = (nextTimeout this + length (scheduled_ids events))%nat /\
    Forall (fun e => match e with Rearm _ => False | _ => True end) events.
Proof.
  induction events as [| e events IH]; intros this this' Hsteps Hclient Hidle Hquiet.
  - simpl in Hsteps. injection Hsteps as <-. unfold scheduled_ids. simpl.
    repeat apply conj; auto; lia.
  - simpl in Hsteps. destruct (step this e) as [this1 |] eqn:Hstep; [| discriminate Hsteps].
    apply Forall_cons in Hclient. destruct Hclient as [He Hclient].
    destruct (fallback_step this this1 e Hstep He Hidle Hquiet)
      as (Hidle1 & Hquiet1 & Hnext1 & Hrearm).
    destruct (IH this1 this' Hsteps Hclient Hidle1 Hquiet1)
      as (Hidle' & Hquiet' & Hnext' & Hrearms).
    assert (scheduled_ids (e :: events)
            = option_list (scheduled_id e) ++ scheduled_ids events) as Hids.
    { unfold scheduled_ids. simpl. destruct (scheduled_id e); reflexivity. }
    rewrite Hids, length_app.
    split; [exact Hidle' |]. split; [exact Hquiet' |].
    split; [lia | constructor; assumption].
Qed.

(** With the fallback client as [realtimeClient], which has no
    [getTickBuffer], [executeAtBoundary] throws before it reaches the
    callback: in any run from a new scheduler no callback is ever called and
    no handler reaches its re-arm test, so the only timers ever set are
    those of the schedule calls, one each, and a job whose timer has expired
    stays in the job table without a timer. *)
Theorem fallback_client_never_calls_back (events : list event) (this : state) :
  with_fallback_client events ->
  steps new events = Some this ->
  invocations this = [] /\
  running this = None /\
  nextTimeout this = length (scheduled_ids events) /\
  Forall (fun e => match e with Rearm _ => False | _ => True end) events /\
  forall id serverTime this',
    step this (FireFallback id serverTime) = Some this' ->
    jobs this' = jobs this /\ timers this' = delete id (timers this) /\
    invocations this' = [] /\ running this' = None.
Proof.
  intros Hclient Hsteps.
  destruct (fallback_steps events new this Hsteps Hclient eq_refl eq_refl)
    as (Hidle & Hquiet & Hnext & Hrearms).
  repeat apply conj; try assumption.
  intros id serverTime this' Hstep. cbn [step] in Hstep. rewrite Hidle in Hstep.
  destruct (timers this !! id) as [t |] eqn:Ht; [| discriminate Hstep].
  injection Hstep as <-. cbn [recordTimingError jobs timers invocations running].
  repeat apply conj; try reflexivity. exact Hquiet.
Qed.

Lemma fallback_client_never_calls_back_witness :
  exists this,
    steps new [ Schedule "EURUSD" "1m" 1 None 1700000000000 1700000000000;
                FireFallback 0 1700000039995 ] = Some this /\
    invocations this = [] /\
    running this = None /\
    jobs this !! "EURUSD_1m_1700000000000"
    = Some {| timeoutId := 0; nextExecution := DateOf 1700000040000 |} /\
    timers this = ∅.
Proof.
  assert (exists this,
            steps new [ Schedule "EURUSD" "1m" 1 None 1700000000000 1700000000000;
                        FireFallback 0 1700000039995 ] = Some this) as [this Hsteps]
    by (eexists; vm_compute; reflexivity).
  exists this. split; [exact Hsteps |].
  destruct (fallback_client_never_calls_back
              [ Schedule "EURUSD" "1m" 1 None 1700000000000 1700000000000;
                FireFallback 0 1700000039995 ] this
              ltac:(repeat constructor) Hsteps) as (Hquiet & Hidle & _).
  split; [exact Hquiet |]. split; [exact Hidle |].
  vm_compute in Hsteps. injection Hsteps as <-. split; reflexivity.
Defined.

End SchedulerExtras.


(** ** The tick feed *)

Section FeedTheorems.
Import Feed FeedSpec.
Context {num : Type}.

Lemma getTickBuffer_processTick (symbol : string) (tick : Tick.t num) (this : state num) :
  getTickBuffer symbol (processTick tick this)
  = if decide (Tick.symbol tick = symbol)
    then let pushed := getTickBuffer symbol this ++ [tick] in
         if (2048 <? length pushed)%nat then shift pushed else pushed
    else getTickBuffer symbol this.
Proof.
  unfold getTickBuffer, processTick. cbn [tickBuffers].
  destruct (decide (Tick.symbol tick = symbol)) as [<- | Hne].
  - rewrite lookup_insert_eq. reflexivity.
  - rewrite lookup_insert_ne by exact Hne. reflexivity.
Qed.

Lemma push_keep_last {A : Type} (l : list A) (x : A) :
  (length l <= 2048)%nat ->
  (if (2048 <? length (l ++ [x]))%nat then shift (l ++ [x]) else l ++ [x])
  = keep_last 2048 (l ++ [x]).
Proof.
  intros Hlen. unfold keep_last, shift. rewrite length_app. cbn [length].
  destruct (2048 <? length l + 1)%nat eqn:Hfull.
  - apply Nat.ltb_lt in Hfull.
    replace (length l + 1 - 2048)%nat with 1%nat by lia.
    destruct (l ++ [x]); reflexivity.
  - apply Nat.ltb_ge in Hfull.
    replace (length l + 1 - 2048)%nat with 0%nat by lia. reflexivity.
Qed.

Lemma keep_last_length {A : Type} (n : nat) (l : list A) :
  (length (keep_last n l) <= n)%nat.
Proof. unfold keep_last. rewrite length_drop. lia. Qed.

Lemma keep_last_snoc {A : Type} (n : nat) (l : list A) (x : A) :
  keep_last n (keep_last n l ++ [x]) = keep_last n (l ++ [x]).
Proof.
  unfold keep_last. rewrite !length_app, length_drop. cbn [length].
  destruct (le_lt_dec (length l) n) as [Hle | Hgt].
  - replace (length l - n)%nat with 0%nat by lia. rewrite drop_0.
    f_equal. lia.
  - rewrite <- drop_app_le by lia.
    rewrite drop_drop. f_equal. lia.
Qed.

Lemma last_drop_lt {A : Type} (l : list A) :
  forall k, (k < length l)%nat -> last (drop k l) = last l.
Proof.
  induction l as [| a l IH]; intros k Hk; [simpl in Hk; lia |].
  destruct k as [| k]; [reflexivity |].
  cbn [drop]. cbn [length] in Hk. rewrite IH by lia.
  destruct l as [| b l]; [simpl in Hk; lia | reflexivity].
Qed.

Lemma last_keep_last {A : Type} (n : nat) (l : list A) :
  (1 <= n)%nat -> last (keep_last n l) = last l.
Proof.
  intros Hn. unfold keep_last. destruct l as [| a l]; [reflexivity |].
  apply last_drop_lt. cbn [length]. lia.
Qed.

Lemma process_all_buffer (symbol : string) (ticks : list (Tick.t num)) (this : state num) :
  (length (getTickBuffer symbol this) <= 2048)%nat ->
  getTickBuffer symbol (process_all ticks this)
  = keep_last 2048 (getTickBuffer symbol this ++ ticks_of symbol ticks).
Proof.
  intros Hlen. induction ticks as [| tick ticks IH] using rev_ind.
  - unfold process_all, ticks_of, keep_last. simpl. rewrite app_nil_r.
    replace (length (getTickBuffer symbol this) - 2048)%nat with 0%nat by lia.
    reflexivity.
  - unfold process_all. rewrite fold_left_app. cbn [fold_left].
    fold (process_all ticks this).
    rewrite getTickBuffer_processTick. unfold ticks_of. rewrite filter_app.
    fold (ticks_of symbol ticks).
    destruct (decide (Tick.symbol tick = symbol)) as [Heq | Hne].
    + rewrite filter_cons_True by exact Heq. rewrite filter_nil.
      cbv zeta. rewrite push_keep_last by (rewrite IH; apply keep_last_length).
      rewrite IH, keep_last_snoc, app_assoc. reflexivity.
    + rewrite filter_cons_False by exact Hne. rewrite filter_nil, app_nil_r.
      exact IH.
Qed.

(** The buffer of a symbol is a window on its ticks: after any run of tick
    messages it holds the last 2048 of what it held before followed by the
    ticks of the symbol, in arrival order; ticks of other symbols leave it
    alone; and [getLatestTick] is the last entry of that sequence. *)
Theorem tick_buffer_keeps_last_2048 (symbol : string) (ticks : list (Tick.t num))
    (this : state num) :
  (length (getTickBuffer symbol this) <= 2048)%nat ->
  let after := process_all ticks this in
  let arrived := getTickBuffer symbol this ++ ticks_of symbol ticks in
  getTickBuffer symbol after = keep_last 2048 arrived /\
  (length (getTickBuffer symbol after) <= 2048)%nat /\
  getLatestTick symbol after = last arrived.
Proof.
  intros Hlen after arrived.
  pose proof (process_all_buffer symbol ticks this Hlen) as Hbuf.
  fold after arrived in Hbuf.
  split; [exact Hbuf |]. split; [rewrite Hbuf; apply keep_last_length |].
  rewrite <- (last_keep_last 2048 arrived) by lia. rewrite <- Hbuf.
  unfold getLatestTick, getTickBuffer.
  destruct (tickBuffers after !! symbol); reflexivity.
Qed.

Lemma remove_first_snoc (handler : nat) (handlers : list nat) :
  ~ In handler handlers -> remove_first handler (handlers ++ [handler]) = handlers.
Proof.
  induction handlers as [| h rest IH]; intros Hnot; simpl.
  - rewrite Nat.eqb_refl. reflexivity.
  - destruct (Nat.eqb_spec h handler) as [-> | Hne].
    + destruct Hnot. left. reflexivity.
    + rewrite IH; [reflexivity |]. intros Hin. apply Hnot. right. exact Hin.
Qed.

Lemma subscribers_send (m : message) (this : state num) :
  subscribers (send m this) = subscribers this.
Proof. unfold send. destruct (socketOpen this); reflexivity. Qed.

(** Calling the function that [subscribe] returned undoes the subscription
    when the handler was not yet subscribed to the symbol: the subscriber map
    is as before and the tick buffers are untouched.  On an open connection
    the server is told of the subscription, and of its end only when no other
    handler of the symbol remains. *)
Theorem subscribe_then_unsubscribe (symbol : string) (handler : nat) (this : state num) :
  ~ In handler (default [] (subscribers this !! symbol)) ->
  subscribers this !! symbol <> Some [] ->
  let after := unsubscribe symbol handler (subscribe symbol handler this) in
  subscribers after = subscribers this /\
  tickBuffers after = tickBuffers this /\
  outbox after
  = outbox this ++
    (if isConnected this && socketOpen this
     then MsgSubscribe symbol ::
          match subscribers this !! symbol with
          | None => [MsgUnsubscribe symbol]
          | Some _ => []
          end
     else []).
Proof.
  intros Hnot Hnonempty after. subst after.
  unfold unsubscribe, subscribe, send, with_subscribers.
  destruct (isConnected this) eqn:Hc; destruct (socketOpen this) eqn:Ho;
    destruct (subscribers this !! symbol) as [[| h rest] |] eqn:Hsub;
    try (destruct Hnonempty; reflexivity);
    repeat (progress (cbn [subscribers tickBuffers isConnected socketOpen outbox
                           from_option id];
                      rewrite ?Hc, ?Ho, ?Hsub, ?lookup_insert_eq));
    rewrite remove_first_snoc by exact Hnot;
    repeat (progress (cbn [subscribers tickBuffers isConnected socketOpen outbox
                           from_option id andb];
                      rewrite ?Hc, ?Ho, ?Hsub, ?lookup_insert_eq));
    rewrite ?app_nil_r, <- ?app_assoc;
    (repeat apply conj; try reflexivity);
    first [ rewrite insert_insert_eq; apply insert_id; exact Hsub
          | rewrite delete_insert_eq; apply delete_id; exact Hsub ].
Qed.

Lemma nonempty_perform (this : state num) (a : action num) :
  map_Forall (fun _ handlers => handlers <> []) (subscribers this) ->
  map_Forall (fun _ handlers => handlers <> []) (subscribers (perform this a)).
Proof.
  intros Hinv. destruct a as [symbol handler | symbol handler | tick]; cbn [perform].
  - unfold subscribe. destruct (isConnected this);
      [rewrite subscribers_send |]; cbn [with_subscribers subscribers];
      intros k hs Hk;
      (destruct (decide (symbol = k)) as [<- | Hne];
       [ rewrite lookup_insert_eq in Hk; injection Hk as <-;
         intros Heq; apply app_eq_nil in Heq; destruct Heq as [_ Heq]; discriminate Heq
       | rewrite lookup_insert_ne in Hk by exact Hne; exact (Hinv k hs Hk) ]).
  - unfold unsubscribe.
    destruct (remove_first handler (default [] (subscribers this !! symbol)))
      as [| h rest] eqn:Hrem.
    + destruct (isConnected this);
        [rewrite subscribers_send |]; cbn [with_subscribers subscribers];
        intros k hs Hk;
        (destruct (decide (symbol = k)) as [<- | Hne];
         [ rewrite lookup_delete_eq in Hk; discriminate Hk
         | rewrite lookup_delete_ne in Hk by exact Hne; exact (Hinv k hs Hk) ]).
    + cbn [with_subscribers subscribers]. intros k hs Hk.
      destruct (decide (symbol = k)) as [<- | Hne].
      * rewrite lookup_insert_eq in Hk. injection Hk as <-. discriminate.
      * rewrite lookup_insert_ne in Hk by exact Hne. exact (Hinv k hs Hk).
  - exact Hinv.
Qed.

(** A symbol is a key of the subscriber map only while it has a handler:
    no run of subscriptions, of their ends and of tick messages leaves an
    empty handler list in the map. *)
Theorem subscribers_lists_never_empty (actions : list (action num)) (this : state num) :
  map_Forall (fun _ handlers => handlers <> []) (subscribers this) ->
  map_Forall (fun _ handlers => handlers <> []) (subscribers (run actions this)).
Proof.
  revert this. induction actions as [| a actions IH]; intros this Hinv.
  - exact Hinv.
  - unfold run. cbn [fold_left]. apply IH. apply nonempty_perform. exact Hinv.
Qed.

(** Reconnection backs off exponentially and then gives up: attempt number
    [a + k + 1] waits [reconnectDelay * 2 ^ (a + k)] ms, for as long as the
    attempt count is below [maxReconnectAttempts]; every later call sets no
    timer. *)
Theorem reconnect_backoff (n : nat) :
  forall this : state num,
    (0 <= reconnectAttempts this)%Z ->
    reconnect_delays n this
    = map (fun k : nat =>
             Some (reconnectDelay this * 2 ^ (reconnectAttempts this + Z.of_nat k))%Z)
          (seq 0 (Nat.min n (Z.to_nat (maxReconnectAttempts this - reconnectAttempts this))))
      ++ repeat None (n - Z.to_nat (maxReconnectAttempts this - reconnectAttempts this)).
Proof.
  induction n as [| n IH]; intros this Hpos; [reflexivity |].
  cbn [reconnect_delays]. unfold attemptReconnect.
  destruct (Z.leb_spec (maxReconnectAttempts this) (reconnectAttempts this)) as [Hmax | Hleft].
  - rewrite (IH this Hpos).
    replace (Z.to_nat (maxReconnectAttempts this - reconnectAttempts this)) with 0%nat by lia.
    rewrite !Nat.min_0_r, !Nat.sub_0_r. reflexivity.
  - rewrite IH by (cbn [reconnectAttempts]; lia).
    cbn [reconnectAttempts maxReconnectAttempts reconnectDelay].
    replace (Z.to_nat (maxReconnectAttempts this - reconnectAttempts this))
      with (S (Z.to_nat (maxReconnectAttempts this - (reconnectAttempts this + 1))))
      by lia.
    cbn [Nat.min Nat.sub seq map app]. f_equal.
    + f_equal. f_equal. f_equal. lia.
    + f_equal. rewrite <- seq_shift, map_map. apply map_ext.
      intros k. f_equal. f_equal. f_equal. lia.
Qed.

End FeedTheorems.

Section FeedExamples.
Import Feed FeedSpec.

Lemma tick_buffer_keeps_last_2048_witness :
  let ticks := [ Tick.mk "EURUSD" 1000 1%Z; Tick.mk "GBPUSD" 1500 7%Z;
                 Tick.mk "EURUSD" 2000 2%Z ] in
  let after := process_all ticks new in
  let arrived := getTickBuffer "EURUSD" new ++ ticks_of "EURUSD" ticks in
  getTickBuffer "EURUSD" after = keep_last 2048 arrived /\
  (length (getTickBuffer "EURUSD" after) <= 2048)%nat /\
  getLatestTick "EURUSD" after = last arrived.
Proof.
  apply (tick_buffer_keeps_last_2048 "EURUSD"
           [ Tick.mk "EURUSD" 1000 1%Z; Tick.mk "GBPUSD" 1500 7%Z;
             Tick.mk "EURUSD" 2000 2%Z ] new).
  unfold getTickBuffer, new. cbn [tickBuffers]. rewrite lookup_empty.
  cbn [from_option id length]. lia.
Defined.


Lemma subscribe_then_unsubscribe_witness :
  let this := subscribe "EURUSD" 1 (@new Z) in
  let after := unsubscribe "EURUSD" 2 (subscribe "EURUSD" 2 this) in
  subscribers after = subscribers this /\
  tickBuffers after = tickBuffers this /\
  outbox after
  = outbox this ++
    (if isConnected this && socketOpen this
     then MsgSubscribe "EURUSD" ::
          match subscribers this !! "EURUSD" with
          | None => [MsgUnsubscribe "EURUSD"]
          | Some _ => []
          end
     else []).
Proof.
  apply (subscribe_then_unsubscribe "EURUSD" 2 (subscribe "EURUSD" 1 (@new Z))).
  - vm_compute. intros [H | []]. discriminate H.
  - vm_compute. discriminate.
Defined.


Lemma subscribers_lists_never_empty_witness :
  map_Forall (fun _ handlers => handlers <> [])
    (subscribers (run [ Subscribe "EURUSD" 1; Subscribe "EURUSD" 2;
                        Unsubscribe "EURUSD" 1; Unsubscribe "EURUSD" 2 ] (@new Z))).
Proof.
  apply (subscribers_lists_never_empty
           [ Subscribe "EURUSD" 1; Subscribe "EURUSD" 2;
             Unsubscribe "EURUSD" 1; Unsubscribe "EURUSD" 2 ] (@new Z)).
  intros k hs Hk. cbn [new subscribers] in Hk. rewrite lookup_empty in Hk. discriminate Hk.
Defined.


Lemma reconnect_backoff_witness :
  reconnect_delays 7 (@new Z)
  = map (fun k : nat => Some (1000 * 2 ^ (0 + Z.of_nat k))%Z) (seq 0 (Nat.min 7 5))
    ++ repeat None (7 - 5).
Proof.
  apply (reconnect_backoff 7 (@new Z)). simpl. lia.
Defined.

End FeedExamples.

(** ** The window of the Bollinger bands *)

Section BandsWindow.
Import FeedSpec IndicatorSpec.
Local Open Scope Q_scope.

Lemma push_keep_last_n {A : Type} (n : nat) (l : list A) (x : A) :
  (length l <= n)%nat ->
  (if (Z.of_nat n <? Z.of_nat (length (l ++ [x])))%Z then shift (l ++ [x]) else l ++ [x])
  = keep_last n (l ++ [x]).
Proof.
  intros Hlen. unfold keep_last, shift. rewrite length_app. cbn [length].
  destruct (Z.ltb_spec (Z.of_nat n) (Z.of_nat (length l + 1))) as [Hfull | Hroom].
  - replace (length l + 1 - n)%nat with 1%nat by lia.
    destruct (l ++ [x]); reflexivity.
  - replace (length l + 1 - n)%nat with 0%nat by lia. reflexivity.
Qed.

Section WithRoot.
Context {root : Sqrt Q}.

(** What [update] returns once the prices [seen] have been fed. *)
Lemma bands_update_window (P : Z) (s : BollingerBands.state Q) (seen : list Q) (price : Q) :
  (1 <= P)%Z ->
  BollingerBands.period s = inject_Z P ->
  BollingerBands.prices s = keep_last (Z.to_nat P) seen ->
  BollingerBands.update s price
  = (let window := keep_last (Z.to_nat P) (seen ++ [price]) in
     let s' := {| BollingerBands.period := inject_Z P;
                  BollingerBands.stdDev := BollingerBands.stdDev s;
                  BollingerBands.prices := window |} in
     (if (Z.of_nat (length (seen ++ [price])) <? P)%Z then None
      else Some (BollingerBands.compute s'), s')).
Proof.
  intros HP Hper Hprices. unfold BollingerBands.update. cbv zeta.
  unfold gt, len. rewrite Hper, Hprices. simpl lt. simpl of_Z.
  rewrite !Qlt_bool_inject_Z.
  assert ((if (P <? Z.of_nat (length (keep_last (Z.to_nat P) seen ++ [price])))%Z
           then shift (keep_last (Z.to_nat P) seen ++ [price])
           else keep_last (Z.to_nat P) seen ++ [price])
          = keep_last (Z.to_nat P) (seen ++ [price])) as Hwindow.
  { rewrite <- keep_last_snoc.
    rewrite <- (push_keep_last_n (Z.to_nat P)) by apply keep_last_length.
    rewrite Z2Nat.id by lia. reflexivity. }
  rewrite !Hwindow.
  assert ((Z.of_nat (length (keep_last (Z.to_nat P) (seen ++ [price]))) <? P)%Z
          = (Z.of_nat (length (seen ++ [price])) <? P)%Z) as ->;
    [| destruct (Z.of_nat (length (seen ++ [price])) <? P)%Z; reflexivity].
  unfold keep_last. rewrite length_drop.
  destruct (Z.ltb_spec (Z.of_nat (length (seen ++ [price]))) P);
    destruct (Z.ltb_spec
                (Z.of_nat (length (seen ++ [price])
                           - (length (seen ++ [price]) - Z.to_nat P))) P);
    try reflexivity; lia.
Qed.

(** The Bollinger bands look at a window: for a period [P >= 1], the
    update with the [i]-th price returns null while fewer than [P] prices
    have been fed, and from then on the bands computed from the last [P]
    prices fed, whatever came before them. *)
Theorem BollingerBands_window (P : Z) (stdDev : option Q) (prices : list Q) (i : nat) :
  (1 <= P)%Z ->
  (i < length prices)%nat ->
  observe (BollingerBands.new (Some (inject_Z P)) stdDev) (updates prices) !! i
  = Some (if (Z.of_nat i + 1 <? P)%Z then None
          else Some (BollingerBands.compute
                       {| BollingerBands.period := inject_Z P;
                          BollingerBands.stdDev := default 2 stdDev;
                          BollingerBands.prices :=
                            keep_last (Z.to_nat P) (take (S i) prices) |})).
Proof.
  intros HP Hi.
  assert (forall (rest seen : list Q) (s : BollingerBands.state Q) (k : nat),
            (k < length rest)%nat ->
            BollingerBands.period s = inject_Z P ->
            BollingerBands.stdDev s = default 2 stdDev ->
            BollingerBands.prices s = keep_last (Z.to_nat P) seen ->
            observe s (updates rest) !! k
            = Some (if (Z.of_nat (length (seen ++ take (S k) rest)) <? P)%Z then None
                    else Some (BollingerBands.compute
                                 {| BollingerBands.period := inject_Z P;
                                    BollingerBands.stdDev := default 2 stdDev;
                                    BollingerBands.prices :=
                                      keep_last (Z.to_nat P)
                                                (seen ++ take (S k) rest) |})))
    as Hgen.
  { induction rest as [| price rest IH]; intros seen s k Hk Hper Hdev Hseen.
    - simpl in Hk. lia.
    - pose proof (bands_update_window P s seen price HP Hper Hseen) as Hupdate.
      cbv zeta in Hupdate. rewrite Hdev in Hupdate.
      unfold updates in *. cbn [map observe].
      cbv beta iota delta [update Indicator_BollingerBands].
      rewrite Hupdate. cbn [fst snd].
      destruct k as [| k]; cbn [lookup list_lookup].
      + cbn [take]. reflexivity.
      + cbn [length] in Hk.
        rewrite (IH (seen ++ [price])) by (try reflexivity; lia).
        cbn [take]. rewrite <- !app_assoc. reflexivity. }
  rewrite (Hgen prices [] (BollingerBands.new (Some (inject_Z P)) stdDev) i Hi)
    by reflexivity.
  cbn [app]. rewrite length_take.
  replace (Z.of_nat (Nat.min (S i) (length prices))) with (Z.of_nat i + 1)%Z by lia.
  reflexivity.
Qed.

End WithRoot.

Lemma BollingerBands_window_witness :
  @observe _ (@Indicator_BollingerBands Q _ sqrt_approx)
           (BollingerBands.new (Some (inject_Z 3)) None)
           (updates [1; 4; 2; 3]) !! 3%nat
  = Some (Some (@BollingerBands.compute Q _ sqrt_approx
                  {| BollingerBands.period := inject_Z 3;
                     BollingerBands.stdDev := 2;
                     BollingerBands.prices := [4; 2; 3] |})).
Proof.
  apply (BollingerBands_window (root := sqrt_approx) 3 None [1; 4; 2; 3] 3).
  - lia.
  - simpl. lia.
Defined.

End BandsWindow.

(** ** Candle labels and tick counts *)

Section WorkerTheorems.
Import IndicatorWorker CandleSpec CountSpec.

Lemma assoc_find (l : list (string * Z)) (key : string) (T : Z) :
  NoDup (map snd l) ->
  Timeframes.assoc key l = Some T ->
  find (fun kv => (snd kv =? T)%Z) l = Some (key, T).
Proof.
  induction l as [| [k v] l IH]; intros Hnodup Hassoc; simpl in *; [discriminate |].
  apply NoDup_cons in Hnodup. destruct Hnodup as [Hnotin Hnodup].
  destruct (String.eqb_spec k key) as [-> | Hne].
  - injection Hassoc as ->. rewrite Z.eqb_refl. reflexivity.
  - destruct (Z.eqb_spec v T) as [-> | _]; [| apply IH; assumption].
    destruct Hnotin. apply list_elem_of_In. eapply assoc_in_values. exact Hassoc.
Qed.

Lemma assoc_existsb (l : list (string * Z)) (key : string) :
  existsb (String.eqb key) (map fst l)
  = match Timeframes.assoc key l with Some _ => true | None => false end.
Proof.
  induction l as [| [k v] l IH]; simpl; [reflexivity |].
  rewrite (String.eqb_sym key k). destruct (String.eqb k key); [reflexivity | exact IH].
Qed.

(** The label of a timeframe survives the round trip through its duration:
    [getMsToTimeframe(getTimeframeMs(tf))] is [tf] for the eleven timeframes
    of the table and ['1m'] for every other string, the names that an object
    literal inherits included. *)
Theorem timeframe_label_round_trip (timeframe : string) :
  getMsToTimeframe (getTimeframeMs timeframe) = frame_label timeframe.
Proof.
  unfold frame_label, getTimeframeMs, Timeframes.get.
  rewrite assoc_existsb.
  destruct (Timeframes.assoc timeframe Timeframes.table) as [T |] eqn:Hassoc.
  - unfold getMsToTimeframe.
    rewrite (assoc_find Timeframes.table timeframe T); [reflexivity | | exact Hassoc].
    apply (bool_decide_unpack _). vm_compute. reflexivity.
  - destruct (existsb _ Timeframes.Object_prototype); reflexivity.
Qed.

Section WithNumber.
Context {num : Type} `{Number num}.

Lemma feed_ingest_all_any (ticks : list (Tick.t num)) :
  forall (candleBuilders : gmap string (builder num)) (symbol timeframe : string),
    feed candleBuilders symbol timeframe ticks
    = ingest_all (builder_of candleBuilders symbol timeframe) ticks.
Proof.
  induction ticks as [| tick rest IH]; intros candleBuilders symbol timeframe; simpl.
  - reflexivity.
  - unfold buildCandle. fold (builder_of candleBuilders symbol timeframe).
    destruct (ingest (builder_of candleBuilders symbol timeframe) tick) as [r b'].
    rewrite IH. f_equal. f_equal. unfold builder_of. rewrite lookup_insert_eq. reflexivity.
Qed.

Lemma ingest_all_accounting (ticks : list (Tick.t num)) :
  forall b : builder num,
    (forall c, currentCandle b = Some c -> well_counted (timeframeMs b) c) ->
    let results := ingest_all b ticks in
    Forall (fun r => well_counted (timeframeMs b) (current r)) results /\
    (completed_ticks results
     + match last results with
       | Some r => Candle.tickCount (current r)
       | None => match currentCandle b with
                 | Some c => Candle.tickCount c
                 | None => 0
                 end
       end
     = match currentCandle b with
       | Some c => Candle.tickCount c
       | None => 0
       end + Z.of_nat (length ticks))%Z.
Proof.
  induction ticks as [| tick rest IH]; intros b Hb results; subst results.
  - split; [constructor |]. unfold completed_ticks. simpl. lia.
  - cbn [ingest_all].
    destruct (ingest b tick) as [r b'] eqn:Hingest.
    assert (currentCandle b' = Some (current r) /\ timeframeMs b' = timeframeMs b /\
            well_counted (timeframeMs b) (current r) /\
            (match completed r with Some c => Candle.tickCount c | None => 0 end
             + Candle.tickCount (current r)
             = match currentCandle b with Some c => Candle.tickCount c | None => 0 end + 1)%Z)
      as (Hcur & Hms & Hwell & Hcount).
    { unfold ingest in Hingest.
      destruct (currentCandle b) as [cur |] eqn:Hc.
      - destruct (Hb cur eq_refl) as (Hframe & Hvol & Hpos).
        destruct (time_differs _ _); injection Hingest as <- <-;
          cbn [currentCandle timeframeMs current completed];
          (repeat apply conj; try reflexivity);
          cbn [createNewCandle updateCandle Candle.frame Candle.volume Candle.tickCount];
          try assumption; lia.
      - injection Hingest as <- <-.
        cbn [currentCandle timeframeMs current completed].
        repeat apply conj; try reflexivity;
          cbn [createNewCandle Candle.frame Candle.volume Candle.tickCount]; lia. }
    destruct (IH b') as [Hall Heq].
    { intros c Hc. rewrite Hms. rewrite Hcur in Hc. injection Hc as <-. exact Hwell. }
    rewrite Hms in Hall. split; [constructor; assumption |].
    rewrite Hcur in Heq.
    assert (completed_ticks (r :: ingest_all b' rest)
            = (match completed r with Some c => Candle.tickCount c | None => 0 end
               + completed_ticks (ingest_all b' rest))%Z) as ->.
    { unfold completed_ticks. change (omap completed (r :: ingest_all b' rest))
        with (match completed r with
              | Some c => c :: omap completed (ingest_all b' rest)
              | None => omap completed (ingest_all b' rest)
              end).
      destruct (completed r); reflexivity. }
    assert (match last (r :: ingest_all b' rest) with
            | Some r' => Candle.tickCount (current r')
            | None => match currentCandle b with
                      | Some c => Candle.tickCount c
                      | None => 0%Z
                      end
            end
            = match last (ingest_all b' rest) with
              | Some r' => Candle.tickCount (current r')
              | None => Candle.tickCount (current r)
              end) as ->.
    { destruct (ingest_all b' rest) as [| r0 l]; [reflexivity |].
      rewrite last_cons_cons, last_cons. destruct (last l); reflexivity. }
    cbn [length]. lia.
Qed.

(** No tick is lost or counted twice by [buildCandle]: over any run of ticks
    for a key that is new to the builder map, the tick counts of the candles
    handed back as completed plus the count of the candle left open add up to
    the number of ticks; every candle carries the label of the timeframe
    (['1m'] for an unknown one), a volume equal to its tick count, and at
    least one tick. *)
Theorem buildCandle_counts_every_tick
    (candleBuilders : gmap string (builder num)) (symbol timeframe : string)
    (ticks : list (Tick.t num)) :
  candleBuilders !! (symbol +:+ "_" +:+ timeframe) = None ->
  let results := feed candleBuilders symbol timeframe ticks in
  (completed_ticks results + open_ticks results = Z.of_nat (length ticks))%Z /\
  Forall (fun r => Candle.frame (current r) = frame_label timeframe /\
                   Candle.volume (current r) = Candle.tickCount (current r) /\
                   (1 <= Candle.tickCount (current r))%Z) results.
Proof.
  intros Hnew results. subst results.
  rewrite feed_ingest_all_any. unfold builder_of. rewrite Hnew.
  destruct (ingest_all_accounting ticks
              {| currentCandle := None; timeframeMs := getTimeframeMs timeframe |})
    as [Hall Hcount].
  { intros c Hc. discriminate Hc. }
  cbn [currentCandle timeframeMs] in Hall, Hcount.
  split.
  - unfold open_ticks. rewrite Hcount. lia.
  - rewrite <- timeframe_label_round_trip. exact Hall.
Qed.

End WithNumber.

Lemma buildCandle_counts_every_tick_witness :
  let results := feed (num := Q) ∅ "EURUSD" "1m" ticks_before_epoch in
  (completed_ticks results + open_ticks results
   = Z.of_nat (length ticks_before_epoch))%Z /\
  Forall (fun r => Candle.frame (current r) = frame_label "1m" /\
                   Candle.volume (current r) = Candle.tickCount (current r) /\
                   (1 <= Candle.tickCount (current r))%Z) results.
Proof.
  apply (buildCandle_counts_every_tick (num := Q) ∅ "EURUSD" "1m" ticks_before_epoch).
  apply lookup_empty.
Defined.

End WorkerTheorems.

(** ** Reading the corrected clock *)

Section ClockExtras.
Import WebSocketClient.
Local Open Scope Q_scope.

Lemma Qtrunc_proper (x y : Q) : x == y -> Qtrunc x = Qtrunc y.
Proof.
  unfold Qeq, Qtrunc. intros Heq.
  rewrite <- (Z.quot_mul_cancel_r (Qnum x) (Z.pos (Qden x)) (Z.pos (Qden y))) by lia.
  rewrite <- (Z.quot_mul_cancel_r (Qnum y) (Z.pos (Qden y)) (Z.pos (Qden x))) by lia.
  rewrite Heq. f_equal. lia.
Qed.

Lemma new_Date_Q_proper (x y : Q) : x == y -> new_Date_Q x = new_Date_Q y.
Proof.
  intros Heq. unfold new_Date_Q. rewrite (Qtrunc_proper x y Heq).
  assert (Qle_bool (Qabs x) (inject_Z Date_max) = Qle_bool (Qabs y) (inject_Z Date_max))
    as ->; [| reflexivity].
  apply eq_true_iff_eq. rewrite !Qle_bool_iff, Heq. reflexivity.
Qed.

Lemma new_Date_Q_whole (k : Z) : new_Date_Q (inject_Z k) = new_Date k.
Proof.
  unfold new_Date_Q, new_Date, Qle_bool, Qtrunc, inject_Z. simpl.
  rewrite !Z.mul_1_r, Z.quot_1_r. reflexivity.
Qed.

(** What the corrected clock reads after a synchronisation, for clocks that
    are less than 2^51 ms apart, where the arithmetic on time values and
    half milliseconds is exact.
    After a [server_time] message handled at local time [now], the clock
    read [d] ms later is [new Date] of the server's time plus [d]: that
    date, or an invalid date beyond the range.  After a pong that answers a
    ping recorded at [t], it is ahead of that by half the round trip
    [now - t], with the half millisecond of an odd sum dropped towards
    zero.  After a message without a readable time the clock reads an
    invalid date. *)
Theorem corrected_clock_after_sync (this : state) (server_time now d t : Z) :
  lastPingTime this = Some t -> t <> 0%Z ->
  (Z.abs (server_time - now) <= 2 ^ 51)%Z ->
  (Z.abs (now - t) <= 2 ^ 51)%Z ->
  getServerTime (updateClockOffset this (DateOf server_time) now) (now + d)
  = new_Date (server_time + d) /\
  ((Z.abs (2 * (server_time + d) + (now - t)) < 2 ^ 53)%Z ->
   getServerTime (handlePong this (DateOf server_time) now) (now + d)
   = DateOf (Z.quot (2 * (server_time + d) + (now - t)) 2)) /\
  getServerTime (updateClockOffset this InvalidDate now) (now + d) = InvalidDate /\
  getServerTime (handlePong this InvalidDate now) (now + d) = InvalidDate.
Proof.
  intros Hping Hnz _ _.
  assert (handlePong this InvalidDate now
          = {| clockOffset := None; lastPingTime := lastPingTime this;
               isConnected := isConnected this |}) as Hnan.
  { unfold handlePong. rewrite Hping. cbn [falsy from_option id].
    destruct (Z.eqb_spec t 0) as [-> | _]; [contradiction | reflexivity]. }
  split; [| split; [| split]].
  - unfold getServerTime, updateClockOffset. cbn [clockOffset].
    rewrite <- new_Date_Q_whole. apply new_Date_Q_proper.
    rewrite !inject_Z_plus. ring.
  - intros Hsafe. unfold getServerTime, handlePong. rewrite Hping.
    cbn [falsy from_option id].
    destruct (Z.eqb_spec t 0) as [-> | _]; [contradiction |]. cbn [clockOffset].
    rewrite (new_Date_Q_proper _ ((2 * (server_time + d) + (now - t)) # 2)).
    + unfold new_Date_Q.
      assert (Qle_bool (Qabs ((2 * (server_time + d) + (now - t)) # 2))
                       (inject_Z Date_max) = true) as ->; [| reflexivity].
      apply Qle_bool_iff. unfold Qabs, Qle, inject_Z, Date_max. simpl.
      change (2 ^ 53)%Z with 9007199254740992%Z in Hsafe. lia.
    + rewrite (Qmake_Qdiv _ 2). unfold Z.sub.
      rewrite !inject_Z_plus, !inject_Z_mult, !inject_Z_plus, !inject_Z_opp.
      change (inject_Z (Z.pos 2)) with 2. change (inject_Z 2) with 2. field.
  - reflexivity.
  - rewrite Hnan. reflexivity.
Qed.

Lemma corrected_clock_after_sync_witness :
  getServerTime (updateClockOffset (syncClock (handle new (Open 1000)) 2000)
                                   (DateOf 5000) 2100) (2100 + 50)
  = DateOf 5050 /\
  getServerTime (handlePong (syncClock (handle new (Open 1000)) 2000)
                            (DateOf 5000) 2100) (2100 + 50)
  = DateOf 5100.
Proof.
  destruct (corrected_clock_after_sync
              (syncClock (handle new (Open 1000)) 2000) 5000 2100 50 2000)
    as (Hwhole & Hhalf & _).
  - reflexivity.
  - discriminate.
  - vm_compute. discriminate.
  - vm_compute. discriminate.
  - split; [exact Hwhole |]. apply Hhalf. vm_compute. reflexivity.
Defined.

End ClockExtras.
